(** * Document generation service: OpenAPI document -> API and model records

    A shallow embedding of [DocumentGenerationService] (the class that walks a
    parsed Swagger/OpenAPI document and produces the [ApiDocumentation] and
    [ModelDocumentation] records), followed by the properties established
    about it.

    Conventions of the embedding.
    - JavaScript strings are [string]s of bytes; [toLowerCase] and
      [toUpperCase] act on the ASCII letters.
    - A JavaScript object used as a record of named entries is an association
      list in enumeration order ([Object.entries]); property read is the
      first entry with the key.  Keys are taken to be ordinary property names
      (the array-index ordering of integer-like keys and the special name
      [__proto__] are not modelled).
    - An optional field is an [option]; truthiness tests ([x || d], [!x],
      [if (x)]) are written out with [truthy].
    - The mutable [Set] of seen model names is threaded explicitly as a
      [gset string].
    - The schema extractor recurses through resolved references, so it takes
      a fuel argument; running out of fuel is the error [OutOfFuel].
    - The document has the fields that types.ts declares and no others.  The
      reference resolver is followed through [components], [definitions],
      the schema tables and the [properties] and [items] of a schema; a name
      that the document does not have there is [undefined].  A pointer that
      finds something else (a parameter, a response, a scalar field, a
      property inherited from [Object.prototype]) gives the error
      [OutsideSchemas]: the embedding does not say what the service makes of
      it.
    - [pascalCase] and [camelCase] belong to the package change-case: the
      service is stated for any two such functions, and run on concrete
      documents with a model of the package. *)

From Stdlib Require Import Ascii String ZArith.
From stdpp Require Import base list strings gmap.

Local Open Scope list_scope.
Set Warnings "-register-all".

(** ** Strings *)

Module Str.

Definition is_upper (c : ascii) : bool :=
  ((65 <=? nat_of_ascii c) && (nat_of_ascii c <=? 90))%nat.

Definition is_lower (c : ascii) : bool :=
  ((97 <=? nat_of_ascii c) && (nat_of_ascii c <=? 122))%nat.

Definition is_digit (c : ascii) : bool :=
  ((48 <=? nat_of_ascii c) && (nat_of_ascii c <=? 57))%nat.

Definition is_alnum (c : ascii) : bool :=
  is_upper c || is_lower c || is_digit c.

Definition lower_char (c : ascii) : ascii :=
  if is_upper c then ascii_of_nat (nat_of_ascii c + 32) else c.

Definition upper_char (c : ascii) : ascii :=
  if is_lower c then ascii_of_nat (nat_of_ascii c - 32) else c.

Fixpoint map (f : ascii -> ascii) (s : string) : string :=
  match s with
  | EmptyString => EmptyString
  | String c s' => String (f c) (map f s')
  end.

(** [s.toLowerCase()] and [s.toUpperCase()] *)
Definition toLowerCase : string -> string := map lower_char.
Definition toUpperCase : string -> string := map upper_char.

Fixpoint filter (p : ascii -> bool) (s : string) : string :=
  match s with
  | EmptyString => EmptyString
  | String c s' => if p c then String c (filter p s') else filter p s'
  end.

(** [s.startsWith(p)] *)
Definition startsWith (s p : string) : bool := String.prefix p s.

(** [s.endsWith(p)] *)
Definition endsWith (s p : string) : bool :=
  String.prefix (String.rev p) (String.rev s).

Fixpoint drop (n : nat) (s : string) : string :=
  match n, s with
  | O, _ => s
  | S n', String _ s' => drop n' s'
  | S _, EmptyString => EmptyString
  end.

(** [s.replace(pat, rep)] with a string pattern: the first occurrence only. *)
Fixpoint replaceFirst (pat rep s : string) : string :=
  if String.prefix pat s then rep +:+ drop (String.length pat) s
  else match s with
       | EmptyString => EmptyString
       | String c s' => String c (replaceFirst pat rep s')
       end.

(** [s.split(sep)] for a one-character separator; never the empty list. *)
Fixpoint split (sep : ascii) (s : string) : list string :=
  match s with
  | EmptyString => [EmptyString]
  | String c s' =>
      if Ascii.eqb c sep then EmptyString :: split sep s'
      else match split sep s' with
           | w :: ws => String c w :: ws
           | [] => [String c EmptyString]
           end
  end.

(** The longest prefix of characters satisfying [p], and the rest. *)
Fixpoint span (p : ascii -> bool) (s : string) : string * string :=
  match s with
  | EmptyString => (EmptyString, EmptyString)
  | String c s' =>
      if p c then let '(a, b) := span p s' in (String c a, b)
      else (EmptyString, s)
  end.

Definition not_close (c : ascii) : bool := negb (Ascii.eqb c "}").

(** One match of the regular expression [{([^}]+)}] anchored at the start of
    [s]: the captured group and the text after the match. *)
Definition matchBraceAt (s : string) : option (string * string) :=
  match s with
  | String "{" r =>
      match span not_close r with
      | (String c run, String "}" rest) => Some (String c run, rest)
      | _ => None
      end
  | _ => None
  end.

(** [s.match(/{([^}]+)}/g)]: all matches, leftmost first, each search
    resuming after the previous match.  [None] is JavaScript's [null]. *)
Fixpoint braceMatchesFrom (fuel : nat) (s : string) : list string :=
  match fuel with
  | O => []
  | S n =>
      match matchBraceAt s with
      | Some (name, rest) => ("{" +:+ name +:+ "}") :: braceMatchesFrom n rest
      | None =>
          match s with
          | EmptyString => []
          | String _ s' => braceMatchesFrom n s'
          end
      end
  end.

Definition matchBraces (s : string) : option (list string) :=
  match braceMatchesFrom (S (String.length s)) s with
  | [] => None
  | ms => Some ms
  end.

(** [s.replace(/{[^}]+}/g, rep)] *)
Fixpoint replaceBracesFrom (fuel : nat) (rep s : string) : string :=
  match fuel with
  | O => s
  | S n =>
      match matchBraceAt s with
      | Some (_, rest) => rep +:+ replaceBracesFrom n rep rest
      | None =>
          match s with
          | EmptyString => EmptyString
          | String c s' => String c (replaceBracesFrom n rep s')
          end
      end
  end.

Definition replaceBraces (rep s : string) : string :=
  replaceBracesFrom (S (String.length s)) rep s.

(** [m.slice(1, -1)] *)
Definition slice_1_m1 (s : string) : string :=
  String.substring 1 (String.length s - 2) s.

(** [s.replace(/suffix$/, rep)] for a literal suffix. *)
Definition replaceSuffix (suffix rep s : string) : string :=
  if endsWith s suffix
  then String.substring 0 (String.length s - String.length suffix) s +:+ rep
  else s.

End Str.

(** ** JSON values and [JSON.stringify] *)

(** A number is carried as the decimal text that [JSON.stringify] prints for
    it; floating point arithmetic plays no role in the service. *)
Inductive JSON : Type :=
| JNull
| JBool (b : bool)
| JNum (text : string)
| JStr (s : string)
| JArr (elems : list JSON)
| JObj (fields : list (string * JSON)).

Module Json.

Definition hex_digit (n : nat) : ascii :=
  if (n <? 10)%nat then ascii_of_nat (48 + n) else ascii_of_nat (87 + n).

Definition quote : string := String (ascii_of_nat 34) EmptyString.
Definition backslash : string := String (ascii_of_nat 92) EmptyString.

Definition escape_char (c : ascii) : string :=
  let n := nat_of_ascii c in
  if (n =? 34)%nat then backslash +:+ quote
  else if (n =? 92)%nat then backslash +:+ backslash
  else if (n =? 8)%nat then backslash +:+ "b"
  else if (n =? 9)%nat then backslash +:+ "t"
  else if (n =? 10)%nat then backslash +:+ "n"
  else if (n =? 12)%nat then backslash +:+ "f"
  else if (n =? 13)%nat then backslash +:+ "r"
  else if (n <? 32)%nat
       then backslash +:+ "u00"
            +:+ String (hex_digit (n / 16)) (String (hex_digit (n mod 16)) EmptyString)
  else String c EmptyString.

Fixpoint escape (s : string) : string :=
  match s with
  | EmptyString => EmptyString
  | String c s' => escape_char c +:+ escape s'
  end.

Definition quoted (s : string) : string := quote +:+ escape s +:+ quote.

Fixpoint join (sep : string) (l : list string) : string :=
  match l with
  | [] => EmptyString
  | [x] => x
  | x :: l' => x +:+ sep +:+ join sep l'
  end.

Fixpoint stringify (j : JSON) : string :=
  match j with
  | JNull => "null"
  | JBool true => "true"
  | JBool false => "false"
  | JNum text => text
  | JStr s => quoted s
  | JArr elems => "[" +:+ join "," (List.map stringify elems) +:+ "]"
  | JObj fields =>
      "{" +:+ join "," (List.map (fun kv => quoted (fst kv) +:+ ":" +:+ stringify (snd kv)) fields)
          +:+ "}"
  end.

(** An object literal some of whose fields may be [undefined]:
    [JSON.stringify] leaves those fields out. *)
Fixpoint record (fields : list (string * option JSON)) : list (string * JSON) :=
  match fields with
  | [] => []
  | (k, Some v) :: rest => (k, v) :: record rest
  | (_, None) :: rest => record rest
  end.

Definition str (o : option string) : option JSON := JStr <$> o.
Definition strings (l : list string) : JSON := JArr (JStr <$> l).

End Json.

(** ** JavaScript objects as ordered maps *)

Module Obj.
Section Obj.
Context {V : Type}.

(** [o[k]] *)
Fixpoint get (k : string) (o : list (string * V)) : option V :=
  match o with
  | [] => None
  | (k', v) :: o' => if String.eqb k' k then Some v else get k o'
  end.

(** [o[k] = v]: an existing key keeps its place, a new one goes last. *)
Fixpoint set (k : string) (v : V) (o : list (string * V)) : list (string * V) :=
  match o with
  | [] => [(k, v)]
  | (k', v') :: o' =>
      if String.eqb k' k then (k, v) :: o' else (k', v') :: set k v o'
  end.

(** [Object.assign(target, source)] *)
Definition assign (target source : list (string * V)) : list (string * V) :=
  fold_left (fun acc kv => set (fst kv) (snd kv) acc) source target.

Definition keys (o : list (string * V)) : list string := fst <$> o.
Definition values (o : list (string * V)) : list V := snd <$> o.
End Obj.
End Obj.

(** ** Results of fallible computations *)

Inductive error : Type :=
| OutOfFuel        (* the recursion through resolved schemas did not end *)
| OutsideSchemas.  (* a [$ref] led out of the schema tables of the document *)

Inductive res (A : Type) : Type :=
| Ok (a : A)
| Err (e : error).
Arguments Ok {A} a.
Arguments Err {A} e.

#[global] Instance res_ret : MRet res := fun _ a => Ok a.
#[global] Instance res_bind : MBind res := fun _ _ f m =>
  match m with
  | Ok a => f a
  | Err e => Err e
  end.

(** [l.forEach(x => ...)] over a body that updates an accumulator and may fail. *)
Fixpoint foldM {A B : Type} (f : B -> A -> res B) (l : list A) (b : B) : res B :=
  match l with
  | [] => Ok b
  | x :: l' => b' ← f b x; foldM f l' b'
  end.

(** A string is truthy when it is present and not empty. *)
Definition truthy (o : option string) : option string :=
  match o with
  | Some s => if String.eqb s "" then None else Some s
  | None => None
  end.

(** [[...new Set(l)]]: duplicates removed, first occurrences kept in order. *)
Fixpoint uniqFrom (seen l : list string) : list string :=
  match l with
  | [] => []
  | x :: l' =>
      if bool_decide (x ∈ seen) then uniqFrom seen l'
      else x :: uniqFrom (x :: seen) l'
  end.
Definition uniq (l : list string) : list string := uniqFrom [] l.

(** ** The document (types.ts)

    Only the fields that the service reads are kept. *)

Inductive SwaggerSchema : Type := mkSchema {
  s_type : option string;
  s_format : option string;
  s_properties : option (list (string * SwaggerSchema));
  s_required : option (list string);
  s_items : option SwaggerSchema;
  s_allOf : option (list SwaggerSchema);
  s_ref : option string;                 (* [$ref] *)
  s_enum : option (list JSON);
  s_description : option string;
  s_example : option JSON
}.

Inductive ParamIn : Type := InQuery | InPath | InHeader | InCookie.

#[global] Instance ParamIn_eq_dec : EqDecision ParamIn.
Proof. solve_decision. Defined.

Record SwaggerParameter : Type := mkParameter {
  p_name : string;
  p_in : ParamIn;
  p_required : option bool;
  p_schema : option SwaggerSchema;
  p_type : option string;                (* OpenAPI 2.0 *)
  p_format : option string;              (* OpenAPI 2.0 *)
  p_description : option string
}.

Record MediaType : Type := mkMediaType {
  mt_schema : option SwaggerSchema
}.

Record SwaggerRequestBody : Type := mkRequestBody {
  rb_content : list (string * MediaType)
}.

Record SwaggerResponse : Type := mkResponse {
  r_content : option (list (string * MediaType));
  r_schema : option SwaggerSchema         (* OpenAPI 2.0 *)
}.

Record SwaggerOperation : Type := mkOperation {
  op_operationId : option string;
  op_summary : option string;
  op_description : option string;
  op_tags : option (list string);
  op_parameters : option (list SwaggerParameter);
  op_requestBody : option SwaggerRequestBody;
  op_responses : list (string * SwaggerResponse);
  op_security : option (list (list (string * list string)))
}.

Record Components : Type := mkComponents {
  c_schemas : option (list (string * SwaggerSchema));
  c_parameters : option (list (string * SwaggerParameter));
  c_responses : option (list (string * SwaggerResponse))
}.

Record SwaggerSpec : Type := mkSpec {
  api_paths : list (string * list (string * SwaggerOperation));
  api_components : option Components;
  api_definitions : option (list (string * SwaggerSchema));  (* OpenAPI 2.0 *)
  api_parameters : option (list (string * SwaggerParameter)) (* OpenAPI 2.0 *)
}.

(** ** The records produced (types.ts) *)

Record ApiDocumentation : Type := mkApi {
  api_sNo : Z;
  endpoint : string;
  method : string;
  tag : string;
  operationId : string;
  summary : string;
  pathParams : option string;            (* JSON text *)
  queryParamsRef : option string;
  requestBodyRef : option string;
  responseBodyRef : option string;
  isPaginated : bool;
  requiresAuth : bool;
  businessPurpose : option string
}.

Record ModelDocumentation : Type := mkModel {
  sNo : Z;
  modelName : string;
  properties : string;                   (* JSON text *)
  required : option string;              (* JSON text of an array *)
  description : option string;
  usedInOperations : option string
}.

(** ** Reference resolver *)

(** The property names that every object inherits from [Object.prototype]:
    read from an object that has no entry of that name, each gives a
    function or an object, not [undefined]. *)
Definition inheritedNames : list string :=
  ["constructor"; "hasOwnProperty"; "isPrototypeOf"; "propertyIsEnumerable";
   "toLocaleString"; "toString"; "valueOf"; "__proto__";
   "__defineGetter__"; "__defineSetter__"; "__lookupGetter__"; "__lookupSetter__"].

(** [l.includes(x)] *)
Definition includes (l : list string) (x : string) : bool :=
  existsb (String.eqb x) l.

(** The nodes of the document that a pointer passes through: the document,
    its [components], a table of schemas, a schema, a table of entries that
    are no schemas (given by its names), and anything else that is found. *)
Inductive Node : Type :=
| NSpec (api : SwaggerSpec)
| NComponents (c : Components)
| NSchemas (table : list (string * SwaggerSchema))
| NSchema (schema : SwaggerSchema)
| NNames (names : list string)
| NOther.

(** Reading one property of a node.  [Missing] is [undefined]: an optional
    field that is absent, a name that a table does not have, or a name that
    is no field of the node.  [Opaque] is a read whose result the embedding
    does not follow: a field that the records above leave out, a property
    of something that is neither a table nor a schema, an inherited
    property. *)
Inductive Step : Type :=
| Found (n : Node)
| Missing
| Opaque.

(** [undefined] for a name that the node does not have, unless it is
    inherited. *)
Definition absent (seg : string) : Step :=
  if includes inheritedNames seg then Opaque else Missing.

Definition step (n : Node) (seg : string) : Step :=
  match n with
  | NSpec api =>
      if String.eqb seg "components" then
        match api_components api with
        | Some c => Found (NComponents c)
        | None => Missing
        end
      else if String.eqb seg "definitions" then
        match api_definitions api with
        | Some t => Found (NSchemas t)
        | None => Missing
        end
      else if String.eqb seg "parameters" then
        match api_parameters api with
        | Some t => Found (NNames (Obj.keys t))
        | None => Missing
        end
      else if includes ["paths"; "info"] seg then Found NOther
      else if includes ["openapi"; "swagger"; "servers"] seg then Opaque
      else absent seg
  | NComponents c =>
      if String.eqb seg "schemas" then
        match c_schemas c with
        | Some t => Found (NSchemas t)
        | None => Missing
        end
      else if String.eqb seg "parameters" then
        match c_parameters c with
        | Some t => Found (NNames (Obj.keys t))
        | None => Missing
        end
      else if String.eqb seg "responses" then
        match c_responses c with
        | Some t => Found (NNames (Obj.keys t))
        | None => Missing
        end
      else absent seg
  | NSchemas t =>
      match Obj.get seg t with
      | Some s => Found (NSchema s)
      | None => absent seg
      end
  | NSchema s =>
      if String.eqb seg "properties" then
        match s_properties s with
        | Some t => Found (NSchemas t)
        | None => Missing
        end
      else if String.eqb seg "items" then
        match s_items s with
        | Some i => Found (NSchema i)
        | None => Missing
        end
      else if includes
                ["type"; "format"; "required"; "allOf"; "oneOf"; "anyOf"; "$ref"; "enum";
                 "description"; "example"; "default"; "minimum"; "maximum"; "minLength";
                 "maxLength"; "pattern"; "additionalProperties"] seg
      then Opaque
      else absent seg
  | NNames names =>
      if includes names seg then Found NOther else absent seg
  | NOther => Opaque
  end.

(** [for (const segment of refPath) { resolved = resolved[segment];
    if (!resolved) break; }] *)
Fixpoint walk (n : Node) (segs : list string) : Step :=
  match segs with
  | [] => Found n
  | seg :: rest =>
      match step n seg with
      | Found n' => walk n' rest
      | Missing => Missing
      | Opaque => Opaque
      end
  end.

(** [schema.$ref.replace('#/', '').split('/')] *)
Definition refPath (ref : string) : list string :=
  Str.split "/" (Str.replaceFirst "#/" "" ref).

Definition resolveSchema (schema : SwaggerSchema) (api : SwaggerSpec) : res SwaggerSchema :=
  match truthy (s_ref schema) with
  | Some ref =>
      match walk (NSpec api) (refPath ref) with
      | Found (NSchema resolved) => Ok resolved
      | Found _ => Err OutsideSchemas
      | Opaque => Err OutsideSchemas
      | Missing => Ok schema            (* [resolved || schema] *)
      end
  | None => Ok schema
  end.

(** ** Type mapper *)

Definition mapSwaggerTypeToTypeScript (type : option string) (format : option string) : string :=
  match type with
  | Some "integer" | Some "number" => "number"
  | Some "boolean" => "boolean"
  | Some "string" =>
      match format with
      | Some "date" | Some "date-time" => "Date"
      | _ => "string"
      end
  | Some "array" => "array"
  | Some "object" => "object"
  | _ => "any"
  end.

Definition getParameterType (param : SwaggerParameter) : string :=
  match p_schema param with
  | Some schema => mapSwaggerTypeToTypeScript (s_type schema) (s_format schema)
  | None => mapSwaggerTypeToTypeScript (p_type param) (p_format param)
  end.

(** ** Schema property extractor *)

Definition typeIs (schema : SwaggerSchema) (t : string) : bool :=
  match s_type schema with
  | Some t' => String.eqb t' t
  | None => false
  end.

(** [extractSchemaProperties] and [convertSchemaToProperty] call each other
    through nested and resolved schemas; [fuel] bounds the depth of the calls. *)
Fixpoint extractSchemaProperties (fuel : nat) (schema : SwaggerSchema) (api : SwaggerSpec)
  : res (list (string * JSON) * list string) :=
  match fuel with
  | O => Err OutOfFuel
  | S n =>
      properties0 ←
        match s_properties schema with
        | Some props =>
            foldM (fun acc '(propName, propSchema) =>
                     prop ← convertSchemaToProperty n propSchema api;
                     Ok (Obj.set propName prop acc))
                  props []
        | None => Ok []
        end;
      let required0 := default [] (s_required schema) in
      '(properties, required) ←
        match s_allOf schema with
        | Some subSchemas =>
            foldM (fun '(properties, required) subSchema =>
                     resolved ← resolveSchema subSchema api;
                     '(subProperties, subRequired) ← extractSchemaProperties n resolved api;
                     Ok (Obj.assign properties subProperties, required ++ subRequired))
                  subSchemas (properties0, required0)
        | None => Ok (properties0, required0)
        end;
      Ok (properties, uniq required)
  end
with convertSchemaToProperty (fuel : nat) (schema : SwaggerSchema) (api : SwaggerSpec)
  : res JSON :=
  match fuel with
  | O => Err OutOfFuel
  | S n =>
      resolved ← resolveSchema schema api;
      if typeIs resolved "array" then
        items ←
          match s_items resolved with
          | Some itemSchema => convertSchemaToProperty n itemSchema api
          | None => Ok (JObj [("type", JStr "any")])
          end;
        Ok (JObj (Json.record
                    [("type", Some (JStr "array"));
                     ("items", Some items);
                     ("description", Json.str (s_description resolved))]))
      else if typeIs resolved "object" then
        '(subProperties, subRequired) ← extractSchemaProperties n resolved api;
        Ok (JObj (Json.record
                    [("type", Some (JStr "object"));
                     ("properties", Some (JObj subProperties));
                     ("required", Some (Json.strings subRequired));
                     ("description", Json.str (s_description resolved))]))
      else
        Ok (JObj (Json.record
                    [("type", Some (JStr (mapSwaggerTypeToTypeScript
                                            (Some (default "any" (truthy (s_type resolved))))
                                            (s_format resolved))));
                     ("description", Json.str (s_description resolved));
                     ("enum", JArr <$> s_enum resolved);
                     ("example", s_example resolved)]))
  end.

(** ** Semantic heuristics *)

(** [content?.['application/json']?.schema] *)
Definition jsonSchema (content : option (list (string * MediaType))) : option SwaggerSchema :=
  match content with
  | Some content =>
      match Obj.get "application/json" content with
      | Some jsonContent => mt_schema jsonContent
      | None => None
      end
  | None => None
  end.

(** [response.content?.['application/json']?.schema || response.schema] *)
Definition responseSchema (response : SwaggerResponse) : option SwaggerSchema :=
  match jsonSchema (r_content response) with
  | Some schema => Some schema
  | None => r_schema response
  end.

Definition paginationParams : list string :=
  ["page"; "offset"; "limit"; "size"; "pageSize"; "pageNumber"].

Definition paginationFields : list string :=
  ["totalCount"; "totalPages"; "page"; "pageSize"; "hasNext"; "hasPrevious"].

Definition isPaginatedSchema (schema : option SwaggerSchema) : bool :=
  match schema with
  | None => false
  | Some schema =>
      match s_properties schema with
      | None => false
      | Some props =>
          let schemaFields := Str.toLowerCase <$> Obj.keys props in
          existsb (fun field => includes schemaFields (Str.toLowerCase field)) paginationFields
      end
  end.

Definition detectPagination (operation : SwaggerOperation) : bool :=
  let hasPageParams :=
    existsb (fun p => includes paginationParams (Str.toLowerCase (p_name p)))
      <$> op_parameters operation in
  let responses := Obj.values (op_responses operation) in
  let hasPaginatedResponse :=
    existsb (fun response => isPaginatedSchema (responseSchema response)) responses in
  default false hasPageParams || hasPaginatedResponse.

Definition detectAuthentication (operation : SwaggerOperation) : bool :=
  match op_security operation with
  | Some security => (0 <? length security)%nat
  | None => false
  end.

Definition getActionFromMethod (method : string) : string :=
  match Str.toUpperCase method with
  | "GET" => "Retrieve"
  | "POST" => "Create"
  | "PUT" => "Update"
  | "PATCH" => "Modify"
  | "DELETE" => "Remove"
  | _ => "Process"
  end.

Definition generateBusinessPurpose
    (operation : SwaggerOperation) (tag method path : string) : string :=
  match truthy (op_description operation) with
  | Some description => description
  | None =>
      match truthy (op_summary operation) with
      | Some summary => summary +:+ " - Used for " +:+ tag +:+ " management in the application"
      | None =>
          let entity := Str.replaceSuffix "s" "" tag in
          let action := getActionFromMethod method in
          action +:+ " " +:+ entity +:+ " data for " +:+ tag +:+ " management functionality"
      end
  end.

Definition isValidHttpMethod (method : string) : bool :=
  includes ["GET"; "POST"; "PUT"; "PATCH"; "DELETE"] (Str.toUpperCase method).

Definition hasQueryParams (operation : SwaggerOperation) : bool :=
  match op_parameters operation with
  | Some ps => existsb (fun p => bool_decide (p_in p = InQuery)) ps
  | None => false
  end.

Definition hasResponseBody (operation : SwaggerOperation) : bool :=
  existsb (fun response => bool_decide (is_Some (responseSchema response)))
          (Obj.values (op_responses operation)).

(** ** Path parameters *)

Definition extractPathParameters
    (path : string) (operation : SwaggerOperation) (api : SwaggerSpec)
  : option (list (string * JSON)) :=
  match Str.matchBraces path with
  | None => None
  | Some pathParamMatches =>
      let pathParams :=
        fold_left
          (fun pathParams m =>
             let paramName := Str.slice_1_m1 m in
             let param :=
               match op_parameters operation with
               | Some ps =>
                   List.find (fun p => String.eqb (p_name p) paramName
                                       && bool_decide (p_in p = InPath)) ps
               | None => None
               end in
             match param with
             | Some param =>
                 Obj.set paramName
                   (JObj (Json.record
                            [("type", Some (JStr (getParameterType param)));
                             ("required", Some (JBool (default false (p_required param) || true)));
                             ("description", Json.str (p_description param))]))
                   pathParams
             | None =>
                 Obj.set paramName
                   (JObj [("type", JStr "string"); ("required", JBool true)])
                   pathParams
             end)
          pathParamMatches [] in
      if (0 <? length (Obj.keys pathParams))%nat then Some pathParams else None
  end.

(** ** The service

    [pascalCase] and [camelCase] come from the third-party package
    change-case; the service is parameterised by them. *)

Section Service.

Variables pascalCase camelCase : string -> string.

(** *** Naming engine *)

Definition generateOperationId (method path : string) : string :=
  let cleanPath :=
    Str.replaceSuffix "By" "ById"
      (Str.filter Str.is_alnum (Str.replaceBraces "By" path)) in
  camelCase (method +:+ "_" +:+ cleanPath).

(** *** Operation builder *)

Definition createApiDocumentation
    (sNo : Z) (path method : string) (operation : SwaggerOperation) (api : SwaggerSpec)
  : ApiDocumentation :=
  let tag := default "default" (truthy (op_tags operation ≫= head)) in
  let operationId :=
    default (generateOperationId method path) (truthy (op_operationId operation)) in
  let pathParams := extractPathParameters path operation api in
  let queryParamsRef :=
    if hasQueryParams operation
    then Some (pascalCase operationId +:+ "QueryParams") else None in
  let requestBodyRef :=
    match op_requestBody operation with
    | Some _ => Some (pascalCase operationId +:+ "InData")
    | None => None
    end in
  let responseBodyRef :=
    if hasResponseBody operation
    then Some (pascalCase operationId +:+ "OutData") else None in
  let isPaginated := detectPagination operation in
  let requiresAuth := detectAuthentication operation in
  let businessPurpose := generateBusinessPurpose operation tag method path in
  {| api_sNo := sNo;
     endpoint := path;
     method := method;
     tag := tag;
     operationId := operationId;
     summary := default (method +:+ " " +:+ path) (truthy (op_summary operation));
     pathParams := (fun o => Json.stringify (JObj o)) <$> pathParams;
     queryParamsRef := queryParamsRef;
     requestBodyRef := requestBodyRef;
     responseBodyRef := responseBodyRef;
     isPaginated := isPaginated;
     requiresAuth := requiresAuth;
     businessPurpose := Some businessPurpose |}.

(** *** Model extractor *)

(** [required.length > 0 ? JSON.stringify(required) : undefined] *)
Definition requiredText (required : list string) : option string :=
  if (0 <? length required)%nat then Some (Json.stringify (Json.strings required))
  else None.

Definition createQueryParamsModel (operation : SwaggerOperation) (operationId : string)
  : option ModelDocumentation :=
  let queryParams :=
    match op_parameters operation with
    | Some ps => List.filter (fun p => bool_decide (p_in p = InQuery)) ps
    | None => []
    end in
  if (length queryParams =? 0)%nat then None
  else
    let '(properties, required) :=
      fold_left
        (fun '(properties, required) param =>
           (Obj.set (p_name param)
              (JObj (Json.record
                       [("type", Some (JStr (getParameterType param)));
                        ("description", Json.str (p_description param))]))
              properties,
            if default false (p_required param) then required ++ [p_name param]
            else required))
        queryParams ([], []) in
    Some {| sNo := 0;
            modelName := pascalCase operationId +:+ "QueryParams";
            properties := Json.stringify (JObj properties);
            required := requiredText required;
            description := Some ("Query parameters for " +:+ operationId +:+ " operation");
            usedInOperations := Some operationId |}.

Definition createRequestBodyModel
    (fuel : nat) (operation : SwaggerOperation) (api : SwaggerSpec)
  : res (option ModelDocumentation) :=
  match op_requestBody operation, truthy (op_operationId operation) with
  | Some requestBody, Some operationId =>
      match jsonSchema (Some (rb_content requestBody)) with
      | None => Ok None                    (* [!jsonContent?.schema] *)
      | Some declared =>
          schema ← resolveSchema declared api;
          '(props, req) ← extractSchemaProperties fuel schema api;
          Ok (Some {| sNo := 0;
                      modelName := pascalCase operationId +:+ "InData";
                      properties := Json.stringify (JObj props);
                      required := requiredText req;
                      description :=
                        Some ("Request body model for " +:+ operationId +:+ " operation");
                      usedInOperations := Some operationId |})
      end
  | _, _ => Ok None
  end.

Fixpoint firstArrayItems (props : list (string * SwaggerSchema)) (dataProps : list string)
  : option SwaggerSchema :=
  match dataProps with
  | [] => None
  | prop :: rest =>
      match Obj.get prop props with
      | Some property =>
          match typeIs property "array", s_items property with
          | true, Some items => Some items
          | _, _ => firstArrayItems props rest
          end
      | None => firstArrayItems props rest
      end
  end.

Definition extractRecordSchema (schema : SwaggerSchema) (api : SwaggerSpec)
  : res (option SwaggerSchema) :=
  resolved ← resolveSchema schema api;
  match s_properties resolved with
  | Some props =>
      match firstArrayItems props ["data"; "records"; "items"; "results"] with
      | Some items => recordSchema ← resolveSchema items api; Ok (Some recordSchema)
      | None => Ok None
      end
  | None => Ok None
  end.

Definition createResponseModels
    (fuel : nat) (operation : SwaggerOperation) (api : SwaggerSpec)
  : res (list ModelDocumentation) :=
  match truthy (op_operationId operation) with
  | None => Ok []
  | Some operationId =>
      let successResponses :=
        List.filter (fun '(status, _) => Str.startsWith status "2") (op_responses operation) in
      foldM
        (fun models '(status, response) =>
           match jsonSchema (r_content response) with
           | None => Ok models
           | Some declared =>
               schema ← resolveSchema declared api;
               '(props, req) ← extractSchemaProperties fuel schema api;
               let outData :=
                 {| sNo := 0;
                    modelName := pascalCase operationId +:+ "OutData";
                    properties := Json.stringify (JObj props);
                    required := requiredText req;
                    description :=
                      Some ("Response model for " +:+ operationId +:+ " operation");
                    usedInOperations := Some operationId |} in
               if isPaginatedSchema (Some schema) then
                 recordSchema ← extractRecordSchema schema api;
                 match recordSchema with
                 | Some recordSchema =>
                     '(recordProps, recordReq) ← extractSchemaProperties fuel recordSchema api;
                     Ok (models ++
                         [outData;
                          {| sNo := 0;
                             modelName := pascalCase operationId +:+ "RecordData";
                             properties := Json.stringify (JObj recordProps);
                             required := requiredText recordReq;
                             description :=
                               Some ("Record model for " +:+ operationId
                                     +:+ " paginated response");
                             usedInOperations := Some operationId |}])
                 | None => Ok (models ++ [outData])
                 end
               else Ok (models ++ [outData])
           end)
        successResponses []
  end.

(** [if (!seenModels.has(model.modelName)) { models.push(model);
    seenModels.add(model.modelName); }] *)
Definition pushUnseen (model : ModelDocumentation)
    (st : list ModelDocumentation * gset string) : list ModelDocumentation * gset string :=
  let '(models, seenModels) := st in
  if bool_decide (modelName model ∈ seenModels) then (models, seenModels)
  else (models ++ [model], seenModels ∪ {[modelName model]}).

Definition extractModelsFromOperation
    (fuel : nat) (operation : SwaggerOperation) (api : SwaggerSpec)
    (seenModels : gset string)
  : res (list ModelDocumentation * gset string) :=
  let st := ([], seenModels) in
  let st :=
    if hasQueryParams operation then
      let operationId := default "unknown" (truthy (op_operationId operation)) in
      match createQueryParamsModel operation operationId with
      | Some queryParamsModel => pushUnseen queryParamsModel st
      | None => st
      end
    else st in
  st ←
    match op_requestBody operation with
    | Some _ =>
        requestModel ← createRequestBodyModel fuel operation api;
        match requestModel with
        | Some requestModel => Ok (pushUnseen requestModel st)
        | None => Ok st
        end
    | None => Ok st
    end;
  responseModels ← createResponseModels fuel operation api;
  Ok (fold_left (fun st model => pushUnseen model st) responseModels st).

Definition extractStandaloneModels
    (fuel : nat) (api : SwaggerSpec) (seenModels : gset string)
  : res (list ModelDocumentation * gset string) :=
  let schemas :=
    match api_components api ≫= c_schemas with
    | Some schemas => schemas
    | None => default [] (api_definitions api)
    end in
  foldM
    (fun '(models, seenModels) '(name, schema) =>
       let modelName := pascalCase name +:+ "Data" in
       if bool_decide (modelName ∈ seenModels) then Ok (models, seenModels)
       else
         '(props, req) ← extractSchemaProperties fuel schema api;
         Ok (models ++
             [{| sNo := 0;
                 modelName := modelName;
                 properties := Json.stringify (JObj props);
                 required := requiredText req;
                 description :=
                   Some (default (name +:+ " entity model") (truthy (s_description schema)));
                 usedInOperations := None |}],
             seenModels ∪ {[modelName]}))
    schemas ([], seenModels).

(** *** Documentation synthesizer *)

Definition withSNo (n : Z) (model : ModelDocumentation) : ModelDocumentation :=
  {| sNo := n;
     modelName := modelName model;
     properties := properties model;
     required := required model;
     description := description model;
     usedInOperations := usedInOperations model |}.

Record Progress : Type := mkProgress {
  apis : list ApiDocumentation;
  models : list ModelDocumentation;
  seenModels : gset string;
  apiIndex : Z
}.

(** The body of the loop over the methods of one path. *)
Definition visitOperation (fuel : nat) (api : SwaggerSpec) (path : string)
    (st : Progress) (entry : string * SwaggerOperation) : res Progress :=
  let '(method, operation) := entry in
  if negb (isValidHttpMethod method) then Ok st
  else
    let apiDoc := createApiDocumentation (apiIndex st) path method operation api in
    '(operationModels, seen) ←
      extractModelsFromOperation fuel operation api (seenModels st);
    Ok {| apis := apis st ++ [apiDoc];
          models := models st ++ operationModels;
          seenModels := seen;
          apiIndex := (apiIndex st + 1)%Z |}.

(** The body of the loop over the paths. *)
Definition visitPath (fuel : nat) (api : SwaggerSpec)
    (st : Progress) (entry : string * list (string * SwaggerOperation)) : res Progress :=
  let '(path, pathItem) := entry in
  foldM (visitOperation fuel api path) pathItem st.

Definition extractDocumentationData (fuel : nat) (api : SwaggerSpec)
  : res (list ApiDocumentation * list ModelDocumentation) :=
  st ←
    foldM (visitPath fuel api) (api_paths api)
      {| apis := []; models := []; seenModels := ∅; apiIndex := 1 |};
  '(standaloneModels, _) ← extractStandaloneModels fuel api (seenModels st);
  let models := models st ++ standaloneModels in
  Ok (apis st, imap (fun index model => withSNo (Z.of_nat index + 1) model) models).

(** The operationId given to a visited operation: the declared one, or else
    the one synthesized from method and path. *)
Definition effectiveId (entry : string * string * SwaggerOperation) : string :=
  let '(path, method, operation) := entry in
  default (generateOperationId method path) (truthy (op_operationId operation)).

End Service.

(** ** A model of change-case

    The word splitting and the two transforms of the package (its 4.x
    algorithm, on ASCII input), used to run the service on concrete
    documents. *)

Module ChangeCase.

Definition nul : ascii := ascii_of_nat 0.

Definition startsLower (s : string) : bool :=
  match s with
  | String c _ => Str.is_lower c
  | EmptyString => false
  end.

(** Word boundaries: between a lower-case letter or digit and an upper-case
    letter, and before the last upper-case letter of a run that is followed
    by a lower-case letter. *)
Fixpoint boundaries (s : string) : string :=
  match s with
  | EmptyString => EmptyString
  | String a s1 =>
      match s1 with
      | EmptyString => String a EmptyString
      | String b rest =>
          if (Str.is_lower a || Str.is_digit a) && Str.is_upper b
          then String a (String nul (boundaries s1))
          else if Str.is_upper a && Str.is_upper b && startsLower rest
          then String a (String nul (boundaries s1))
          else String a (boundaries s1)
      end
  end.

Definition separators (s : string) : string :=
  Str.map (fun c => if Str.is_alnum c then c else nul) s.

Definition words (s : string) : list string :=
  List.filter (fun w => negb (String.eqb w "")) (Str.split nul (separators (boundaries s))).

Definition pascalCaseTransform (index : nat) (word : string) : string :=
  match word with
  | EmptyString => EmptyString
  | String firstChar rest =>
      let lowerChars := Str.toLowerCase rest in
      if (0 <? index)%nat && Str.is_digit firstChar
      then "_" +:+ String firstChar lowerChars
      else String (Str.upper_char firstChar) lowerChars
  end.

Definition camelCaseTransform (index : nat) (word : string) : string :=
  if (index =? 0)%nat then Str.toLowerCase word else pascalCaseTransform index word.

Definition pascalCase (s : string) : string :=
  Json.join "" (imap pascalCaseTransform (words s)).

Definition camelCase (s : string) : string :=
  Json.join "" (imap camelCaseTransform (words s)).

End ChangeCase.

(** The service with the model of change-case plugged in. *)
Definition synthesize : nat -> SwaggerSpec -> res (list ApiDocumentation * list ModelDocumentation) :=
  extractDocumentationData ChangeCase.pascalCase ChangeCase.camelCase.

(** ** Notions used in the statements *)

(** The operations that the synthesizer visits: those under one of the five
    recognised methods, in document order. *)
Definition operationsOf (api : SwaggerSpec) : list (string * string * SwaggerOperation) :=
  flat_map
    (fun '(path, pathItem) =>
       flat_map
         (fun '(method, operation) =>
            if isValidHttpMethod method then [(path, method, operation)] else [])
         pathItem)
    (api_paths api).

(** The operationId that each visited operation declares, if any. *)
Definition declaredIds (api : SwaggerSpec) : list (option string) :=
  (fun '(_, _, operation) => truthy (op_operationId operation)) <$> operationsOf api.

(** No operationId is declared by two operations of the document. *)
Definition declaredOnce (api : SwaggerSpec) : Prop :=
  NoDup (omap id (declaredIds api)).

(** Equality of names up to the case of letters. *)
Definition ciEq (a b : string) : Prop := Str.toLowerCase a = Str.toLowerCase b.

(** Some declared parameter is named like a pagination parameter. *)
Definition hasPaginationParam (operation : SwaggerOperation) : Prop :=
  exists p name,
    p ∈ default [] (op_parameters operation)
    /\ name ∈ paginationParams
    /\ ciEq (p_name p) name.

(** [schema] has a top-level property named like a pagination field. *)
Definition hasPaginationField (schema : SwaggerSchema) : Prop :=
  exists props key field,
    s_properties schema = Some props
    /\ key ∈ Obj.keys props
    /\ field ∈ paginationFields
    /\ ciEq key field.

(** Pagination as the specification words it: a pagination parameter, or a
    success response whose application/json schema has a pagination field. *)
Definition paginatedAsStated (operation : SwaggerOperation) : Prop :=
  hasPaginationParam operation
  \/ exists status response schema,
       (status, response) ∈ op_responses operation
       /\ Str.startsWith status "2" = true
       /\ jsonSchema (r_content response) = Some schema
       /\ hasPaginationField schema.

(** Pagination as the code decides it: the response may have any status, and
    its schema is the application/json one or else the inline one. *)
Definition paginatedAsCoded (operation : SwaggerOperation) : Prop :=
  hasPaginationParam operation
  \/ exists status response schema,
       (status, response) ∈ op_responses operation
       /\ responseSchema response = Some schema
       /\ hasPaginationField schema.

(** The first loop of [extractSchemaProperties]: the schema's own properties,
    each converted with [fuel] left. *)
Definition ownProperties (fuel : nat) (schema : SwaggerSchema) (api : SwaggerSpec)
  : res (list (string * JSON)) :=
  match s_properties schema with
  | Some props =>
      foldM (fun acc '(propName, propSchema) =>
               prop ← convertSchemaToProperty fuel propSchema api;
               Ok (Obj.set propName prop acc))
            props []
  | None => Ok []
  end.

(** The second loop: one [allOf] entry merged into the accumulator. *)
Definition mergeEntry (fuel : nat) (api : SwaggerSpec)
  : list (string * JSON) * list string -> SwaggerSchema
    -> res (list (string * JSON) * list string) :=
  fun '(properties, required) subSchema =>
    resolved ← resolveSchema subSchema api;
    '(subProperties, subRequired) ← extractSchemaProperties fuel resolved api;
    Ok (Obj.assign properties subProperties, required ++ subRequired).

(** An [allOf] entry extracts to [result]. *)
Definition entryExtracts (n : nat) (api : SwaggerSpec)
    (subSchema : SwaggerSchema) (result : list (string * JSON) * list string) : Prop :=
  exists resolved,
    resolveSchema subSchema api = Ok resolved
    /\ extractSchemaProperties n resolved api = Ok result.

(** What "later entries overwrite same-named earlier properties" means for a
    sequence of property maps: the binding of [k] is the one in the last map
    that has [k]. *)
Fixpoint lookupLast (k : string) (maps : list (list (string * JSON))) : option JSON :=
  match maps with
  | [] => None
  | m :: rest =>
      match lookupLast k rest with
      | Some v => Some v
      | None => Obj.get k m
      end
  end.


(** What the seen-set guard maintains while one list of models is built,
    starting from the seen set [seen0]. *)
Definition fresh_run (seen0 : gset string)
    (st : list ModelDocumentation * gset string) : Prop :=
  NoDup (modelName <$> st.1)
  /\ (forall x, x ∈ modelName <$> st.1 -> x ∉ seen0)
  /\ (forall x, x ∈ st.2 <-> x ∈ seen0 \/ x ∈ modelName <$> st.1).

(** The running state of the synthesizer: every model emitted so far is
    recorded in the seen set, and no name was emitted twice. *)
Definition emitted_once (st : Progress) : Prop :=
  NoDup (modelName <$> models st)
  /\ (forall x, x ∈ modelName <$> models st -> x ∈ seenModels st).

(** The operationId under which the models of an operation are emitted. *)
Definition modelOperationId (operation : SwaggerOperation) : string :=
  default "unknown" (truthy (op_operationId operation)).

(** Referential integrity up to the placeholder: a model that names an
    operation names the operationId of a returned API record, or [unknown]. *)
Definition names_known (st : Progress) : Prop :=
  forall m id,
    m ∈ models st -> usedInOperations m = Some id ->
    id = "unknown" \/ id ∈ operationId <$> apis st.

(** ** Sample documents *)

Definition emptySchema : SwaggerSchema :=
  mkSchema None None None None None None None None None None.

Definition typed (t : string) : SwaggerSchema :=
  mkSchema (Some t) None None None None None None None None None.

Definition refTo (ref : string) : SwaggerSchema :=
  mkSchema None None None None None None (Some ref) None None None.

Definition objectOf (props : list (string * SwaggerSchema)) (required : list string)
  : SwaggerSchema :=
  mkSchema (Some "object") None (Some props) (Some required) None None None None None None.

Definition allOfSchema (subSchemas : list SwaggerSchema) : SwaggerSchema :=
  mkSchema None None None None None (Some subSchemas) None None None None.

Definition queryParam (name type : string) : SwaggerParameter :=
  mkParameter name InQuery None None (Some type) None None.

Definition jsonBody (schema : SwaggerSchema) : list (string * MediaType) :=
  [("application/json", mkMediaType (Some schema))].

Definition okResponse (schema : SwaggerSchema) : string * SwaggerResponse :=
  ("200", mkResponse (Some (jsonBody schema)) None).

(** [GET /items] with the query parameters [page] and [limit], no
    operationId. *)
Definition getItems : SwaggerOperation :=
  mkOperation None None None None
    (Some [queryParam "page" "integer"; queryParam "limit" "integer"])
    None [] None.

Definition itemsSpec : SwaggerSpec :=
  mkSpec [("/items", [("get", getItems)])] None None None.

(** A document in which the operations and the component schemas compete for
    the same model names: two operations declare the operationId [pet], two
    success responses of one operation give [PetOutData], and the component
    [pet_out] gives [PetOutData] again. *)
Definition petSchema : SwaggerSchema :=
  objectOf [("id", typed "integer"); ("name", typed "string")] ["id"].

Definition clashSpec : SwaggerSpec :=
  mkSpec
    [("/pets",
      [("get", mkOperation (Some "pet") None None None
                 (Some [queryParam "limit" "integer"]) None
                 [okResponse (refTo "#/components/schemas/Pet")] None);
       ("post", mkOperation (Some "pet") None None None None
                  (Some (mkRequestBody (jsonBody (refTo "#/components/schemas/Pet"))))
                  [okResponse petSchema; ("201", mkResponse (Some (jsonBody petSchema)) None)]
                  None)]);
     ("/owners",
      [("get", mkOperation None None None None
                 (Some [queryParam "page" "integer"]) None [] None);
       ("trace", mkOperation (Some "ignored") None None None None None [] None)])]
    (Some (mkComponents (Some [("Pet", petSchema); ("pet_out", emptySchema)]) None None))
    None None.

(** [/items/{id}] with the path parameter [id] declared, its required flag
    being [declared]. *)
Definition idParam (declared : option bool) : SwaggerParameter :=
  mkParameter "id" InPath declared None (Some "string") None (Some "Item id").

Definition getItem (declared : option bool) : SwaggerOperation :=
  mkOperation (Some "getItem") None None None (Some [idParam declared]) None [] None.

(** An operation whose only response is a [404] with application/json
    content. *)
Definition notFoundSpec : SwaggerSpec :=
  mkSpec
    [("/pets/{id}",
      [("get", mkOperation (Some "findPet") None None None None None
                 [("404", mkResponse (Some (jsonBody (typed "object"))) None)] None)])]
    None None None.

(** Two paths that differ by a trailing slash, both without operationId. *)
Definition bare : SwaggerOperation :=
  mkOperation None None None None None None [] None.

Definition slashSpec : SwaggerSpec :=
  mkSpec [("/items", [("get", bare)]); ("/items/", [("get", bare)])] None None None.

Definition distinctSpec : SwaggerSpec :=
  mkSpec
    [("/items",
      [("get", mkOperation (Some "listItems") None None None None None [] None);
       ("post", mkOperation (Some "addItem") None None None None None [] None)])]
    None None None.

(** A [404] response whose schema has the property [Page]; and an operation
    with the parameter [LIMIT]. *)
Definition pageEnvelope : SwaggerSchema :=
  objectOf [("items", typed "array"); ("Page", typed "integer")] [].

Definition notFoundPaged : SwaggerOperation :=
  mkOperation (Some "listPets") None None None None None
    [("404", mkResponse (Some (jsonBody pageEnvelope)) None)] None.

Definition limited : SwaggerOperation :=
  mkOperation (Some "listPets") None None None
    (Some [queryParam "LIMIT" "integer"]) None
    [("200", mkResponse None None)] None.

(** [allOf [SchemaA, SchemaB]] over two component schemas. *)
Definition schemaA : SwaggerSchema := objectOf [("id", typed "string")] ["id"].

Definition schemaB : SwaggerSchema := objectOf [("name", typed "string")] ["name"].

Definition abSpec : SwaggerSpec :=
  mkSpec [] (Some (mkComponents (Some [("SchemaA", schemaA); ("SchemaB", schemaB)]) None None))
    None None.

Definition schemaAB : SwaggerSchema :=
  allOfSchema [refTo "#/components/schemas/SchemaA"; refTo "#/components/schemas/SchemaB"].

(** Request bodies: with and without a declared operationId. *)
Definition createPet : SwaggerOperation :=
  mkOperation (Some "createPet") None None None None
    (Some (mkRequestBody (jsonBody (refTo "#/components/schemas/SchemaA"))))
    [("201", mkResponse None None)] None.










(** ** Notions used in the further properties *)

(** The visited operations of one path item. *)
Definition visitedOf (path : string) (pathItem : list (string * SwaggerOperation))
  : list (string * string * SwaggerOperation) :=
  flat_map
    (fun '(method, operation) =>
       if isValidHttpMethod method then [(path, method, operation)] else [])
    pathItem.

(** The API record of the [index]-th visited operation. *)
Definition apiRecord (pascalCase camelCase : string -> string) (api : SwaggerSpec)
    (index : nat) (entry : string * string * SwaggerOperation) : ApiDocumentation :=
  let '(path, method, operation) := entry in
  createApiDocumentation pascalCase camelCase (Z.of_nat index + 1) path method operation api.

(** The state after the operations [ops] have been visited. *)
Definition visited (pascalCase camelCase : string -> string) (api : SwaggerSpec)
    (ops : list (string * string * SwaggerOperation)) (st : Progress) : Prop :=
  apis st = imap (apiRecord pascalCase camelCase api) ops
  /\ apiIndex st = (Z.of_nat (length ops) + 1)%Z.

(** The four model names that an operation can give rise to. *)
Definition operationModelNames (pascalCase : string -> string)
    (operation : SwaggerOperation) : list string :=
  let prefix := pascalCase (modelOperationId operation) in
  [prefix +:+ "QueryParams"; prefix +:+ "InData"; prefix +:+ "OutData";
   prefix +:+ "RecordData"].

(** The schema table that the standalone models are read from:
    [api.components?.schemas || api.definitions || {}]. *)
Definition schemaTable (api : SwaggerSpec) : list (string * SwaggerSchema) :=
  match api_components api ≫= c_schemas with
  | Some schemas => schemas
  | None => default [] (api_definitions api)
  end.

(** The seen set holds exactly the names of the models emitted so far. *)
Definition seen_exact (st : Progress) : Prop :=
  forall x, x ∈ seenModels st <-> x ∈ modelName <$> models st.


(** A name without the separator of reference paths. *)
Definition slashFree (name : string) : bool :=
  forallb (fun c => negb (Ascii.eqb c "/")) (list_ascii_of_string name).

(** The type names that [mapSwaggerTypeToTypeScript] gives. *)
Definition typeNames : list string :=
  ["number"; "boolean"; "Date"; "string"; "array"; "object"; "any"].

(** A property descriptor: an object whose [type] is one of the type names. *)
Definition typedProperty (j : JSON) : Prop :=
  exists fields t, j = JObj fields /\ Obj.get "type" fields = Some (JStr t) /\ t ∈ typeNames.

(** A schema with no [$ref], in itself or in any schema nested under its
    properties, items or allOf. *)
Fixpoint refFree (schema : SwaggerSchema) : bool :=
  match schema with
  | mkSchema _ _ props _ items allOf ref _ _ _ =>
      match ref with None => true | Some _ => false end
      && match props with
         | Some props => forallb (fun '(_, sub) => refFree sub) props
         | None => true
         end
      && match items with Some sub => refFree sub | None => true end
      && match allOf with Some subs => forallb refFree subs | None => true end
  end.

(** The nesting depth of a schema. *)
Fixpoint depth (schema : SwaggerSchema) : nat :=
  match schema with
  | mkSchema _ _ props _ items allOf _ _ _ _ =>
      S (Nat.max
           match props with
           | Some props => list_max (List.map (fun '(_, sub) => depth sub) props)
           | None => 0%nat
           end
           (Nat.max
              match items with Some sub => depth sub | None => 0%nat end
              match allOf with
              | Some subs => list_max (List.map depth subs)
              | None => 0%nat
              end))
  end.

(** The calls of the two mutually recursive functions of the extractor. *)
Inductive Call : Type :=
| Extract (schema : SwaggerSchema)     (* [extractSchemaProperties(schema, api)] *)
| Convert (schema : SwaggerSchema).    (* [convertSchemaToProperty(schema, api)] *)

Definition returns (fuel : nat) (api : SwaggerSpec) (call : Call) : bool :=
  match call with
  | Extract schema =>
      match extractSchemaProperties fuel schema api with Ok _ => true | Err _ => false end
  | Convert schema =>
      match convertSchemaToProperty fuel schema api with Ok _ => true | Err _ => false end
  end.

(** [needs api c c']: the call [c] makes the call [c'] before it returns. *)
Inductive needs (api : SwaggerSpec) : Call -> Call -> Prop :=
| needs_property schema props name sub :
    s_properties schema = Some props -> (name, sub) ∈ props ->
    needs api (Extract schema) (Convert sub)
| needs_allOf schema subs sub resolved :
    s_allOf schema = Some subs -> sub ∈ subs -> resolveSchema sub api = Ok resolved ->
    needs api (Extract schema) (Extract resolved)
| needs_items schema resolved items :
    resolveSchema schema api = Ok resolved -> typeIs resolved "array" = true ->
    s_items resolved = Some items ->
    needs api (Convert schema) (Convert items)
| needs_object schema resolved :
    resolveSchema schema api = Ok resolved -> typeIs resolved "array" = false ->
    typeIs resolved "object" = true ->
    needs api (Convert schema) (Extract resolved).

(** A linked-list node: its [next] property refers to the schema itself. *)
Definition nodeSchema : SwaggerSchema :=
  objectOf [("value", typed "string"); ("next", refTo "#/components/schemas/Node")] [].

Definition nodeSpec : SwaggerSpec :=
  mkSpec [] (Some (mkComponents (Some [("Node", nodeSchema)]) None None)) None None.






(** An operation, and a document, whose schemas have no [$ref]: the
    application/json request body, the application/json response contents,
    and the entries of the schema table. *)
Definition operationRefFree (operation : SwaggerOperation) : bool :=
  match op_requestBody operation with
  | Some requestBody =>
      match jsonSchema (Some (rb_content requestBody)) with
      | Some schema => refFree schema
      | None => true
      end
  | None => true
  end
  && forallb
       (fun '(_, response) =>
          match jsonSchema (r_content response) with
          | Some schema => refFree schema
          | None => true
          end)
       (op_responses operation).

Definition documentRefFree (api : SwaggerSpec) : bool :=
  forallb
    (fun '(_, pathItem) => forallb (fun '(_, operation) => operationRefFree operation) pathItem)
    (api_paths api)
  && forallb (fun '(_, schema) => refFree schema) (schemaTable api).

(** A document without references: a paginated list of pets. *)
Definition pagedPets : SwaggerSchema :=
  objectOf
    [("page", typed "integer");
     ("data", mkSchema (Some "array") None None None (Some petSchema) None None None None None)]
    ["page"].

Definition pagedSpec : SwaggerSpec :=
  mkSpec
    [("/pets",
      [("get", mkOperation (Some "listPets") None None None
                 (Some [queryParam "page" "integer"]) None
                 [okResponse pagedPets] None);
       ("post", mkOperation (Some "addPet") None None None None
                  (Some (mkRequestBody (jsonBody petSchema)))
                  [("201", mkResponse (Some (jsonBody petSchema)) None)] None)])]
    (Some (mkComponents (Some [("Pet", petSchema)]) None None))
    None None.

(** ** Cross-reference validation (validation.service.ts)

    [ValidationService.validateCrossReferences] checks the API records and
    the model records against each other and returns the issues found. *)

(** [s.trim()], for the ASCII white space characters. *)
Definition isSpace (c : ascii) : bool :=
  let n := nat_of_ascii c in
  ((9 <=? n) && (n <=? 13) || (n =? 32))%nat.

Fixpoint trimStart (s : string) : string :=
  match s with
  | EmptyString => EmptyString
  | String c s' => if isSpace c then trimStart s' else s
  end.

Definition trim (s : string) : string :=
  String.rev (trimStart (String.rev (trimStart s))).

(** [l.indexOf(x)], the positions being counted from [i]; [-1] when [x] does
    not occur. *)
Fixpoint indexOfFrom (i : Z) (l : list string) (x : string) : Z :=
  match l with
  | [] => (-1)%Z
  | y :: l' => if String.eqb y x then i else indexOfFrom (i + 1)%Z l' x
  end.

Definition indexOf (l : list string) (x : string) : Z := indexOfFrom 0 l x.

(** [l.filter((x, index) => l.indexOf(x) !== index)] *)
Definition duplicated (l : list string) : list string :=
  snd <$> List.filter (fun '(index, x) => negb (indexOf l x =? Z.of_nat index)%Z)
            (imap pair l).

(** [l.filter(Boolean)] on strings *)
Definition nonEmpty (l : list string) : list string :=
  List.filter (fun s => negb (String.eqb s "")) l.

Definition validateCrossReferences
    (apis : list ApiDocumentation) (models : list ModelDocumentation) : list string :=
  let modelNames : gset string := list_to_set (modelName <$> models) in
  let missing :=
    flat_map
      (fun api =>
         match truthy (queryParamsRef api) with
         | Some ref =>
             if bool_decide (ref ∈ modelNames) then []
             else ["API " +:+ operationId api +:+ ": Referenced query params model '"
                   +:+ ref +:+ "' not found"]
         | None => []
         end
         ++ match truthy (requestBodyRef api) with
            | Some ref =>
                if bool_decide (ref ∈ modelNames) then []
                else ["API " +:+ operationId api +:+ ": Referenced request body model '"
                      +:+ ref +:+ "' not found"]
            | None => []
            end
         ++ match truthy (responseBodyRef api) with
            | Some ref =>
                if bool_decide (ref ∈ modelNames) then []
                else ["API " +:+ operationId api +:+ ": Referenced response body model '"
                      +:+ ref +:+ "' not found"]
            | None => []
            end)
      apis in
  let usedModels : gset string :=
    list_to_set
      (flat_map
         (fun api =>
            option_list (truthy (queryParamsRef api))
            ++ option_list (truthy (requestBodyRef api))
            ++ option_list (truthy (responseBodyRef api)))
         apis) in
  let unused :=
    flat_map
      (fun model =>
         if negb (bool_decide (modelName model ∈ usedModels))
            && negb (bool_decide (is_Some (truthy (usedInOperations model))))
         then ["Model " +:+ modelName model
               +:+ ": Appears to be unused and has no usedInOperations reference"]
         else [])
      models in
  let operationIds := nonEmpty (operationId <$> apis) in
  let duplicateIds := duplicated operationIds in
  let duplicateIdsIssue :=
    if (0 <? length duplicateIds)%nat
    then ["Duplicate operation IDs found: " +:+ Json.join ", " (uniq duplicateIds)]
    else [] in
  let modelNamesList := nonEmpty (modelName <$> models) in
  let duplicateModels := duplicated modelNamesList in
  let duplicateModelsIssue :=
    if (0 <? length duplicateModels)%nat
    then ["Duplicate model names found: " +:+ Json.join ", " (uniq duplicateModels)]
    else [] in
  let unknown :=
    flat_map
      (fun model =>
         match truthy (usedInOperations model) with
         | Some usedIn =>
             let operations := trim <$> Str.split "," usedIn in
             flat_map
               (fun opId =>
                  match List.find (fun a => String.eqb (operationId a) opId) apis with
                  | Some _ => []
                  | None => ["Model " +:+ modelName model
                             +:+ ": References unknown operation '" +:+ opId +:+ "'"]
                  end)
               operations
         | None => []
         end)
      models in
  missing ++ unused ++ duplicateIdsIssue ++ duplicateModelsIssue ++ unknown.

(** The model references that an API record carries. *)
Definition refsOf (api : ApiDocumentation) : list string :=
  option_list (truthy (queryParamsRef api))
  ++ option_list (truthy (requestBodyRef api))
  ++ option_list (truthy (responseBodyRef api)).

(** The operations that a model record names: [usedInOperations], split at
    the commas and trimmed. *)
Definition operationsNamed (model : ModelDocumentation) : list string :=
  match truthy (usedInOperations model) with
  | Some usedIn => trim <$> Str.split "," usedIn
  | None => []
  end.

(** The two lists of records agree with each other. *)
Definition crossReferenced
    (apis : list ApiDocumentation) (models : list ModelDocumentation) : Prop :=
  (forall api ref, api ∈ apis -> ref ∈ refsOf api -> ref ∈ modelName <$> models)
  /\ (forall model,
        model ∈ models -> truthy (usedInOperations model) = None ->
        exists api, api ∈ apis /\ modelName model ∈ refsOf api)
  /\ NoDup (nonEmpty (operationId <$> apis))
  /\ NoDup (nonEmpty (modelName <$> models))
  /\ (forall model opId,
        model ∈ models -> opId ∈ operationsNamed model -> opId ∈ operationId <$> apis).

(** ** Grouping by tag (code-generation.service.ts) *)

Section Grouping.

Context {A : Type} (tagOf : A -> string).

(** The body of the two reductions, for the tag [tagOf x] of the record [x]:
    [if (!acc[tag]) acc[tag] = []; acc[tag].push(x)].  [None] is the
    [TypeError] raised by [push] when [acc[tag]] is an inherited property. *)
Definition groupStep (acc : list (string * list A)) (x : A)
  : option (list (string * list A)) :=
  let tag := tagOf x in
  match Obj.get tag acc with
  | Some group => Some (Obj.set tag (group ++ [x]) acc)
  | None =>
      if includes inheritedNames tag then None
      else Some (Obj.set tag [x] acc)
  end.

(** [l.reduce((acc, x) => ..., acc)] *)
Fixpoint groupFrom (acc : list (string * list A)) (l : list A)
  : option (list (string * list A)) :=
  match l with
  | [] => Some acc
  | x :: rest =>
      match groupStep acc x with
      | Some acc' => groupFrom acc' rest
      | None => None
      end
  end.

(** The records of one tag, in their order. *)
Definition taggedWith (t : string) (l : list A) : list A :=
  List.filter (fun x => String.eqb (tagOf x) t) l.

End Grouping.

(** [api.tag || "default"] *)
Definition groupTag (api : ApiDocumentation) : string :=
  default "default" (truthy (Some (tag api))).

Definition groupApisByTag (apis : list ApiDocumentation)
  : option (list (string * list ApiDocumentation)) :=
  groupFrom groupTag [] apis.

Definition isLetter (c : ascii) : bool := Str.is_upper c || Str.is_lower c.

(** [s.match(/^(get|post|put|patch|delete)([A-Z][a-z]+)/i)]: the second
    group of the match, the alternatives being tried in order.  Without
    regard to case, [[A-Z]] and [[a-z]] are the ASCII letters. *)
Fixpoint matchVerb (verbs : list string) (s : string) : option string :=
  match verbs with
  | [] => None
  | verb :: rest =>
      if String.prefix verb (Str.toLowerCase s) then
        match Str.span isLetter (Str.drop (String.length verb) s) with
        | (String c (String c' run), _) => Some (String c (String c' run))
        | _ => matchVerb rest s
        end
      else matchVerb rest s
  end.

(** [s.match(/^([A-Z][a-z]+)/)]: the group of the match. *)
Definition matchName (s : string) : option string :=
  match s with
  | String c rest =>
      if Str.is_upper c then
        match Str.span Str.is_lower rest with
        | (String c' run, _) => Some (String c (String c' run))
        | _ => None
        end
      else None
  | EmptyString => None
  end.

(** The tag under which [groupModelsByTag] files a model. *)
Definition modelTag (model : ModelDocumentation) : string :=
  match truthy (usedInOperations model) with
  | Some usedIn =>
      let firstOperation := hd "" (Str.split "," usedIn) in
      match matchVerb ["get"; "post"; "put"; "patch"; "delete"] firstOperation with
      | Some word => Str.toLowerCase word
      | None => "default"
      end
  | None =>
      match matchName (modelName model) with
      | Some word => Str.toLowerCase word
      | None => "default"
      end
  end.

Definition groupModelsByTag (models : list ModelDocumentation)
  : option (list (string * list ModelDocumentation)) :=
  groupFrom modelTag [] models.

(** A word of lower-case ASCII letters. *)
Definition lowerWord (s : string) : bool :=
  forallb Str.is_lower (list_ascii_of_string s).

(** An API record with the tag [t], and a model record with the name [name]
    that names the operations [usedIn]. *)
Definition taggedRecord (index : Z) (t : string) : ApiDocumentation :=
  mkApi index "/pets" "GET" t "listPets" "List pets" None None None None false false None.

Definition namedModel (name : string) (usedIn : option string) : ModelDocumentation :=
  mkModel 0 name "{}" None None usedIn.
(** * Properties *)

(** ** The helpers on small inputs *)

Example refPath_components :
  refPath "#/components/schemas/Pet" = ["components"; "schemas"; "Pet"].
Proof. reflexivity. Qed.

Example refPath_external :
  refPath "other.yaml#/definitions/Pet" = ["other.yamldefinitions"; "Pet"].
Proof. reflexivity. Qed.

Example matchBraces_segments :
  Str.matchBraces "/a/{id}/b/{}/{x{y}/z" = Some ["{id}"; "{x{y}"].
Proof. reflexivity. Qed.

Example matchBraces_none : Str.matchBraces "/items" = None.
Proof. reflexivity. Qed.

Example generateOperationId_trailing_parameter :
  generateOperationId ChangeCase.camelCase "get" "/items/{id}" = "getItemsById".
Proof. reflexivity. Qed.

Example generateOperationId_inner_parameter :
  generateOperationId ChangeCase.camelCase "DELETE" "/users/{userId}/posts"
  = "deleteUsersByposts".
Proof. reflexivity. Qed.

Example pascalCase_words : ChangeCase.pascalCase "xml_httpRequest2go" = "XmlHttpRequest2go".
Proof. reflexivity. Qed.

Example stringify_nested :
  Json.stringify (JObj [("a", JArr [JStr "x"; JNull]); ("b", JBool true)])
  = "{" +:+ Json.quote +:+ "a" +:+ Json.quote +:+ ":[" +:+ Json.quote +:+ "x" +:+ Json.quote
    +:+ ",null]," +:+ Json.quote +:+ "b" +:+ Json.quote +:+ ":true}".
Proof. reflexivity. Qed.

Example stringify_escapes :
  Json.stringify (JStr (String (ascii_of_nat 10) (String (ascii_of_nat 1) "\")))
  = Json.quote +:+ "\n\u0001\\" +:+ Json.quote.
Proof. reflexivity. Qed.

Example uniq_keeps_first : uniq ["a"; "b"; "a"; "c"; "b"] = ["a"; "b"; "c"].
Proof. reflexivity. Qed.

Example mapSwaggerTypeToTypeScript_date :
  mapSwaggerTypeToTypeScript (Some "string") (Some "date-time") = "Date"
  /\ mapSwaggerTypeToTypeScript (Some "integer") None = "number"
  /\ mapSwaggerTypeToTypeScript None None = "any".
Proof. repeat split. Qed.

Example resolveSchema_component :
  resolveSchema (refTo "#/components/schemas/SchemaA") abSpec = Ok schemaA.
Proof. reflexivity. Qed.

Example resolveSchema_into_property :
  resolveSchema (refTo "#/components/schemas/SchemaA/properties/id") abSpec
  = Ok (typed "string").
Proof. reflexivity. Qed.

Example resolveSchema_table :
  resolveSchema (refTo "#/components/schemas") abSpec = Err OutsideSchemas.
Proof. reflexivity. Qed.

Example resolveSchema_bare_name :
  resolveSchema (refTo "Pet") abSpec = Ok (refTo "Pet").
Proof. reflexivity. Qed.

Example resolveSchema_other_file :
  resolveSchema (refTo "common.yaml#/components/schemas/SchemaA") abSpec
  = Ok (refTo "common.yaml#/components/schemas/SchemaA").
Proof. reflexivity. Qed.

Example resolveSchema_no_parameter_table :
  resolveSchema (refTo "#/components/parameters/limit") abSpec
  = Ok (refTo "#/components/parameters/limit").
Proof. reflexivity. Qed.

Example resolveSchema_inherited_name :
  resolveSchema (refTo "#/components/schemas/constructor") abSpec = Err OutsideSchemas.
Proof. reflexivity. Qed.

Example assign_overwrites :
  Obj.assign [("a", 1%nat); ("b", 2%nat)] [("b", 3%nat); ("c", 4%nat)]
  = [("a", 1%nat); ("b", 3%nat); ("c", 4%nat)].
Proof. reflexivity. Qed.

(** ** Fallible computations *)

Lemma bind_Ok {A B : Type} (m : res A) (k : A -> res B) (b : B) :
  m ≫= k = Ok b <-> exists a, m = Ok a /\ k a = Ok b.
Proof.
  destruct m as [a|e]; simpl; split.
  - intros H. exists a. split; [reflexivity | exact H].
  - intros (a' & Ha & Hk). injection Ha as <-. exact Hk.
  - discriminate.
  - intros (a' & Ha & _). discriminate.
Qed.

(** Decompose a successful run of a monadic sequence in hypothesis [H]. *)
Ltac ok_inv H :=
  let a := fresh "a" in
  let Ha := fresh "Hrun" in
  apply bind_Ok in H as (a & Ha & H).

Lemma foldM_invariant {A B : Type} (P : B -> Prop) (f : B -> A -> res B) (l : list A) (b : B) :
  P b ->
  (forall b x b', x ∈ l -> P b -> f b x = Ok b' -> P b') ->
  forall r, foldM f l b = Ok r -> P r.
Proof.
  revert b. induction l as [|x l IH]; intros b Hb Hstep r Hrun; simpl in Hrun.
  - injection Hrun as <-. exact Hb.
  - ok_inv Hrun. apply (IH a); [| | exact Hrun].
    + apply (Hstep b x a); [left | exact Hb | exact Hrun0].
    + intros b0 y b0' Hy. apply Hstep. right. exact Hy.
Qed.

(** ** Objects *)

Section ObjFacts.

Context {V : Type}.
Implicit Types (o : list (string * V)) (k : string) (v : V).

Lemma get_set k k' v o :
  Obj.get k (Obj.set k' v o) = if String.eqb k' k then Some v else Obj.get k o.
Proof.
  induction o as [|[k0 v0] o IH]; simpl.
  - destruct (String.eqb k' k); reflexivity.
  - destruct (String.eqb k0 k') eqn:E0; simpl.
    + apply String.eqb_eq in E0. subst k0. destruct (String.eqb k' k); reflexivity.
    + rewrite IH. destruct (String.eqb k0 k) eqn:E1; [|reflexivity].
      apply String.eqb_eq in E1. subst k0. rewrite String.eqb_sym, E0. reflexivity.
Qed.

Lemma get_None k o : Obj.get k o = None <-> k ∉ Obj.keys o.
Proof.
  unfold Obj.keys. induction o as [|[k0 v0] o IH]; simpl.
  - split; [intros _ H; inversion H | reflexivity].
  - destruct (String.eqb k0 k) eqn:E.
    + apply String.eqb_eq in E. subst k0. split; [discriminate | intros H; exfalso; apply H; left].
    + apply String.eqb_neq in E. rewrite IH, not_elem_of_cons. split; [auto | tauto].
Qed.

Lemma elem_of_keys_set k k' v o :
  k' ∈ Obj.keys (Obj.set k v o) <-> k' = k \/ k' ∈ Obj.keys o.
Proof.
  unfold Obj.keys. induction o as [|[k0 v0] o IH]; simpl.
  - rewrite list_elem_of_singleton. split; [auto | intros [H|H]; [exact H | inversion H]].
  - destruct (String.eqb k0 k) eqn:E; simpl.
    + apply String.eqb_eq in E. subst k0. rewrite !elem_of_cons. tauto.
    + rewrite !elem_of_cons, IH. tauto.
Qed.

Lemma keys_set_NoDup k v o : NoDup (Obj.keys o) -> NoDup (Obj.keys (Obj.set k v o)).
Proof.
  induction o as [|[k0 v0] o IH]; simpl; intros Hnd.
  - apply NoDup_singleton.
  - apply NoDup_cons in Hnd as [Hfresh Hnd]. destruct (String.eqb k0 k) eqn:E.
    + apply String.eqb_eq in E. subst k0. apply NoDup_cons. auto.
    + apply String.eqb_neq in E. apply NoDup_cons. split; [|apply IH, Hnd].
      change (k0 ∉ Obj.keys (Obj.set k v o)). rewrite elem_of_keys_set.
      intros [H|H]; [exact (E H) | exact (Hfresh H)].
Qed.

Lemma keys_assign_NoDup o source :
  NoDup (Obj.keys o) -> NoDup (Obj.keys (Obj.assign o source)).
Proof.
  unfold Obj.assign. revert o. induction source as [|[k v] source IH]; intros o Hnd; simpl.
  - exact Hnd.
  - apply IH, keys_set_NoDup, Hnd.
Qed.

Lemma get_assign k o source :
  NoDup (Obj.keys source) ->
  Obj.get k (Obj.assign o source)
  = match Obj.get k source with Some v => Some v | None => Obj.get k o end.
Proof.
  unfold Obj.assign. revert o. induction source as [|[k0 v0] source IH]; intros o Hnd; simpl.
  - reflexivity.
  - apply NoDup_cons in Hnd as [Hfresh Hnd]. simpl in Hfresh.
    rewrite (IH _ Hnd), get_set.
    destruct (String.eqb k0 k) eqn:E; [|reflexivity].
    apply String.eqb_eq in E. subst k0. apply get_None in Hfresh. rewrite Hfresh. reflexivity.
Qed.

End ObjFacts.

(** ** Model names are emitted once *)

Section Names.

Variables pascalCase camelCase : string -> string.

Local Abbreviation names ms := (modelName <$> ms) (only parsing).

Lemma fresh_run_start seen0 : fresh_run seen0 ([], seen0).
Proof.
  repeat split; simpl.
  - constructor.
  - intros x Hx. inversion Hx.
  - intros Hx. left. exact Hx.
  - intros [Hx|Hx]; [exact Hx | inversion Hx].
Qed.

Lemma fresh_run_push seen0 model st :
  fresh_run seen0 st -> fresh_run seen0 (pushUnseen model st).
Proof.
  destruct st as [ms seen]. intros (Hnd & Hfresh & Hseen). unfold pushUnseen.
  case_bool_decide as Hin; [repeat split; (assumption || apply Hseen) |].
  unfold fresh_run; simpl in *. rewrite fmap_app. simpl.
  assert (Hnew : (modelName model ∉ seen0) /\ (modelName model ∉ names ms)).
  { split; intros Hx; apply Hin, Hseen; [left | right]; exact Hx. }
  destruct Hnew as [Hnew0 Hnew1].
  split; [|split].
  - apply NoDup_app. split; [exact Hnd|]. split; [|apply NoDup_singleton].
    intros x Hx Hx'. apply list_elem_of_singleton in Hx'. subst x. contradiction.
  - intros x Hx. apply elem_of_app in Hx as [Hx|Hx]; [apply Hfresh, Hx|].
    apply list_elem_of_singleton in Hx. subst x. exact Hnew0.
  - intros x. rewrite elem_of_union, elem_of_singleton, elem_of_app, list_elem_of_singleton.
    rewrite Hseen. tauto.
Qed.

Lemma fresh_run_pushes seen0 new st :
  fresh_run seen0 st ->
  fresh_run seen0 (fold_left (fun st model => pushUnseen model st) new st).
Proof.
  revert st. induction new as [|m new IH]; intros st Hst; simpl; [exact Hst|].
  apply IH, fresh_run_push, Hst.
Qed.

Lemma extractModelsFromOperation_fresh fuel operation api seen0 st :
  extractModelsFromOperation pascalCase fuel operation api seen0 = Ok st ->
  fresh_run seen0 st.
Proof.
  unfold extractModelsFromOperation. intros H.
  set (st0 := if hasQueryParams operation then _ else _) in H.
  assert (H0 : fresh_run seen0 st0).
  { subst st0. destruct (hasQueryParams operation); [|apply fresh_run_start].
    destruct (createQueryParamsModel _ _ _);
      [apply fresh_run_push|]; apply fresh_run_start. }
  clearbody st0. ok_inv H.
  assert (H1 : fresh_run seen0 a).
  { destruct (op_requestBody operation).
    - ok_inv Hrun. destruct a0; injection Hrun as <-;
        [apply fresh_run_push|]; exact H0.
    - injection Hrun as <-. exact H0. }
  ok_inv H. injection H as <-. apply fresh_run_pushes, H1.
Qed.

Lemma extractStandaloneModels_fresh fuel api seen0 st :
  extractStandaloneModels pascalCase fuel api seen0 = Ok st ->
  fresh_run seen0 st.
Proof.
  unfold extractStandaloneModels.
  apply foldM_invariant; [apply fresh_run_start|].
  intros [ms seen] [name schema] st' _ Hst Hstep.
  case_bool_decide as Hin; [injection Hstep as <-; exact Hst|].
  ok_inv Hstep. destruct a as [props req]. injection Hstep as <-.
  pose (model := {| sNo := 0%Z; modelName := pascalCase name +:+ "Data";
                    properties := Json.stringify (JObj props);
                    required := requiredText req;
                    description :=
                      Some (default (name +:+ " entity model")
                                    (truthy (s_description schema)));
                    usedInOperations := None |}).
  pose proof (fresh_run_push seen0 model (ms, seen) Hst) as Hpush.
  unfold pushUnseen in Hpush. simpl in Hpush.
  rewrite bool_decide_eq_false_2 in Hpush by exact Hin. exact Hpush.
Qed.

Lemma emitted_once_extend st new seen :
  emitted_once st ->
  fresh_run (seenModels st) (new, seen) ->
  forall apis' index,
  emitted_once {| apis := apis'; models := models st ++ new;
                  seenModels := seen; apiIndex := index |}.
Proof.
  intros [Hnd Hsub] (Hnd' & Hfresh & Hseen) apis' index. unfold emitted_once; simpl in *.
  rewrite fmap_app. split.
  - apply NoDup_app. split; [exact Hnd|]. split; [|exact Hnd'].
    intros x Hx Hx'. apply (Hfresh x Hx'), Hsub, Hx.
  - intros x Hx. apply Hseen. apply elem_of_app in Hx as [Hx|Hx]; [left; apply Hsub|right]; exact Hx.
Qed.

Lemma names_withSNo (f : nat -> Z) (ms : list ModelDocumentation) :
  names (imap (fun index model => withSNo (f index) model) ms) = names ms.
Proof.
  revert f. induction ms as [|m ms IH]; intros f; simpl; [reflexivity|].
  f_equal. apply (IH (f ∘ S)).
Qed.

Lemma visitOperation_emitted_once fuel api path st entry st' :
  emitted_once st ->
  visitOperation pascalCase camelCase fuel api path st entry = Ok st' ->
  emitted_once st'.
Proof.
  destruct entry as [method operation]. unfold visitOperation. intros Hst Hstep.
  destruct (negb (isValidHttpMethod method)); [injection Hstep as <-; exact Hst|].
  ok_inv Hstep. destruct a as [new seen]. injection Hstep as <-.
  apply emitted_once_extend; [exact Hst|].
  eapply extractModelsFromOperation_fresh, Hrun.
Qed.

Lemma visitPath_emitted_once fuel api st entry st' :
  emitted_once st ->
  visitPath pascalCase camelCase fuel api st entry = Ok st' ->
  emitted_once st'.
Proof.
  destruct entry as [path pathItem]. unfold visitPath. intros Hst.
  apply foldM_invariant; [exact Hst|].
  intros st0 entry st1 _. apply visitOperation_emitted_once.
Qed.

(** C5.  The model names returned by one synthesis call are pairwise
    distinct: a record is pushed only when its name is not in the seen set,
    and every pushed name is added to it, for the models of the operations
    and for the standalone component schemas alike. *)
Theorem model_names_distinct fuel api apis models :
  extractDocumentationData pascalCase camelCase fuel api = Ok (apis, models) ->
  NoDup (names models).
Proof.
  unfold extractDocumentationData. intros H.
  ok_inv H. rename a into st.
  assert (Hst : emitted_once st).
  { revert Hrun. apply foldM_invariant.
    - split; simpl; [constructor | intros x Hx; inversion Hx].
    - intros st0 entry st1 _. apply visitPath_emitted_once. }
  ok_inv H. destruct a as [standalone seen]. injection H as <- <-.
  rewrite names_withSNo.
  apply extractStandaloneModels_fresh in Hrun0.
  destruct Hst as [Hnd Hsub]. destruct Hrun0 as (Hnd' & Hfresh & _). simpl in *.
  rewrite fmap_app. apply NoDup_app. split; [exact Hnd|]. split; [|exact Hnd'].
  intros x Hx Hx'. apply (Hfresh x Hx'), Hsub, Hx.
Qed.

End Names.

Lemma model_names_distinct_witness :
  exists apis models,
    synthesize 4 clashSpec = Ok (apis, models)
    /\ length models = 5%nat
    /\ NoDup (modelName <$> models).
Proof.
  eexists _, _. split; [vm_compute; reflexivity|]. split; [reflexivity|].
  eapply (model_names_distinct ChangeCase.pascalCase ChangeCase.camelCase 4 clashSpec).
  vm_compute. reflexivity.
Defined.

(** ** Operations without a declared operationId *)

(** C1.  On [GET /items] with integer query parameters [page] and [limit] and
    no declared operationId, the API record gets the operationId synthesized
    from [get_items], is flagged paginated and refers to the model named after
    that operationId; the only model emitted has the expected properties and
    no required list, but it is named after the operationId [unknown].  With
    the change-case functions: the record says [getItems] and
    [GetItemsQueryParams], the model is [UnknownQueryParams], and no model
    carries the name the API record refers to. *)
Theorem getItems_query_model_named_unknown :
  (forall pascalCase camelCase fuel, exists api model,
     extractDocumentationData pascalCase camelCase fuel itemsSpec = Ok ([api], [model])
     /\ operationId api = camelCase "get_items"
     /\ isPaginated api = true
     /\ queryParamsRef api = Some (pascalCase (camelCase "get_items") +:+ "QueryParams")
     /\ modelName model = pascalCase "unknown" +:+ "QueryParams"
     /\ properties model
        = Json.stringify (JObj [("page", JObj [("type", JStr "number")]);
                                ("limit", JObj [("type", JStr "number")])])
     /\ required model = None)
  /\ (forall fuel, exists api model,
        synthesize fuel itemsSpec = Ok ([api], [model])
        /\ operationId api = "getItems"
        /\ queryParamsRef api = Some "GetItemsQueryParams"
        /\ modelName model = "UnknownQueryParams").
Proof.
  split.
  - intros pascalCase camelCase fuel. eexists _, _.
    split; [destruct fuel; reflexivity|]. repeat split.
  - intros fuel. eexists _, _. split; [destruct fuel; vm_compute; reflexivity|].
    repeat split.
Qed.

(** C3.  On the same document the emitted model names the operation
    [unknown] in [usedInOperations], and no API record has that operationId. *)
Theorem unknown_operation_not_in_apis :
  forall fuel, exists apis model,
    synthesize fuel itemsSpec = Ok (apis, [model])
    /\ usedInOperations model = Some "unknown"
    /\ "unknown" ∉ operationId <$> apis.
Proof.
  intros fuel. eexists _, _. split; [destruct fuel; vm_compute; reflexivity|].
  split; [reflexivity|].
  simpl. intros H. apply list_elem_of_singleton in H. discriminate.
Qed.

(** ** Path parameters *)

(** C9.  For the segment [{id}] of [/items/{id}] with a declared path
    parameter [id], the entry records the mapped type and the description,
    but the required flag recorded is [true] whatever the declaration says,
    also when the parameter is declared with [required: false].  In general
    every entry of the path-parameter map has the required flag [true]. *)
Theorem declared_required_flag_not_recorded :
  (forall (declared : option bool) (api : SwaggerSpec),
     extractPathParameters "/items/{id}" (getItem declared) api
     = Some [("id", JObj [("type", JStr "string");
                          ("required", JBool true);
                          ("description", JStr "Item id")])])
  /\ (forall path operation api pathParams name fields,
        extractPathParameters path operation api = Some pathParams ->
        Obj.get name pathParams = Some (JObj fields) ->
        Obj.get "required" fields = Some (JBool true)).
Proof.
  split; [intros [[]|] api; reflexivity|].
  intros path operation api pathParams name fields. unfold extractPathParameters.
  destruct (Str.matchBraces path) as [pathParamMatches|]; [|discriminate].
  match goal with
  | |- context [fold_left ?f pathParamMatches []] => set (body := f)
  end.
  assert (Hall : forall ms acc,
             (forall k fs, Obj.get k acc = Some (JObj fs) ->
                           Obj.get "required" fs = Some (JBool true)) ->
             forall k fs, Obj.get k (fold_left body ms acc) = Some (JObj fs) ->
                          Obj.get "required" fs = Some (JBool true)).
  { induction ms as [|m ms IH]; intros acc Hacc; simpl; [exact Hacc|].
    apply IH. intros k fs. subst body. cbv beta.
    destruct (match op_parameters operation with Some ps => _ | None => None end)
      as [param|]; rewrite get_set;
      (destruct (String.eqb (Str.slice_1_m1 m) k); [|apply Hacc]);
      intros [= <-].
    - simpl. rewrite orb_true_r. reflexivity.
    - reflexivity. }
  destruct (0 <? length _)%nat; [|discriminate].
  intros [= <-]. apply Hall. intros k fs H. discriminate.
Qed.

(** ** Response references *)

Lemma existsb_elem_of {A : Type} (f : A -> bool) (l : list A) :
  existsb f l = true <-> exists x, x ∈ l /\ f x = true.
Proof.
  rewrite existsb_exists. split; intros (x & Hx & Hf); exists x; split; try exact Hf.
  - apply list_elem_of_In, Hx.
  - apply list_elem_of_In, Hx.
Qed.

Lemma includes_elem_of (l : list string) (x : string) :
  includes l x = true <-> x ∈ l.
Proof.
  unfold includes. rewrite existsb_elem_of. split.
  - intros (y & Hy & Heq). apply String.eqb_eq in Heq. subst y. exact Hy.
  - intros Hx. exists x. split; [exact Hx | apply String.eqb_refl].
Qed.

Lemma responseSchema_is_Some (response : SwaggerResponse) :
  is_Some (responseSchema response)
  <-> is_Some (jsonSchema (r_content response)) \/ is_Some (r_schema response).
Proof.
  unfold responseSchema. destruct (jsonSchema (r_content response)) as [s|].
  - split; [intros _; left; eexists; reflexivity | intros _; eexists; reflexivity].
  - split; [intros H; right; exact H | intros [[x Hx]|H]; [discriminate | exact H]].
Qed.

Lemma hasResponseBody_iff (operation : SwaggerOperation) :
  hasResponseBody operation = true
  <-> exists status response,
        (status, response) ∈ op_responses operation
        /\ (is_Some (jsonSchema (r_content response)) \/ is_Some (r_schema response)).
Proof.
  unfold hasResponseBody, Obj.values. rewrite existsb_elem_of. split.
  - intros (response & Hin & Hsome).
    apply list_elem_of_fmap in Hin as ([status response'] & -> & Hin).
    apply bool_decide_eq_true in Hsome. exists status, response'.
    split; [exact Hin | apply responseSchema_is_Some, Hsome].
  - intros (status & response & Hin & Hsome). exists response. split.
    + apply list_elem_of_fmap. exists (status, response). split; [reflexivity | exact Hin].
    + apply bool_decide_eq_true, responseSchema_is_Some, Hsome.
Qed.

Section ResponseRefs.

Variables pascalCase camelCase : string -> string.

Lemma createResponseModels_success_only fuel operation api ms :
  createResponseModels pascalCase fuel operation api = Ok ms ->
  ms <> [] ->
  is_Some (truthy (op_operationId operation))
  /\ exists status response,
       (status, response) ∈ op_responses operation
       /\ Str.startsWith status "2" = true
       /\ is_Some (jsonSchema (r_content response)).
Proof.
  unfold createResponseModels.
  destruct (truthy (op_operationId operation)) as [operationId|];
    [|intros [= <-] Hne; contradiction].
  intros Hrun Hne. split; [eexists; reflexivity|].
  revert ms Hrun Hne.
  apply (foldM_invariant
           (fun ms => ms <> [] ->
                      exists status response,
                        (status, response) ∈ op_responses operation
                        /\ Str.startsWith status "2" = true
                        /\ is_Some (jsonSchema (r_content response)))).
  - intros Hne. contradiction.
  - intros ms [status response] ms' Hin IH Hstep Hne.
    apply list_elem_of_In, filter_In in Hin as [Hin Hsuccess].
    destruct (jsonSchema (r_content response)) as [declared|] eqn:Hjson.
    + exists status, response. repeat split.
      * apply list_elem_of_In, Hin.
      * exact Hsuccess.
      * rewrite Hjson. eexists; reflexivity.
    + injection Hstep as <-. apply IH, Hne.
Qed.

(** C10.  Some document yields an API record whose [responseBodyRef] names no
    returned model.  The reference is set as soon as any response, whatever
    its status, carries an application/json schema or an inline schema, while
    response models come only from success responses with application/json
    content, of operations that declare an operationId. *)
Theorem dangling_responseBodyRef :
  (exists api fuel apis models a ref,
     extractDocumentationData pascalCase camelCase fuel api = Ok (apis, models)
     /\ a ∈ apis
     /\ responseBodyRef a = Some ref
     /\ ref ∉ modelName <$> models)
  /\ (forall sNo path method operation api,
        is_Some (responseBodyRef
                   (createApiDocumentation pascalCase camelCase sNo path method operation api))
        <-> exists status response,
              (status, response) ∈ op_responses operation
              /\ (is_Some (jsonSchema (r_content response)) \/ is_Some (r_schema response)))
  /\ (forall fuel operation api ms,
        createResponseModels pascalCase fuel operation api = Ok ms ->
        ms <> [] ->
        is_Some (truthy (op_operationId operation))
        /\ exists status response,
             (status, response) ∈ op_responses operation
             /\ Str.startsWith status "2" = true
             /\ is_Some (jsonSchema (r_content response))).
Proof.
  split; [|split].
  - exists notFoundSpec, 0%nat. eexists _, [], _, _.
    split; [reflexivity|]. split; [left|]. split; [reflexivity|].
    intros H. inversion H.
  - intros sNo path method operation api. rewrite <- hasResponseBody_iff. simpl.
    destruct (hasResponseBody operation); split; intros H;
      try reflexivity; try (eexists; reflexivity); try discriminate.
    destruct H as [x Hx]. discriminate.
  - apply createResponseModels_success_only.
Qed.

End ResponseRefs.

(** ** Operation identifiers *)

Lemma foldM_collect {A B C : Type} (g : B -> list C) (h : A -> list C)
    (f : B -> A -> res B) (l : list A) :
  (forall b x b', f b x = Ok b' -> g b' = g b ++ h x) ->
  forall b r, foldM f l b = Ok r -> g r = g b ++ flat_map h l.
Proof.
  intros Hstep. induction l as [|x l IH]; intros b r Hrun; simpl in *.
  - injection Hrun as <-. symmetry. apply app_nil_r.
  - ok_inv Hrun. rewrite (IH _ _ Hrun), (Hstep _ _ _ Hrun0). symmetry. apply app_assoc.
Qed.

Section OperationIds.

Variables pascalCase camelCase : string -> string.

Lemma visitOperation_ids fuel api path st entry st' :
  visitOperation pascalCase camelCase fuel api path st entry = Ok st' ->
  operationId <$> apis st'
  = (operationId <$> apis st)
      ++ (let '(method, operation) := entry in
          if isValidHttpMethod method then [effectiveId camelCase (path, method, operation)] else []).
Proof.
  destruct entry as [method operation]. unfold visitOperation.
  destruct (isValidHttpMethod method); simpl.
  - intros H. ok_inv H. destruct a as [new seen]. injection H as <-. simpl.
    rewrite fmap_app. reflexivity.
  - intros [= <-]. symmetry. apply app_nil_r.
Qed.

Lemma visitPath_ids fuel api st entry st' :
  visitPath pascalCase camelCase fuel api st entry = Ok st' ->
  operationId <$> apis st'
  = (operationId <$> apis st)
      ++ (effectiveId camelCase <$>
            (let '(path, pathItem) := entry in
             flat_map
               (fun '(method, operation) =>
                  if isValidHttpMethod method then [(path, method, operation)] else [])
               pathItem)).
Proof.
  destruct entry as [path pathItem]. unfold visitPath. intros H.
  rewrite (foldM_collect (fun st => operationId <$> apis st)
             (fun '(method, operation) =>
                if isValidHttpMethod method then [effectiveId camelCase (path, method, operation)] else [])
             _ _ (fun b x b' => visitOperation_ids fuel api path b x b') _ _ H).
  f_equal. clear H. induction pathItem as [|[method operation] pathItem IH]; simpl.
  - reflexivity.
  - rewrite fmap_app, <- IH. destruct (isValidHttpMethod method); reflexivity.
Qed.

(** The API records carry, in order, the effective operationIds of the
    visited operations. *)
Lemma apis_operationIds fuel api docs models :
  extractDocumentationData pascalCase camelCase fuel api = Ok (docs, models) ->
  operationId <$> docs = effectiveId camelCase <$> operationsOf api.
Proof.
  unfold extractDocumentationData. intros H. ok_inv H. ok_inv H.
  destruct a0 as [standalone seen]. injection H as <- <-.
  rewrite (foldM_collect (fun st => operationId <$> apis st)
             (fun entry =>
                effectiveId camelCase <$>
                  (let '(path, pathItem) := entry in
                   flat_map
                     (fun '(method, operation) =>
                        if isValidHttpMethod method then [(path, method, operation)] else [])
                     pathItem))
             _ _ (fun b x b' => visitPath_ids fuel api b x b') _ _ Hrun).
  simpl. unfold operationsOf. clear Hrun Hrun0.
  induction (api_paths api) as [|[path pathItem] paths IH]; simpl.
  - reflexivity.
  - rewrite fmap_app, <- IH. reflexivity.
Qed.

(** C4, as the code has it.  When every visited operation declares an
    operationId and no operationId is declared twice, the operationIds of the
    returned API records are pairwise distinct. *)
Theorem declared_operationIds_distinct fuel api apis models :
  Forall is_Some (declaredIds api) ->
  NoDup (declaredIds api) ->
  extractDocumentationData pascalCase camelCase fuel api = Ok (apis, models) ->
  NoDup (operationId <$> apis).
Proof.
  intros Hall Hnd Hrun. rewrite (apis_operationIds _ _ _ _ Hrun).
  unfold declaredIds in *. revert Hall Hnd.
  induction (operationsOf api) as [|[[path method] operation] ops IH]; simpl.
  - intros _ _. constructor.
  - intros Hall Hnd. apply Forall_cons in Hall as [[id Hid] Hall].
    apply NoDup_cons in Hnd as [Hfresh Hnd]. rewrite Hid in *. simpl.
    apply NoDup_cons. split; [|apply IH; assumption].
    intros Hin. apply Hfresh.
    apply list_elem_of_fmap in Hin as ([[path' method'] operation'] & Heq & Hin).
    apply list_elem_of_fmap. exists (path', method', operation'). split; [|exact Hin].
    apply list_elem_of_In in Hin.
    rewrite Forall_forall in Hall.
    destruct (Hall (truthy (op_operationId operation'))) as [id' Hid'].
    { apply list_elem_of_fmap. exists (path', method', operation').
      split; [reflexivity | apply list_elem_of_In, Hin]. }
    simpl in Heq. rewrite Hid' in *. simpl in Heq. subst id'. reflexivity.
Qed.

End OperationIds.

(** C4, as stated, fails: the two operations of [slashSpec] declare no
    operationId, so no operationId is declared twice, and both receive the
    synthesized operationId [getItems]. *)
Lemma synthesized_operationIds_collide :
  declaredOnce slashSpec
  /\ exists apis models,
       synthesize 0 slashSpec = Ok (apis, models)
       /\ operationId <$> apis = ["getItems"; "getItems"]
       /\ ~ NoDup (operationId <$> apis).
Proof.
  split; [vm_compute; constructor|].
  eexists _, _. split; [vm_compute; reflexivity|]. split; [reflexivity|].
  simpl. intros H. apply NoDup_cons in H as [H _]. apply H. left.
Qed.

Lemma declared_operationIds_distinct_witness :
  exists apis models,
    synthesize 1 distinctSpec = Ok (apis, models)
    /\ NoDup (operationId <$> apis).
Proof.
  eexists _, _. split; [vm_compute; reflexivity|].
  eapply (declared_operationIds_distinct ChangeCase.pascalCase ChangeCase.camelCase
            1 distinctSpec).
  - vm_compute. repeat constructor; eexists; reflexivity.
  - vm_compute. repeat constructor; intros H; inversion H; subst;
      match goal with H : _ ∈ [] |- _ => inversion H end.
  - vm_compute. reflexivity.
Defined.

(** ** Pagination detection *)

Lemma lower_char_idempotent (c : ascii) :
  Str.lower_char (Str.lower_char c) = Str.lower_char c.
Proof. destruct c as [[] [] [] [] [] [] [] []]; reflexivity. Qed.

Lemma toLowerCase_idempotent (s : string) :
  Str.toLowerCase (Str.toLowerCase s) = Str.toLowerCase s.
Proof.
  induction s as [|c s IH]; simpl; [reflexivity|].
  unfold Str.toLowerCase in *. simpl. rewrite lower_char_idempotent, IH. reflexivity.
Qed.

(** A lower-cased name is never a name that contains a capital. *)
Lemma toLowerCase_neq (s t : string) :
  Str.toLowerCase t <> t -> Str.toLowerCase s <> t.
Proof.
  intros Ht Hs. apply Ht. rewrite <- Hs at 1. rewrite toLowerCase_idempotent. exact Hs.
Qed.

Lemma paginationParams_match (name : string) :
  ~ ciEq name "pageSize" -> ~ ciEq name "pageNumber" ->
  includes paginationParams (Str.toLowerCase name) = true
  <-> exists n, n ∈ paginationParams /\ ciEq name n.
Proof.
  intros HpageSize HpageNumber. rewrite includes_elem_of. unfold paginationParams, ciEq in *.
  split.
  - intros H. repeat (apply elem_of_cons in H as [H|H]).
    + exists "page". split; [set_solver | exact H].
    + exists "offset". split; [set_solver | exact H].
    + exists "limit". split; [set_solver | exact H].
    + exists "size". split; [set_solver | exact H].
    + exfalso. revert H. apply toLowerCase_neq. discriminate.
    + exfalso. revert H. apply toLowerCase_neq. discriminate.
    + inversion H.
  - intros (n & Hn & Heq).
    repeat (apply elem_of_cons in Hn as [->|Hn]);
      try contradiction; try (rewrite Heq; vm_compute; set_solver).
Qed.

Lemma paginationFields_match (props : list (string * SwaggerSchema)) :
  existsb (fun field => includes (Str.toLowerCase <$> Obj.keys props) (Str.toLowerCase field))
          paginationFields = true
  <-> exists key field, key ∈ Obj.keys props /\ field ∈ paginationFields /\ ciEq key field.
Proof.
  rewrite existsb_elem_of. split.
  - intros (field & Hfield & Hinc). apply includes_elem_of, list_elem_of_fmap in Hinc.
    destruct Hinc as (key & Heq & Hkey). exists key, field. unfold ciEq. auto.
  - intros (key & field & Hkey & Hfield & Heq). exists field. split; [exact Hfield|].
    apply includes_elem_of, list_elem_of_fmap. exists key. unfold ciEq in Heq. auto.
Qed.

Lemma isPaginatedSchema_iff (schema : SwaggerSchema) :
  isPaginatedSchema (Some schema) = true <-> hasPaginationField schema.
Proof.
  unfold isPaginatedSchema, hasPaginationField.
  destruct (s_properties schema) as [props|].
  - rewrite paginationFields_match. split.
    + intros (key & field & H). exists props, key, field. split; [reflexivity | exact H].
    + intros (props' & key & field & [= <-] & H). exists key, field. exact H.
  - split; [discriminate | intros (props & key & field & Hprops & _); discriminate].
Qed.

Lemma paginated_response_iff (operation : SwaggerOperation) :
  existsb (fun response => isPaginatedSchema (responseSchema response))
          (Obj.values (op_responses operation)) = true
  <-> exists status response schema,
        (status, response) ∈ op_responses operation
        /\ responseSchema response = Some schema
        /\ hasPaginationField schema.
Proof.
  unfold Obj.values. rewrite existsb_elem_of. split.
  - intros (response & Hin & Hpag).
    apply list_elem_of_fmap in Hin as ([status response'] & -> & Hin). simpl in Hpag.
    destruct (responseSchema response') as [schema|] eqn:Hschema; [|discriminate].
    exists status, response', schema. rewrite <- isPaginatedSchema_iff. auto.
  - intros (status & response & schema & Hin & Hschema & Hpag). exists response. split.
    + apply list_elem_of_fmap. exists (status, response). auto.
    + rewrite Hschema. apply isPaginatedSchema_iff, Hpag.
Qed.

(** C2, as the code has it.  For an operation none of whose parameters is
    named, up to case, [pageSize] or [pageNumber]: the pagination flag is set
    exactly when some parameter is named, up to case, like a pagination
    parameter, or some response of any status has a schema (its
    application/json schema, else its inline schema) with a top-level property
    named, up to case, like a pagination field. *)
Theorem detectPagination_iff (operation : SwaggerOperation) :
  (forall p, p ∈ default [] (op_parameters operation) ->
             ~ ciEq (p_name p) "pageSize" /\ ~ ciEq (p_name p) "pageNumber") ->
  detectPagination operation = true <-> paginatedAsCoded operation.
Proof.
  intros Hnames. unfold detectPagination, paginatedAsCoded.
  rewrite orb_true_iff, paginated_response_iff.
  apply or_iff_compat_r. unfold hasPaginationParam.
  destruct (op_parameters operation) as [ps|]; simpl in *.
  - rewrite existsb_elem_of. split.
    + intros (p & Hp & Hinc). destruct (Hnames p Hp) as [H1 H2].
      apply (paginationParams_match _ H1 H2) in Hinc as (n & Hn & Heq).
      exists p, n. auto.
    + intros (p & n & Hp & Hn & Heq). exists p. split; [exact Hp|].
      destruct (Hnames p Hp) as [H1 H2]. apply (paginationParams_match _ H1 H2).
      exists n. auto.
  - split; [discriminate | intros (p & n & Hp & _); inversion Hp].
Qed.

(** C2, as stated, fails: a [404] response whose schema has the property
    [Page] sets the flag, although the operation has no parameter and no
    success response. *)
Lemma detectPagination_not_as_stated :
  ~ (forall operation, detectPagination operation = true <-> paginatedAsStated operation).
Proof.
  intros H. destruct (H notFoundPaged) as [Hstated _].
  destruct (Hstated eq_refl) as [(p & n & Hp & _) | (status & response & schema & Hin & Hsuccess & _)].
  - inversion Hp.
  - apply list_elem_of_singleton in Hin. injection Hin as -> ->. discriminate.
Qed.

Lemma detectPagination_iff_witness :
  detectPagination limited = true <-> paginatedAsCoded limited.
Proof.
  apply (detectPagination_iff limited).
  intros p Hp. apply list_elem_of_singleton in Hp. subst p.
  split; vm_compute; discriminate.
Defined.

(** ** Composition by allOf *)

Lemma extractSchemaProperties_unfold n schema api :
  extractSchemaProperties (S n) schema api
  = (properties0 ← ownProperties n schema api;
     '(properties, required) ←
       match s_allOf schema with
       | Some subSchemas =>
           foldM (mergeEntry n api) subSchemas (properties0, default [] (s_required schema))
       | None => Ok (properties0, default [] (s_required schema))
       end;
     Ok (properties, uniq required)).
Proof. reflexivity. Qed.


Lemma uniqFrom_spec (l seen : list string) :
  NoDup (uniqFrom seen l) /\ forall x, x ∈ uniqFrom seen l <-> x ∈ l /\ x ∉ seen.
Proof.
  revert seen. induction l as [|y l IH]; intros seen; simpl.
  - split; [constructor|]. intros x. split; [intros H; inversion H | intros [H _]; inversion H].
  - case_bool_decide as Hy.
    + destruct (IH seen) as [Hnd Hin]. split; [exact Hnd|].
      intros x. rewrite Hin, elem_of_cons. split; [tauto|].
      intros [[->|Hx] Hfresh]; [contradiction | auto].
    + destruct (IH (y :: seen)) as [Hnd Hin]. split.
      * apply NoDup_cons. split; [|exact Hnd]. rewrite Hin, not_elem_of_cons. tauto.
      * intros x. rewrite !elem_of_cons, Hin, not_elem_of_cons.
        destruct (decide (x = y)) as [->|Hne]; tauto.
Qed.

Lemma uniq_NoDup (l : list string) : NoDup (uniq l).
Proof. apply uniqFrom_spec. Qed.

Lemma elem_of_uniq (l : list string) (x : string) : x ∈ uniq l <-> x ∈ l.
Proof.
  unfold uniq. rewrite (proj2 (uniqFrom_spec l [])). split; [tauto|].
  intros H. split; [exact H | intros H'; inversion H'].
Qed.

Lemma ownProperties_keys n schema api own :
  ownProperties n schema api = Ok own -> NoDup (Obj.keys own).
Proof.
  unfold ownProperties. destruct (s_properties schema) as [props|].
  - apply (foldM_invariant (fun acc => NoDup (Obj.keys acc))); [constructor|].
    intros acc [propName propSchema] acc' _ Hacc Hstep.
    ok_inv Hstep. injection Hstep as <-. apply keys_set_NoDup, Hacc.
  - intros [= <-]. constructor.
Qed.

Lemma mergeEntry_keys n api acc subSchema acc' :
  NoDup (Obj.keys acc.1) -> mergeEntry n api acc subSchema = Ok acc' ->
  NoDup (Obj.keys acc'.1).
Proof.
  destruct acc as [props req]. unfold mergeEntry. intros Hnd H.
  ok_inv H. ok_inv H. destruct a0 as [subProps subReq]. injection H as <-.
  apply keys_assign_NoDup, Hnd.
Qed.

Lemma extractSchemaProperties_keys fuel schema api props req :
  extractSchemaProperties fuel schema api = Ok (props, req) -> NoDup (Obj.keys props).
Proof.
  destruct fuel as [|n]; [discriminate|]. rewrite extractSchemaProperties_unfold.
  intros H. ok_inv H. apply ownProperties_keys in Hrun. ok_inv H.
  destruct a0 as [props' req']. injection H as -> <-.
  destruct (s_allOf schema) as [subSchemas|].
  - apply (foldM_invariant (fun acc => NoDup (Obj.keys acc.1)) (mergeEntry n api) subSchemas
             (a, default [] (s_required schema)) Hrun) in Hrun0; [exact Hrun0|].
    intros acc subSchema acc' _. apply mergeEntry_keys.
  - injection Hrun0 as <- <-. exact Hrun.
Qed.

(** Merging a sequence of property maps with [Object.assign], one after the
    other, leaves for each name the binding of the last map that has it. *)
Lemma get_merged (k : string) (maps : list (list (string * JSON))) :
  Forall (fun m => NoDup (Obj.keys m)) maps ->
  forall acc,
    Obj.get k (fold_left Obj.assign maps acc) = lookupLast k (acc :: maps).
Proof.
  induction 1 as [|m maps Hm _ IH]; intros acc; simpl.
  - reflexivity.
  - rewrite IH. simpl. rewrite (get_assign _ _ _ Hm).
    destruct (lookupLast k maps); [reflexivity|]. destruct (Obj.get k m); reflexivity.
Qed.

Lemma merge_entries n api subSchemas results :
  Forall2 (entryExtracts n api) subSchemas results ->
  forall props req,
    foldM (mergeEntry n api) subSchemas (props, req)
    = Ok (fold_left Obj.assign (fst <$> results) props, req ++ concat (snd <$> results)).
Proof.
  induction 1 as [|subSchema [subProps subReq] subSchemas results (resolved & Hres & Hext) _ IH];
    intros props req; simpl.
  - rewrite app_nil_r. reflexivity.
  - rewrite Hres. simpl. rewrite Hext. simpl. rewrite IH, app_assoc. reflexivity.
Qed.

(** C6.  For a schema with an [allOf] list whose entries extract to
    [results], extraction returns the schema's own properties merged with the
    properties of the entries, a later entry overriding the same name of an
    earlier one (and of the schema itself), and a duplicate-free required
    list that holds exactly the schema's own required names and those of every
    entry.  In particular [allOf [SchemaA, SchemaB]] yields the properties
    [id] and [name] and the required list [[id, name]]. *)
Theorem allOf_merge n schema api subSchemas own results :
  s_allOf schema = Some subSchemas ->
  ownProperties n schema api = Ok own ->
  Forall2 (entryExtracts n api) subSchemas results ->
  (exists props req,
     extractSchemaProperties (S n) schema api = Ok (props, req)
     /\ (forall k, Obj.get k props = lookupLast k (own :: (fst <$> results)))
     /\ NoDup req
     /\ (forall x, x ∈ req <->
                   x ∈ default [] (s_required schema)
                   \/ exists result, result ∈ results /\ x ∈ result.2))
  /\ extractSchemaProperties 3 schemaAB abSpec
     = Ok ([("id", JObj [("type", JStr "string")]);
            ("name", JObj [("type", JStr "string")])],
           ["id"; "name"]).
Proof.
  intros HallOf Hown Hentries. split; [|reflexivity].
  eexists _, _. split.
  { rewrite extractSchemaProperties_unfold, Hown. simpl. rewrite HallOf.
    rewrite (merge_entries _ _ _ _ Hentries). reflexivity. }
  split; [|split].
  - intros k. apply get_merged.
    apply Forall_forall. intros m Hm.
    apply list_elem_of_fmap in Hm as ([props req] & -> & Hin).
    apply list_elem_of_lookup in Hin as [i Hi].
    destruct (Forall2_lookup_r _ _ _ _ _ Hentries Hi) as (sub & _ & (resolved & _ & Hext)).
    apply extractSchemaProperties_keys in Hext. exact Hext.
  - apply uniq_NoDup.
  - intros x. rewrite elem_of_uniq, elem_of_app. apply or_iff_compat_l.
    rewrite list_elem_of_In, in_concat. split.
    + intros (l & Hl & Hx). apply list_elem_of_In, list_elem_of_fmap in Hl as (result & -> & Hin).
      exists result. split; [exact Hin | apply list_elem_of_In, Hx].
    + intros (result & Hin & Hx). exists result.2. split; [|apply list_elem_of_In, Hx].
      apply list_elem_of_In, list_elem_of_fmap. exists result. auto.
Qed.

Lemma allOf_merge_witness :
  exists props req,
    extractSchemaProperties 3 schemaAB abSpec = Ok (props, req)
    /\ (forall k, Obj.get k props
                  = lookupLast k [[]; [("id", JObj [("type", JStr "string")])];
                                  [("name", JObj [("type", JStr "string")])]])
    /\ NoDup req.
Proof.
  destruct (allOf_merge 2 schemaAB abSpec
              [refTo "#/components/schemas/SchemaA"; refTo "#/components/schemas/SchemaB"]
              []
              [([("id", JObj [("type", JStr "string")])], ["id"]);
               ([("name", JObj [("type", JStr "string")])], ["name"])])
    as [(props & req & Hrun & Hget & Hnd & _) _].
  - reflexivity.
  - reflexivity.
  - repeat constructor.
    + exists schemaA. split; reflexivity.
    + exists schemaB. split; reflexivity.
  - exists props, req. auto.
Defined.

(** ** Request-body models *)

Lemma suffix_neq (prefix s t : string) : s <> t -> prefix +:+ s <> prefix +:+ t.
Proof. intros Hne H. apply Hne. exact (String.app_inj prefix _ _ H). Qed.

Lemma elem_of_pushUnseen model st m :
  m ∈ (pushUnseen model st).1
  <-> m ∈ st.1 \/ (m = model /\ modelName model ∉ st.2).
Proof.
  destruct st as [ms seen]. unfold pushUnseen. case_bool_decide as Hin; simpl.
  - split; [auto | intros [H|[_ H]]; [exact H | contradiction]].
  - rewrite elem_of_app, list_elem_of_singleton. split; intros [H|H]; auto.
    destruct H as [H _]. auto.
Qed.

Lemma seen_pushUnseen model st x :
  x ∈ (pushUnseen model st).2 <-> x ∈ st.2 \/ x = modelName model.
Proof.
  destruct st as [ms seen]. unfold pushUnseen. case_bool_decide as Hin; simpl.
  - split; [auto | intros [H| ->]; assumption].
  - rewrite elem_of_union, elem_of_singleton. reflexivity.
Qed.

Lemma elem_of_pushes new st m :
  m ∈ (fold_left (fun st model => pushUnseen model st) new st).1 ->
  m ∈ st.1 \/ m ∈ new.
Proof.
  revert st. induction new as [|model new IH]; intros st; simpl; [auto|].
  intros H. apply IH in H as [H|H]; [|right; right; exact H].
  apply elem_of_pushUnseen in H as [H|[-> _]]; [left; exact H | right; left].
Qed.


Section RequestModels.

Variables pascalCase camelCase : string -> string.

Lemma createQueryParamsModel_name operation operationId model :
  createQueryParamsModel pascalCase operation operationId = Some model ->
  modelName model = pascalCase operationId +:+ "QueryParams".
Proof.
  unfold createQueryParamsModel. destruct (length _ =? 0)%nat; [discriminate|].
  destruct (fold_left _ _ _) as [props req]. intros [= <-]. reflexivity.
Qed.

Lemma jsonSchema_Some content schema :
  jsonSchema (Some content) = Some schema
  <-> exists jsonContent,
        Obj.get "application/json" content = Some jsonContent
        /\ mt_schema jsonContent = Some schema.
Proof.
  unfold jsonSchema. destruct (Obj.get "application/json" content) as [jsonContent|].
  - split; [intros H; exists jsonContent; auto | intros (j & [= <-] & H); exact H].
  - split; [discriminate | intros (j & H & _); discriminate].
Qed.

(** When [createRequestBodyModel] returns, it returns a model exactly for an
    operation with a declared operationId and an application/json entry with
    a schema in its request body, and the model is named after the
    operationId. *)
Lemma createRequestBodyModel_Some fuel operation api result :
  createRequestBodyModel pascalCase fuel operation api = Ok result ->
  match result with
  | Some model =>
      exists operationId requestBody,
        truthy (op_operationId operation) = Some operationId
        /\ op_requestBody operation = Some requestBody
        /\ is_Some (jsonSchema (Some (rb_content requestBody)))
        /\ modelName model = pascalCase operationId +:+ "InData"
  | None =>
      truthy (op_operationId operation) = None
      \/ op_requestBody operation = None
      \/ exists requestBody,
           op_requestBody operation = Some requestBody
           /\ jsonSchema (Some (rb_content requestBody)) = None
  end.
Proof.
  unfold createRequestBodyModel.
  destruct (op_requestBody operation) as [requestBody|];
    [|intros [= <-]; right; left; reflexivity].
  destruct (truthy (op_operationId operation)) as [operationId|];
    [|intros [= <-]; left; reflexivity].
  destruct (jsonSchema (Some (rb_content requestBody))) as [declared|] eqn:Hjson.
  - intros H. ok_inv H. ok_inv H. destruct a0 as [props req]. injection H as <-.
    exists operationId, requestBody. split; [reflexivity|]. split; [reflexivity|].
    split; [rewrite Hjson; eexists; reflexivity | reflexivity].
  - intros [= <-]. right. right. exists requestBody. auto.
Qed.

Lemma createResponseModels_names fuel operation api operationId ms m :
  truthy (op_operationId operation) = Some operationId ->
  createResponseModels pascalCase fuel operation api = Ok ms ->
  m ∈ ms ->
  modelName m = pascalCase operationId +:+ "OutData"
  \/ modelName m = pascalCase operationId +:+ "RecordData".
Proof.
  unfold createResponseModels. intros -> Hrun. revert m. revert ms Hrun.
  apply (foldM_invariant
           (fun ms => forall m, m ∈ ms ->
                      modelName m = pascalCase operationId +:+ "OutData"
                      \/ modelName m = pascalCase operationId +:+ "RecordData")).
  - intros m H. inversion H.
  - intros ms [status response] ms' _ IH Hstep m Hm.
    destruct (jsonSchema (r_content response)) as [declared|];
      [|injection Hstep as <-; apply IH, Hm].
    ok_inv Hstep. ok_inv Hstep. destruct a0 as [props req].
    destruct (isPaginatedSchema (Some a)).
    + ok_inv Hstep. destruct a0 as [recordSchema|].
      * ok_inv Hstep. destruct a0 as [recordProps recordReq]. injection Hstep as <-.
        apply elem_of_app in Hm as [Hm|Hm]; [apply IH, Hm|].
        apply elem_of_cons in Hm as [->|Hm]; [left; reflexivity|].
        apply list_elem_of_singleton in Hm as ->. right. reflexivity.
      * injection Hstep as <-.
        apply elem_of_app in Hm as [Hm|Hm]; [apply IH, Hm|].
        apply list_elem_of_singleton in Hm as ->. left. reflexivity.
    + injection Hstep as <-.
      apply elem_of_app in Hm as [Hm|Hm]; [apply IH, Hm|].
      apply list_elem_of_singleton in Hm as ->. left. reflexivity.
Qed.


End RequestModels.


(** ** Fuel

    The fuel only bounds the recursion: a result obtained with some fuel is
    the result obtained with any larger fuel. *)

Lemma foldM_mono {A B : Type} (f g : B -> A -> res B) (l : list A) :
  (forall b x b', f b x = Ok b' -> g b x = Ok b') ->
  forall b r, foldM f l b = Ok r -> foldM g l b = Ok r.
Proof.
  intros Hfg. induction l as [|x l IH]; intros b r H; simpl in *; [exact H|].
  ok_inv H. rewrite (Hfg _ _ _ Hrun). simpl. apply IH, H.
Qed.

Lemma convertSchemaToProperty_unfold n schema api :
  convertSchemaToProperty (S n) schema api
  = (resolved ← resolveSchema schema api;
     if typeIs resolved "array" then
       items ←
         match s_items resolved with
         | Some itemSchema => convertSchemaToProperty n itemSchema api
         | None => Ok (JObj [("type", JStr "any")])
         end;
       Ok (JObj (Json.record
                   [("type", Some (JStr "array"));
                    ("items", Some items);
                    ("description", Json.str (s_description resolved))]))
     else if typeIs resolved "object" then
       '(subProperties, subRequired) ← extractSchemaProperties n resolved api;
       Ok (JObj (Json.record
                   [("type", Some (JStr "object"));
                    ("properties", Some (JObj subProperties));
                    ("required", Some (Json.strings subRequired));
                    ("description", Json.str (s_description resolved))]))
     else
       Ok (JObj (Json.record
                   [("type", Some (JStr (mapSwaggerTypeToTypeScript
                                           (Some (default "any" (truthy (s_type resolved))))
                                           (s_format resolved))));
                    ("description", Json.str (s_description resolved));
                    ("enum", JArr <$> s_enum resolved);
                    ("example", s_example resolved)]))).
Proof. reflexivity. Qed.

Lemma extract_fuel_S n :
  (forall schema api r,
     extractSchemaProperties n schema api = Ok r ->
     extractSchemaProperties (S n) schema api = Ok r)
  /\ (forall schema api r,
        convertSchemaToProperty n schema api = Ok r ->
        convertSchemaToProperty (S n) schema api = Ok r).
Proof.
  induction n as [|n [IHe IHc]]; [split; discriminate|]. split.
  - intros schema api r. rewrite !extractSchemaProperties_unfold. intros H.
    ok_inv H. ok_inv H. destruct a0 as [props req]. injection H as <-.
    assert (Hown : ownProperties (S n) schema api = Ok a).
    { revert Hrun. unfold ownProperties. destruct (s_properties schema); [|exact id].
      apply foldM_mono. intros acc [propName propSchema] acc' Hstep.
      ok_inv Hstep. rewrite (IHc _ _ _ Hrun). exact Hstep. }
    rewrite Hown. cbn [mbind res_bind].
    assert (Hmerge : match s_allOf schema with
                     | Some subSchemas =>
                         foldM (mergeEntry (S n) api) subSchemas
                           (a, default [] (s_required schema))
                     | None => Ok (a, default [] (s_required schema))
                     end = Ok (props, req)).
    { revert Hrun0. destruct (s_allOf schema); [|exact id].
      apply foldM_mono. intros [p q] subSchema acc' Hstep. unfold mergeEntry in *.
      ok_inv Hstep. ok_inv Hstep. rewrite Hrun0. cbn [mbind res_bind].
      rewrite (IHe _ _ _ Hrun1). exact Hstep. }
    rewrite Hmerge. reflexivity.
  - intros schema api r. rewrite !convertSchemaToProperty_unfold. intros H.
    ok_inv H. rewrite Hrun. cbn [mbind res_bind].
    destruct (typeIs a "array").
    + ok_inv H. destruct (s_items a).
      * rewrite (IHc _ _ _ Hrun0). exact H.
      * rewrite Hrun0. exact H.
    + destruct (typeIs a "object"); [|exact H].
      ok_inv H. rewrite (IHe _ _ _ Hrun0). exact H.
Qed.

Lemma extractSchemaProperties_fuel n schema api r :
  extractSchemaProperties n schema api = Ok r ->
  extractSchemaProperties (S n) schema api = Ok r.
Proof. apply extract_fuel_S. Qed.

Section Fuel.

Variables pascalCase camelCase : string -> string.

Lemma createRequestBodyModel_fuel n operation api r :
  createRequestBodyModel pascalCase n operation api = Ok r ->
  createRequestBodyModel pascalCase (S n) operation api = Ok r.
Proof.
  unfold createRequestBodyModel.
  destruct (op_requestBody operation) as [requestBody|]; [|exact id].
  destruct (truthy (op_operationId operation)) as [operationId|]; [|exact id].
  destruct (jsonSchema (Some (rb_content requestBody))); [|exact id].
  intros H. ok_inv H. ok_inv H. rewrite Hrun. cbn [mbind res_bind].
  rewrite (extractSchemaProperties_fuel _ _ _ _ Hrun0). exact H.
Qed.

Lemma createResponseModels_fuel n operation api r :
  createResponseModels pascalCase n operation api = Ok r ->
  createResponseModels pascalCase (S n) operation api = Ok r.
Proof.
  unfold createResponseModels.
  destruct (truthy (op_operationId operation)) as [operationId|]; [|exact id].
  apply foldM_mono. intros ms [status response] ms'.
  destruct (jsonSchema (r_content response)); [|exact id].
  intros H. ok_inv H. ok_inv H. destruct a0 as [props req].
  rewrite Hrun. cbn [mbind res_bind].
  rewrite (extractSchemaProperties_fuel _ _ _ _ Hrun0). cbn [mbind res_bind].
  destruct (isPaginatedSchema (Some a)); [|exact H].
  ok_inv H. rewrite Hrun1. cbn [mbind res_bind]. destruct a0 as [recordSchema|]; [|exact H].
  ok_inv H. rewrite (extractSchemaProperties_fuel _ _ _ _ Hrun2). exact H.
Qed.

Lemma extractModelsFromOperation_fuel n operation api seen r :
  extractModelsFromOperation pascalCase n operation api seen = Ok r ->
  extractModelsFromOperation pascalCase (S n) operation api seen = Ok r.
Proof.
  unfold extractModelsFromOperation.
  set (st0 := if hasQueryParams operation then _ else _). clearbody st0.
  intros H. ok_inv H. ok_inv H.
  assert (Hreq : match op_requestBody operation with
                 | Some _ =>
                     requestModel ← createRequestBodyModel pascalCase (S n) operation api;
                     match requestModel with
                     | Some requestModel => Ok (pushUnseen requestModel st0)
                     | None => Ok st0
                     end
                 | None => Ok st0
                 end = Ok a).
  { destruct (op_requestBody operation); [|exact Hrun].
    ok_inv Hrun. rewrite (createRequestBodyModel_fuel _ _ _ _ Hrun1). exact Hrun. }
  rewrite Hreq. cbn [mbind res_bind].
  rewrite (createResponseModels_fuel _ _ _ _ Hrun0). exact H.
Qed.

Lemma extractStandaloneModels_fuel n api seen r :
  extractStandaloneModels pascalCase n api seen = Ok r ->
  extractStandaloneModels pascalCase (S n) api seen = Ok r.
Proof.
  unfold extractStandaloneModels. apply foldM_mono.
  intros [ms seen0] [name schema] st'. case_bool_decide as Hin; [exact id|].
  intros H. ok_inv H. rewrite (extractSchemaProperties_fuel _ _ _ _ Hrun). exact H.
Qed.

Lemma extractDocumentationData_fuel_S n api r :
  extractDocumentationData pascalCase camelCase n api = Ok r ->
  extractDocumentationData pascalCase camelCase (S n) api = Ok r.
Proof.
  unfold extractDocumentationData. intros H. ok_inv H. ok_inv H.
  assert (Hvisit : foldM (visitPath pascalCase camelCase (S n) api) (api_paths api)
                     {| apis := []; models := []; seenModels := ∅; apiIndex := 1 |} = Ok a).
  { revert Hrun. apply foldM_mono. intros st [path pathItem] st'. unfold visitPath.
    apply foldM_mono. intros st0 [method operation] st1. unfold visitOperation.
    destruct (negb (isValidHttpMethod method)); [exact id|].
    intros Hstep. apply bind_Ok in Hstep as (new & Hnew & Hstep).
    rewrite (extractModelsFromOperation_fuel _ _ _ _ _ Hnew). exact Hstep. }
  rewrite Hvisit. cbn [mbind res_bind].
  rewrite (extractStandaloneModels_fuel _ _ _ _ Hrun0). exact H.
Qed.

(** The outcome of a synthesis that returns does not depend on the fuel. *)
Lemma extractDocumentationData_fuel n n' api r :
  (n <= n')%nat ->
  extractDocumentationData pascalCase camelCase n api = Ok r ->
  extractDocumentationData pascalCase camelCase n' api = Ok r.
Proof.
  induction 1 as [|n' _ IH]; [exact id|].
  intros H. apply extractDocumentationData_fuel_S, IH, H.
Qed.

End Fuel.

(** ** Which operation a model names *)

Section UsedInOperations.

Variables pascalCase camelCase : string -> string.

Lemma createQueryParamsModel_used operation operationId model :
  createQueryParamsModel pascalCase operation operationId = Some model ->
  usedInOperations model = Some operationId.
Proof.
  unfold createQueryParamsModel. destruct (length _ =? 0)%nat; [discriminate|].
  destruct (fold_left _ _ _) as [props req]. intros [= <-]. reflexivity.
Qed.

Lemma createRequestBodyModel_used fuel operation api model :
  createRequestBodyModel pascalCase fuel operation api = Ok (Some model) ->
  usedInOperations model = Some (modelOperationId operation).
Proof.
  unfold createRequestBodyModel, modelOperationId.
  destruct (op_requestBody operation) as [requestBody|]; [|discriminate].
  destruct (truthy (op_operationId operation)) as [operationId|]; [|discriminate].
  destruct (jsonSchema (Some (rb_content requestBody))); [|discriminate].
  intros H. ok_inv H. ok_inv H. destruct a0 as [props req]. injection H as <-. reflexivity.
Qed.

Lemma createResponseModels_used fuel operation api ms m :
  createResponseModels pascalCase fuel operation api = Ok ms ->
  m ∈ ms ->
  usedInOperations m = Some (modelOperationId operation).
Proof.
  unfold createResponseModels, modelOperationId.
  destruct (truthy (op_operationId operation)) as [operationId|];
    [|intros [= <-] H; inversion H].
  intros Hrun. revert m. revert ms Hrun.
  apply (foldM_invariant
           (fun ms => forall m, m ∈ ms -> usedInOperations m = Some operationId)).
  - intros m H. inversion H.
  - intros ms [status response] ms' _ IH Hstep m Hm.
    destruct (jsonSchema (r_content response)) as [declared|];
      [|injection Hstep as <-; apply IH, Hm].
    ok_inv Hstep. ok_inv Hstep. destruct a0 as [props req].
    destruct (isPaginatedSchema (Some a)).
    + ok_inv Hstep. destruct a0 as [recordSchema|].
      * ok_inv Hstep. destruct a0 as [recordProps recordReq]. injection Hstep as <-.
        apply elem_of_app in Hm as [Hm|Hm]; [apply IH, Hm|].
        apply elem_of_cons in Hm as [->|Hm]; [reflexivity|].
        apply list_elem_of_singleton in Hm as ->. reflexivity.
      * injection Hstep as <-.
        apply elem_of_app in Hm as [Hm|Hm]; [apply IH, Hm|].
        apply list_elem_of_singleton in Hm as ->. reflexivity.
    + injection Hstep as <-.
      apply elem_of_app in Hm as [Hm|Hm]; [apply IH, Hm|].
      apply list_elem_of_singleton in Hm as ->. reflexivity.
Qed.

Lemma extractModelsFromOperation_used fuel operation api seen ms seen' m :
  extractModelsFromOperation pascalCase fuel operation api seen = Ok (ms, seen') ->
  m ∈ ms ->
  usedInOperations m = Some (modelOperationId operation).
Proof.
  unfold extractModelsFromOperation. fold (modelOperationId operation).
  set (st0 := if hasQueryParams operation then _ else _).
  assert (H0 : forall m, m ∈ st0.1 -> usedInOperations m = Some (modelOperationId operation)).
  { subst st0. destruct (hasQueryParams operation); [|intros m' H; inversion H].
    destruct (createQueryParamsModel _ _ _) as [q|] eqn:Hq; [|intros m' H; inversion H].
    apply createQueryParamsModel_used in Hq.
    intros m' Hm. apply elem_of_pushUnseen in Hm as [Hm|[-> _]]; [inversion Hm | exact Hq]. }
  clearbody st0. intros H Hm. ok_inv H. ok_inv H. injection H as H.
  assert (Hms : ms = (fold_left (fun st model => pushUnseen model st) a0 a).1)
    by (rewrite H; reflexivity).
  subst ms. apply elem_of_pushes in Hm as [Hm|Hm];
    [|exact (createResponseModels_used _ _ _ _ _ Hrun0 Hm)].
  destruct (op_requestBody operation).
  - ok_inv Hrun. destruct a1 as [requestModel|]; injection Hrun as <-; [|apply H0, Hm].
    apply elem_of_pushUnseen in Hm as [Hm|[-> _]]; [apply H0, Hm|].
    exact (createRequestBodyModel_used _ _ _ _ Hrun1).
  - injection Hrun as <-. apply H0, Hm.
Qed.

Lemma visitOperation_names_known fuel api path st entry st' :
  names_known st ->
  visitOperation pascalCase camelCase fuel api path st entry = Ok st' ->
  names_known st'.
Proof.
  destruct entry as [method operation]. unfold visitOperation. intros Hst Hstep.
  destruct (negb (isValidHttpMethod method)); [injection Hstep as <-; exact Hst|].
  apply bind_Ok in Hstep as ([new seen] & Hnew & Hstep). injection Hstep as <-.
  intros m id Hm Hid. simpl in *. rewrite fmap_app, elem_of_app.
  apply elem_of_app in Hm as [Hm|Hm].
  - destruct (Hst m id Hm Hid); auto.
  - rewrite (extractModelsFromOperation_used _ _ _ _ _ _ _ Hnew Hm) in Hid.
    injection Hid as <-. unfold modelOperationId. simpl.
    destruct (truthy (op_operationId operation)); simpl; [|left; reflexivity].
    right. right. left.
Qed.

Lemma usedInOperations_known fuel api docs ms m id :
  extractDocumentationData pascalCase camelCase fuel api = Ok (docs, ms) ->
  m ∈ ms ->
  usedInOperations m = Some id ->
  id = "unknown" \/ id ∈ operationId <$> docs.
Proof.
  unfold extractDocumentationData. intros H Hm Hid. ok_inv H. rename a into st.
  assert (Hst : names_known st).
  { revert Hrun. apply foldM_invariant; [intros m' id' H'; inversion H'|].
    intros st0 [path pathItem] st1 _ Hst0. unfold visitPath.
    apply foldM_invariant; [exact Hst0|].
    intros st2 entry st3 _. apply visitOperation_names_known. }
  apply bind_Ok in H as ([standalone seen] & Hstandalone & H). injection H as <- <-.
  apply list_elem_of_lookup in Hm as [i Hi]. rewrite list_lookup_imap in Hi.
  destruct (_ !! i) as [m0|] eqn:Hm0; [|discriminate]. injection Hi as <-.
  simpl in Hid.
  apply lookup_app_Some in Hm0 as [Hm0|[_ Hm0]].
  - apply (Hst m0 id); [|exact Hid]. apply list_elem_of_lookup. eauto.
  - exfalso. revert Hstandalone.
    unfold extractStandaloneModels.
    intros Hrun'.
    assert (Hnone : forall m', m' ∈ standalone -> usedInOperations m' = None).
    { change standalone with (standalone, seen).1. revert Hrun'.
      apply (foldM_invariant (fun st => forall m', m' ∈ st.1 -> usedInOperations m' = None)).
      - intros m' H'. inversion H'.
      - intros [ms0 seen0] [name schema] st' _ IH Hstep.
        case_bool_decide as Hin; [injection Hstep as <-; exact IH|].
        ok_inv Hstep. destruct a as [props req]. injection Hstep as <-.
        intros m' Hm'. apply elem_of_app in Hm' as [Hm'|Hm']; [apply IH, Hm'|].
        apply list_elem_of_singleton in Hm' as ->. reflexivity. }
    rewrite (Hnone m0) in Hid; [discriminate|]. apply list_elem_of_lookup. eauto.
Qed.

End UsedInOperations.

(** * Further properties of the service *)

(** ** The traversal *)

(** A loop that may fail, followed together with the list of what it has
    gone through. *)
Lemma foldM_trace {A B C : Type} (R : list C -> B -> Prop) (h : A -> list C)
    (f : B -> A -> res B) (l : list A) :
  (forall b x b' tr, R tr b -> f b x = Ok b' -> R (tr ++ h x) b') ->
  forall tr b r, R tr b -> foldM f l b = Ok r -> R (tr ++ flat_map h l) r.
Proof.
  intros Hstep. induction l as [|x l IH]; intros tr b r Hb Hrun; simpl in *.
  - injection Hrun as <-. rewrite app_nil_r. exact Hb.
  - ok_inv Hrun. rewrite app_assoc. apply (IH _ a); [|exact Hrun].
    apply (Hstep b); assumption.
Qed.

Section Traversal.

Variables pascalCase camelCase : string -> string.

Lemma visitOperation_visited fuel api path st entry st' ops :
  visited pascalCase camelCase api ops st ->
  visitOperation pascalCase camelCase fuel api path st entry = Ok st' ->
  visited pascalCase camelCase api (ops ++ visitedOf path [entry]) st'.
Proof.
  destruct entry as [method operation]. unfold visitOperation, visitedOf. simpl.
  intros [Hapis Hindex] Hstep. destruct (isValidHttpMethod method); simpl in *.
  - apply bind_Ok in Hstep as ([new seen] & _ & Hstep). injection Hstep as <-.
    split; simpl.
    + rewrite imap_app, Hapis, Hindex. simpl. rewrite Nat.add_0_r. reflexivity.
    + rewrite length_app, Hindex. simpl. lia.
  - injection Hstep as <-. rewrite app_nil_r. split; assumption.
Qed.

Lemma visitPath_visited fuel api st entry st' ops :
  visited pascalCase camelCase api ops st ->
  visitPath pascalCase camelCase fuel api st entry = Ok st' ->
  visited pascalCase camelCase api (ops ++ visitedOf entry.1 entry.2) st'.
Proof.
  destruct entry as [path pathItem]. unfold visitPath, visitedOf. simpl. intros Hst.
  apply (foldM_trace (visited pascalCase camelCase api)
           (fun '(method, operation) =>
              if isValidHttpMethod method then [(path, method, operation)] else []));
    [|exact Hst].
  intros b [method operation] b' tr Hb Hstep.
  pose proof (visitOperation_visited _ _ _ _ _ _ _ Hb Hstep) as H.
  unfold visitedOf in H. simpl in H. rewrite app_nil_r in H. exact H.
Qed.

Lemma paths_visited fuel api st :
  foldM (visitPath pascalCase camelCase fuel api) (api_paths api)
    {| apis := []; models := []; seenModels := ∅; apiIndex := 1 |} = Ok st ->
  visited pascalCase camelCase api (operationsOf api) st.
Proof.
  intros Hrun.
  pose proof (foldM_trace (visited pascalCase camelCase api) (fun entry => visitedOf entry.1 entry.2)
                (visitPath pascalCase camelCase fuel api) (api_paths api)) as H.
  specialize (H (fun b x b' tr Hb Hstep => visitPath_visited fuel api b x b' tr Hb Hstep)).
  assert (H0 : visited pascalCase camelCase api []
                 {| apis := []; models := []; seenModels := ∅; apiIndex := 1 |})
    by (split; reflexivity).
  specialize (H [] _ st H0 Hrun). simpl in H.
  replace (operationsOf api)
    with (flat_map (fun entry : string * list (string * SwaggerOperation) =>
                      visitedOf entry.1 entry.2) (api_paths api)); [exact H|].
  unfold operationsOf, visitedOf. apply flat_map_ext. intros [path pathItem]. reflexivity.
Qed.

(** X1.  The API records are the records of the visited operations, in
    document order: the record at position [i] is built from the [i]-th
    operation under a recognised method, with sequence number [i + 1]; path
    item keys that are no recognised method give no record. *)
Theorem apis_of_visited_operations fuel api docs ms :
  extractDocumentationData pascalCase camelCase fuel api = Ok (docs, ms) ->
  length docs = length (operationsOf api)
  /\ forall i, docs !! i = apiRecord pascalCase camelCase api i <$> operationsOf api !! i.
Proof.
  unfold extractDocumentationData. intros H. ok_inv H.
  apply paths_visited in Hrun as [Hapis _].
  apply bind_Ok in H as ([standalone seen] & _ & H). injection H as <- _.
  rewrite Hapis. split; [apply length_imap | intros i; apply list_lookup_imap].
Qed.

(** X2.  Sequence numbers: the API records and the model records are each
    numbered 1, 2, 3, ... in the order in which they are returned. *)
Theorem sequence_numbers fuel api docs ms :
  extractDocumentationData pascalCase camelCase fuel api = Ok (docs, ms) ->
  (forall i a, docs !! i = Some a -> api_sNo a = (Z.of_nat i + 1)%Z)
  /\ (forall i m, ms !! i = Some m -> sNo m = (Z.of_nat i + 1)%Z).
Proof.
  unfold extractDocumentationData. intros H. ok_inv H.
  apply paths_visited in Hrun as [Hapis _].
  apply bind_Ok in H as ([standalone seen] & _ & H). injection H as <- <-. split.
  - intros i doc. rewrite Hapis, list_lookup_imap.
    destruct (operationsOf api !! i) as [[[path method] operation]|]; [|discriminate].
    intros [= <-]. reflexivity.
  - intros i m. rewrite list_lookup_imap.
    destruct (_ !! i) as [m0|]; [|discriminate]. intros [= <-]. reflexivity.
Qed.

End Traversal.

Lemma apis_of_visited_operations_witness :
  exists docs ms,
    synthesize 4 clashSpec = Ok (docs, ms)
    /\ (length docs = length (operationsOf clashSpec)
        /\ forall i, docs !! i
                     = apiRecord ChangeCase.pascalCase ChangeCase.camelCase clashSpec i
                         <$> operationsOf clashSpec !! i).
Proof.
  eexists _, _. split; [vm_compute; reflexivity|].
  eapply (apis_of_visited_operations ChangeCase.pascalCase ChangeCase.camelCase 4 clashSpec).
  vm_compute. reflexivity.
Defined.

Lemma sequence_numbers_witness :
  exists docs ms,
    synthesize 4 clashSpec = Ok (docs, ms)
    /\ ((forall i a, docs !! i = Some a -> api_sNo a = (Z.of_nat i + 1)%Z)
        /\ (forall i m, ms !! i = Some m -> sNo m = (Z.of_nat i + 1)%Z)).
Proof.
  eexists _, _. split; [vm_compute; reflexivity|].
  eapply (sequence_numbers ChangeCase.pascalCase ChangeCase.camelCase 4 clashSpec).
  vm_compute. reflexivity.
Defined.

(** ** The models of one operation *)

Section OperationModels.

Variable pascalCase : string -> string.

Lemma extractModelsFromOperation_names fuel operation api seen ms seen' m :
  extractModelsFromOperation pascalCase fuel operation api seen = Ok (ms, seen') ->
  m ∈ ms ->
  modelName m ∈ operationModelNames pascalCase operation.
Proof.
  unfold extractModelsFromOperation, operationModelNames.
  fold (modelOperationId operation).
  set (st0 := if hasQueryParams operation then _ else _).
  assert (H0 : forall m, m ∈ st0.1 ->
                         modelName m
                         = pascalCase (modelOperationId operation) +:+ "QueryParams").
  { subst st0. destruct (hasQueryParams operation); [|intros m' H; inversion H].
    destruct (createQueryParamsModel _ _ _) as [q|] eqn:Hq; [|intros m' H; inversion H].
    apply createQueryParamsModel_name in Hq.
    intros m' Hm. apply elem_of_pushUnseen in Hm as [Hm|[-> _]]; [inversion Hm | exact Hq]. }
  clearbody st0. intros H Hm. ok_inv H. ok_inv H. injection H as H.
  assert (Hms : ms = (fold_left (fun st model => pushUnseen model st) a0 a).1)
    by (rewrite H; reflexivity).
  subst ms. apply elem_of_pushes in Hm as [Hm|Hm].
  - destruct (op_requestBody operation).
    + ok_inv Hrun. destruct a1 as [requestModel|]; injection Hrun as <-;
        [|rewrite (H0 _ Hm); left].
      apply elem_of_pushUnseen in Hm as [Hm|[-> _]]; [rewrite (H0 _ Hm); left|].
      pose proof (createRequestBodyModel_Some _ _ _ _ _ Hrun1)
        as (operationId & _ & Hid & _ & _ & Hname).
      unfold modelOperationId. rewrite Hid, Hname. right. left.
    + injection Hrun as <-. rewrite (H0 _ Hm). left.
  - unfold modelOperationId.
    destruct (truthy (op_operationId operation)) as [operationId|] eqn:Hid.
    + destruct (createResponseModels_names _ _ _ _ _ _ m Hid Hrun0 Hm) as [-> | ->];
        simpl; set_solver.
    + unfold createResponseModels in Hrun0. rewrite Hid in Hrun0.
      injection Hrun0 as <-. inversion Hm.
Qed.

(** X4.  The models extracted from one operation bear pairwise distinct
    names, each one of [P + QueryParams], [P + InData], [P + OutData] and
    [P + RecordData], where [P] is the Pascal-cased operationId (or the
    Pascal-cased placeholder [unknown]); so an operation never contributes
    more than four models. *)
Theorem operation_gives_at_most_four_models fuel operation api seen ms seen' :
  extractModelsFromOperation pascalCase fuel operation api seen = Ok (ms, seen') ->
  NoDup (modelName <$> ms)
  /\ (forall m, m ∈ ms -> modelName m ∈ operationModelNames pascalCase operation)
  /\ (length ms <= 4)%nat.
Proof.
  intros H.
  pose proof (extractModelsFromOperation_fresh pascalCase pascalCase _ _ _ _ _ H) as (Hnd & _ & _).
  simpl in Hnd. split; [exact Hnd|].
  assert (Hnames : forall m, m ∈ ms ->
                             modelName m ∈ operationModelNames pascalCase operation)
    by (intros m; apply (extractModelsFromOperation_names _ _ _ _ _ _ _ H)).
  split; [exact Hnames|].
  rewrite <- (length_fmap modelName).
  change 4%nat with (length (operationModelNames pascalCase operation)).
  apply submseteq_length, NoDup_submseteq; [exact Hnd|].
  intros x Hx. apply list_elem_of_fmap in Hx as (m & -> & Hm). apply Hnames, Hm.
Qed.

(** X5.  An operation without a declared operationId never makes the
    extraction fail, whatever its schemas are, and contributes at most one
    model: the query-parameter model named after the placeholder [unknown]. *)
Theorem anonymous_operation_models fuel operation api seen :
  truthy (op_operationId operation) = None ->
  exists ms seen',
    extractModelsFromOperation pascalCase fuel operation api seen = Ok (ms, seen')
    /\ (length ms <= 1)%nat
    /\ forall m, m ∈ ms ->
                 modelName m = pascalCase "unknown" +:+ "QueryParams"
                 /\ usedInOperations m = Some "unknown".
Proof.
  intros Hid. unfold extractModelsFromOperation.
  assert (Hreq : createRequestBodyModel pascalCase fuel operation api = Ok None).
  { unfold createRequestBodyModel. rewrite Hid. destruct (op_requestBody operation); reflexivity. }
  assert (Hresp : createResponseModels pascalCase fuel operation api = Ok []).
  { unfold createResponseModels. rewrite Hid. reflexivity. }
  rewrite Hreq, Hresp, Hid. cbn [default from_option id].
  set (st0 := if hasQueryParams operation then _ else _).
  assert (H0 : (length st0.1 <= 1)%nat
               /\ forall m, m ∈ st0.1 ->
                            modelName m = pascalCase "unknown" +:+ "QueryParams"
                            /\ usedInOperations m = Some "unknown").
  { subst st0. destruct (hasQueryParams operation);
      [|split; [simpl; lia | intros m H; inversion H]].
    destruct (createQueryParamsModel _ _ _) as [q|] eqn:Hq;
      [|split; [simpl; lia | intros m H; inversion H]].
    split.
    - unfold pushUnseen. case_bool_decide; simpl; lia.
    - intros m Hm. apply elem_of_pushUnseen in Hm as [Hm|[-> _]]; [inversion Hm|].
      split; [exact (createQueryParamsModel_name _ _ _ _ Hq)
             | exact (createQueryParamsModel_used _ _ _ _ Hq)]. }
  clearbody st0. destruct st0 as [ms seen'].
  exists ms, seen'. split; [|exact H0].
  destruct (op_requestBody operation); reflexivity.
Qed.

End OperationModels.

Lemma operation_gives_at_most_four_models_witness :
  exists ms seen',
    extractModelsFromOperation ChangeCase.pascalCase 3 createPet abSpec ∅ = Ok (ms, seen')
    /\ (NoDup (modelName <$> ms)
        /\ (forall m, m ∈ ms ->
                      modelName m ∈ operationModelNames ChangeCase.pascalCase createPet)
        /\ (length ms <= 4)%nat).
Proof.
  eexists _, _. split; [vm_compute; reflexivity|].
  eapply (operation_gives_at_most_four_models ChangeCase.pascalCase 3 createPet abSpec ∅).
  vm_compute. reflexivity.
Defined.

Lemma anonymous_operation_models_witness :
  exists ms seen',
    extractModelsFromOperation ChangeCase.pascalCase 0 getItems itemsSpec ∅ = Ok (ms, seen')
    /\ (length ms <= 1)%nat
    /\ forall m, m ∈ ms ->
                 modelName m = ChangeCase.pascalCase "unknown" +:+ "QueryParams"
                 /\ usedInOperations m = Some "unknown".
Proof.
  apply (anonymous_operation_models ChangeCase.pascalCase 0 getItems itemsSpec ∅).
  reflexivity.
Defined.

(** ** What the seen set records *)

Lemma seen_pushes_keep new st x :
  x ∈ st.2 -> x ∈ (fold_left (fun st model => pushUnseen model st) new st).2.
Proof.
  revert st. induction new as [|model new IH]; intros st H; simpl; [exact H|].
  apply IH, seen_pushUnseen. left. exact H.
Qed.

Lemma hasQueryParams_model pascalCase operation operationId :
  hasQueryParams operation = true ->
  is_Some (createQueryParamsModel pascalCase operation operationId).
Proof.
  unfold hasQueryParams, createQueryParamsModel.
  destruct (op_parameters operation) as [ps|]; [|discriminate].
  intros H. apply existsb_exists in H as (p & Hp & Hin).
  assert (Hfilter : In p (List.filter (fun p => bool_decide (p_in p = InQuery)) ps))
    by (apply filter_In; auto).
  destruct (List.filter _ ps) as [|q qs]; [destruct Hfilter|]. simpl.
  destruct (fold_left _ _ _) as [props req]. eexists. reflexivity.
Qed.

Section SeenSet.

Variables pascalCase camelCase : string -> string.

(** A property of the state and of the operations visited so far, kept by
    each visit, holds of all visited operations at the end of the loops. *)
Lemma traversal_trace fuel api
    (R : list (string * string * SwaggerOperation) -> Progress -> Prop) :
  (forall path st entry st' tr,
     R tr st ->
     visitOperation pascalCase camelCase fuel api path st entry = Ok st' ->
     R (tr ++ visitedOf path [entry]) st') ->
  forall st0 st,
    R [] st0 ->
    foldM (visitPath pascalCase camelCase fuel api) (api_paths api) st0 = Ok st ->
    R (operationsOf api) st.
Proof.
  intros Hstep st0 st H0 Hrun.
  replace (operationsOf api)
    with ([] ++ flat_map (fun entry : string * list (string * SwaggerOperation) =>
                            visitedOf entry.1 entry.2) (api_paths api)).
  2:{ unfold operationsOf, visitedOf. apply flat_map_ext. intros [path pathItem]. reflexivity. }
  revert Hrun. apply (foldM_trace R); [|exact H0].
  intros b [path pathItem] b' tr Hb. unfold visitPath, visitedOf. simpl.
  apply (foldM_trace R
           (fun '(method, operation) =>
              if isValidHttpMethod method then [(path, method, operation)] else []));
    [|exact Hb].
  intros b0 [method operation] b0' tr0 Hb0 Hvisit.
  pose proof (Hstep _ _ _ _ _ Hb0 Hvisit) as H.
  unfold visitedOf in H. simpl in H. rewrite app_nil_r in H. exact H.
Qed.

Lemma visitOperation_seen fuel api path st entry st' :
  seen_exact st ->
  visitOperation pascalCase camelCase fuel api path st entry = Ok st' ->
  seen_exact st' /\ (forall x, x ∈ seenModels st -> x ∈ seenModels st').
Proof.
  destruct entry as [method operation]. unfold visitOperation. intros Hst Hstep.
  destruct (negb (isValidHttpMethod method)); [injection Hstep as <-; auto|].
  apply bind_Ok in Hstep as ([new seen] & Hnew & Hstep). injection Hstep as <-.
  apply (extractModelsFromOperation_fresh pascalCase camelCase) in Hnew as (_ & _ & Hseen).
  simpl in *. split.
  - intros x. simpl. rewrite fmap_app, elem_of_app, Hseen, (Hst x). reflexivity.
  - intros x Hx. apply Hseen. left. exact Hx.
Qed.

Lemma traversal_seen_exact fuel api st :
  foldM (visitPath pascalCase camelCase fuel api) (api_paths api)
    {| apis := []; models := []; seenModels := ∅; apiIndex := 1 |} = Ok st ->
  seen_exact st.
Proof.
  apply foldM_invariant.
  - intros x. simpl. split; [intros H; destruct (not_elem_of_empty _ H) | intros H; inversion H].
  - intros st0 [path pathItem] st1 _ Hst0. unfold visitPath.
    apply foldM_invariant; [exact Hst0|].
    intros st2 entry st3 _ Hst2 Hstep. exact (proj1 (visitOperation_seen _ _ _ _ _ _ Hst2 Hstep)).
Qed.

(** The names in the seen set at the end of the loops are names of returned
    models. *)
Lemma seen_names_returned fuel api docs ms st x :
  foldM (visitPath pascalCase camelCase fuel api) (api_paths api)
    {| apis := []; models := []; seenModels := ∅; apiIndex := 1 |} = Ok st ->
  extractDocumentationData pascalCase camelCase fuel api = Ok (docs, ms) ->
  x ∈ seenModels st ->
  x ∈ modelName <$> ms.
Proof.
  intros Hloop. unfold extractDocumentationData. rewrite Hloop. cbn [mbind res_bind].
  intros H Hx. apply bind_Ok in H as ([standalone seen] & _ & H). injection H as _ <-.
  rewrite names_withSNo, fmap_app, elem_of_app. left.
  apply (traversal_seen_exact _ _ _ Hloop), Hx.
Qed.

Lemma query_name_seen fuel operation api seen ms seen' :
  extractModelsFromOperation pascalCase fuel operation api seen = Ok (ms, seen') ->
  hasQueryParams operation = true ->
  pascalCase (modelOperationId operation) +:+ "QueryParams" ∈ seen'.
Proof.
  unfold extractModelsFromOperation. fold (modelOperationId operation). intros H Hquery.
  rewrite Hquery in H.
  destruct (hasQueryParams_model pascalCase operation (modelOperationId operation) Hquery)
    as [q Hq].
  rewrite Hq in H. pose proof (createQueryParamsModel_name _ _ _ _ Hq) as Hname.
  set (st0 := pushUnseen q ([], seen)) in H.
  assert (H0 : modelName q ∈ st0.2) by (apply seen_pushUnseen; right; reflexivity).
  clearbody st0. ok_inv H. ok_inv H. injection H as H.
  assert (Hseen : seen' = (fold_left (fun st model => pushUnseen model st) a0 a).2)
    by (rewrite H; reflexivity).
  rewrite <- Hname, Hseen. apply seen_pushes_keep.
  destruct (op_requestBody operation).
  - ok_inv Hrun. destruct a1; injection Hrun as <-; [|exact H0].
    apply seen_pushUnseen. left. exact H0.
  - injection Hrun as <-. exact H0.
Qed.

(** X6.  Query-parameter references of operations that declare an
    operationId never dangle: for every visited operation with a declared
    operationId and a query parameter, the [queryParamsRef] of its API record
    is the name of a returned model. *)
Theorem queryParamsRef_resolves fuel api docs ms path method operation sNo ref :
  extractDocumentationData pascalCase camelCase fuel api = Ok (docs, ms) ->
  (path, method, operation) ∈ operationsOf api ->
  is_Some (truthy (op_operationId operation)) ->
  queryParamsRef (createApiDocumentation pascalCase camelCase sNo path method operation api)
  = Some ref ->
  ref ∈ modelName <$> ms.
Proof.
  intros Hrun Hin [operationId Hid] Href.
  pose proof Hrun as Hrun'. unfold extractDocumentationData in Hrun'.
  apply bind_Ok in Hrun' as (st & Hloop & _).
  apply (seen_names_returned _ _ _ _ _ _ Hloop Hrun).
  simpl in Href. rewrite Hid in Href. simpl in Href.
  destruct (hasQueryParams operation) eqn:Hquery; [|discriminate]. injection Href as <-.
  pose proof (traversal_trace fuel api
                (fun tr st =>
                   seen_exact st
                   /\ forall path method operation,
                        (path, method, operation) ∈ tr ->
                        hasQueryParams operation = true ->
                        pascalCase (modelOperationId operation) +:+ "QueryParams"
                          ∈ seenModels st)) as Htrace.
  cbv beta in Htrace.
  destruct (Htrace) with (st0 := {| apis := []; models := []; seenModels := ∅; apiIndex := 1 |})
                         (st := st) as [_ Hall]; [| |exact Hloop|].
  - clear. intros path st entry st' tr [Hexact Hprev] Hvisit.
    destruct (visitOperation_seen _ _ _ _ _ _ Hexact Hvisit) as [Hexact' Hmono].
    split; [exact Hexact'|].
    intros path' method' operation' Hin Hquery. apply elem_of_app in Hin as [Hin|Hin].
    { apply Hmono, (Hprev _ _ _ Hin Hquery). }
    destruct entry as [method operation]. unfold visitedOf in Hin. simpl in Hin.
    unfold visitOperation in Hvisit.
    destruct (isValidHttpMethod method); [|inversion Hin].
    rewrite app_nil_r in Hin. apply list_elem_of_singleton in Hin. injection Hin as -> -> ->.
    simpl in Hvisit. apply bind_Ok in Hvisit as ([new seen] & Hnew & Hvisit).
    injection Hvisit as <-. simpl.
    exact (query_name_seen _ _ _ _ _ _ Hnew Hquery).
  - split; [|intros p m o H; inversion H].
    intros x. simpl. split; [intros H; destruct (not_elem_of_empty _ H) | intros H; inversion H].
  - specialize (Hall _ _ _ Hin Hquery). unfold modelOperationId in Hall.
    rewrite Hid in Hall. exact Hall.
Qed.

End SeenSet.

Lemma queryParamsRef_resolves_witness :
  exists docs ms,
    synthesize 4 clashSpec = Ok (docs, ms)
    /\ "PetQueryParams" ∈ modelName <$> ms.
Proof.
  eexists _, _. split; [vm_compute; reflexivity|].
  eapply (queryParamsRef_resolves ChangeCase.pascalCase ChangeCase.camelCase 4 clashSpec
            _ _ "/pets" "get"
            (mkOperation (Some "pet") None None None
               (Some [queryParam "limit" "integer"]) None
               [okResponse (refTo "#/components/schemas/Pet")] None)
            1%Z "PetQueryParams").
  - vm_compute. reflexivity.
  - left.
  - eexists. reflexivity.
  - reflexivity.
Defined.

(** ** Standalone models *)

Lemma flat_map_singleton {A : Type} (l : list A) : flat_map (fun x => [x]) l = l.
Proof. induction l as [|x l IH]; simpl; [reflexivity | rewrite IH; reflexivity]. Qed.

Section Standalone.

Variables pascalCase camelCase : string -> string.

Lemma standalone_covers fuel api seen ms seen' name schema :
  extractStandaloneModels pascalCase fuel api seen = Ok (ms, seen') ->
  (name, schema) ∈ schemaTable api ->
  pascalCase name +:+ "Data" ∈ seen'.
Proof.
  unfold extractStandaloneModels. fold (schemaTable api). intros Hrun Hin.
  set (R := fun (tr : list (string * SwaggerSchema))
                (st : list ModelDocumentation * gset string) =>
              forall e, e ∈ tr -> pascalCase e.1 +:+ "Data" ∈ st.2).
  assert (Hall : R ([] ++ flat_map (fun e => [e]) (schemaTable api)) (ms, seen')).
  { revert Hrun. apply (foldM_trace R (fun e => [e])).
    - clear. intros [ms seen] [name schema] st' tr Hprev Hstep e He.
      case_bool_decide as Hseen.
      + injection Hstep as <-. apply elem_of_app in He as [He|He]; [apply Hprev, He|].
        apply list_elem_of_singleton in He as ->. exact Hseen.
      + ok_inv Hstep. destruct a as [props req]. injection Hstep as <-. simpl.
        rewrite elem_of_union, elem_of_singleton.
        apply elem_of_app in He as [He|He]; [left; apply Hprev, He|].
        apply list_elem_of_singleton in He as ->. right. reflexivity.
    - intros e H. inversion H. }
  rewrite flat_map_singleton in Hall. exact (Hall _ Hin).
Qed.

Lemma standalone_origin fuel api seen ms seen' m :
  extractStandaloneModels pascalCase fuel api seen = Ok (ms, seen') ->
  m ∈ ms ->
  usedInOperations m = None
  /\ exists name schema,
       (name, schema) ∈ schemaTable api
       /\ modelName m = pascalCase name +:+ "Data"
       /\ description m
          = Some (default (name +:+ " entity model") (truthy (s_description schema))).
Proof.
  unfold extractStandaloneModels. fold (schemaTable api). intros Hrun.
  change ms with (ms, seen').1. revert m. revert Hrun.
  apply (foldM_invariant
           (fun st => forall m, m ∈ st.1 ->
              usedInOperations m = None
              /\ exists name schema,
                   (name, schema) ∈ schemaTable api
                   /\ modelName m = pascalCase name +:+ "Data"
                   /\ description m
                      = Some (default (name +:+ " entity model")
                                      (truthy (s_description schema))))).
  - intros m H. inversion H.
  - intros [ms0 seen0] [name schema] st' Hin IH Hstep.
    case_bool_decide as Hseen; [injection Hstep as <-; exact IH|].
    ok_inv Hstep. destruct a as [props req]. injection Hstep as <-.
    intros m Hm. apply elem_of_app in Hm as [Hm|Hm]; [apply IH, Hm|].
    apply list_elem_of_singleton in Hm as ->. split; [reflexivity|].
    exists name, schema. auto.
Qed.

Lemma operation_models_name_operations fuel api st m :
  foldM (visitPath pascalCase camelCase fuel api) (api_paths api)
    {| apis := []; models := []; seenModels := ∅; apiIndex := 1 |} = Ok st ->
  m ∈ models st ->
  is_Some (usedInOperations m).
Proof.
  intros Hrun. revert m. revert st Hrun.
  apply (foldM_invariant (fun st => forall m, m ∈ models st -> is_Some (usedInOperations m))).
  - intros m H. inversion H.
  - intros st0 [path pathItem] st1 _ Hst0. unfold visitPath.
    apply (foldM_invariant
             (fun st => forall m, m ∈ models st -> is_Some (usedInOperations m)));
      [exact Hst0|].
    intros st2 [method operation] st3 _ Hst2 Hstep. unfold visitOperation in Hstep.
    destruct (negb (isValidHttpMethod method)); [injection Hstep as <-; exact Hst2|].
    apply bind_Ok in Hstep as ([new seen] & Hnew & Hstep). injection Hstep as <-.
    intros m Hm. simpl in Hm. apply elem_of_app in Hm as [Hm|Hm]; [apply Hst2, Hm|].
    rewrite (extractModelsFromOperation_used _ _ _ _ _ _ _ _ Hnew Hm). eexists. reflexivity.
Qed.

(** X7.  Every schema of the schema table ([components.schemas], or else
    [definitions]) is represented in the result: the returned models contain
    one named [PascalCase(name) + Data], emitted for the schema itself or
    earlier under the same name. *)
Theorem component_schemas_covered fuel api docs ms name schema :
  extractDocumentationData pascalCase camelCase fuel api = Ok (docs, ms) ->
  (name, schema) ∈ schemaTable api ->
  pascalCase name +:+ "Data" ∈ modelName <$> ms.
Proof.
  unfold extractDocumentationData. intros H Hin. ok_inv H. rename a into st.
  apply bind_Ok in H as ([standalone seen] & Hstandalone & H). injection H as _ <-.
  rewrite names_withSNo, fmap_app, elem_of_app.
  pose proof (standalone_covers _ _ _ _ _ _ _ Hstandalone Hin) as Hseen.
  apply (extractStandaloneModels_fresh pascalCase camelCase) in Hstandalone as (_ & _ & Hiff).
  simpl in Hiff. apply Hiff in Hseen as [Hseen|Hseen]; [left|right; exact Hseen].
  apply (traversal_seen_exact _ _ _ _ _ Hrun), Hseen.
Qed.

(** X8.  A returned model that names no operation is a standalone model: it
    is named [PascalCase(name) + Data] after an entry of the schema table,
    and described by the schema's description or, when that is missing or
    empty, by ["<name> entity model"]. *)
Theorem models_without_operation fuel api docs ms m :
  extractDocumentationData pascalCase camelCase fuel api = Ok (docs, ms) ->
  m ∈ ms ->
  usedInOperations m = None ->
  exists name schema,
    (name, schema) ∈ schemaTable api
    /\ modelName m = pascalCase name +:+ "Data"
    /\ description m
       = Some (default (name +:+ " entity model") (truthy (s_description schema))).
Proof.
  unfold extractDocumentationData. intros H Hm Hnone. ok_inv H. rename a into st.
  apply bind_Ok in H as ([standalone seen] & Hstandalone & H). injection H as _ <-.
  apply list_elem_of_lookup in Hm as [i Hi]. rewrite list_lookup_imap in Hi.
  destruct (_ !! i) as [m0|] eqn:Hm0; [|discriminate]. injection Hi as <-.
  simpl in *. apply lookup_app_Some in Hm0 as [Hm0|[_ Hm0]].
  - exfalso. destruct (operation_models_name_operations _ _ _ m0 Hrun) as [id Hid];
      [apply list_elem_of_lookup; eauto | congruence].
  - apply (standalone_origin _ _ _ _ _ m0 Hstandalone). apply list_elem_of_lookup. eauto.
Qed.

End Standalone.

Lemma component_schemas_covered_witness :
  exists docs ms,
    synthesize 4 clashSpec = Ok (docs, ms)
    /\ ChangeCase.pascalCase "pet_out" +:+ "Data" ∈ modelName <$> ms.
Proof.
  eexists _, _. split; [vm_compute; reflexivity|].
  eapply (component_schemas_covered ChangeCase.pascalCase ChangeCase.camelCase 4 clashSpec
            _ _ "pet_out" emptySchema).
  - vm_compute. reflexivity.
  - right. left.
Defined.

Lemma models_without_operation_witness :
  exists docs ms m,
    synthesize 4 clashSpec = Ok (docs, ms)
    /\ ms !! 4%nat = Some m
    /\ exists name schema,
         (name, schema) ∈ schemaTable clashSpec
         /\ modelName m = ChangeCase.pascalCase name +:+ "Data"
         /\ description m
            = Some (default (name +:+ " entity model") (truthy (s_description schema))).
Proof.
  eexists _, _, _. split; [vm_compute; reflexivity|]. split; [reflexivity|].
  eapply (models_without_operation ChangeCase.pascalCase ChangeCase.camelCase 4 clashSpec).
  - vm_compute. reflexivity.
  - do 4 right. left.
  - reflexivity.
Defined.

(** ** Request and response references *)

Section BodyRefs.

Variables pascalCase camelCase : string -> string.

(** A name that every visit of an operation leaves in the seen set is the
    name of a returned model. *)
Lemma operation_names_returned fuel api docs ms (Q : SwaggerOperation -> string -> Prop) :
  (forall operation seen new seen' x,
     extractModelsFromOperation pascalCase fuel operation api seen = Ok (new, seen') ->
     Q operation x -> x ∈ seen') ->
  extractDocumentationData pascalCase camelCase fuel api = Ok (docs, ms) ->
  forall path method operation x,
    (path, method, operation) ∈ operationsOf api ->
    Q operation x ->
    x ∈ modelName <$> ms.
Proof.
  intros HQ Hrun path method operation x Hin Hx.
  pose proof Hrun as Hrun'. unfold extractDocumentationData in Hrun'.
  apply bind_Ok in Hrun' as (st & Hloop & _).
  eapply seen_names_returned; [exact Hloop | exact Hrun |].
  pose proof (traversal_trace pascalCase camelCase fuel api
                (fun tr st =>
                   seen_exact st
                   /\ forall path method operation x,
                        (path, method, operation) ∈ tr ->
                        Q operation x -> x ∈ seenModels st)) as Htrace.
  cbv beta in Htrace.
  destruct (Htrace) with (st0 := {| apis := []; models := []; seenModels := ∅; apiIndex := 1 |})
                         (st := st) as [_ Hall]; [| |exact Hloop|].
  - clear - HQ. intros path st entry st' tr [Hexact Hprev] Hvisit.
    destruct (visitOperation_seen _ _ _ _ _ _ _ _ Hexact Hvisit) as [Hexact' Hmono].
    split; [exact Hexact'|].
    intros path' method' operation' x Hin Hx. apply elem_of_app in Hin as [Hin|Hin].
    { apply Hmono, (Hprev _ _ _ _ Hin Hx). }
    destruct entry as [method operation]. unfold visitedOf in Hin. simpl in Hin.
    unfold visitOperation in Hvisit.
    destruct (isValidHttpMethod method); [|inversion Hin].
    rewrite app_nil_r in Hin. apply list_elem_of_singleton in Hin. injection Hin as -> -> ->.
    simpl in Hvisit. apply bind_Ok in Hvisit as ([new seen] & Hnew & Hvisit).
    injection Hvisit as <-. simpl.
    exact (HQ _ _ _ _ _ Hnew Hx).
  - split; [|intros p m o y H; inversion H].
    intros y. simpl. split; [intros H; destruct (not_elem_of_empty _ H) | intros H; inversion H].
  - exact (Hall _ _ _ _ Hin Hx).
Qed.

Lemma seen_pushes_new new st m :
  m ∈ new -> modelName m ∈ (fold_left (fun st model => pushUnseen model st) new st).2.
Proof.
  revert st. induction new as [|model new IH]; intros st H; simpl; [inversion H|].
  apply elem_of_cons in H as [->|H]; [|apply IH, H].
  apply seen_pushes_keep, seen_pushUnseen. right. reflexivity.
Qed.

Lemma request_name_seen fuel operation api seen ms seen' operationId requestBody :
  extractModelsFromOperation pascalCase fuel operation api seen = Ok (ms, seen') ->
  truthy (op_operationId operation) = Some operationId ->
  op_requestBody operation = Some requestBody ->
  is_Some (jsonSchema (Some (rb_content requestBody))) ->
  pascalCase operationId +:+ "InData" ∈ seen'.
Proof.
  unfold extractModelsFromOperation. intros H Hid Hbody [declared Hjson].
  rewrite Hbody in H.
  apply bind_Ok in H as (st1 & Hst1 & H).
  apply bind_Ok in H as (responseModels & _ & H). injection H as H.
  assert (Hseen : seen' = (fold_left (fun st model => pushUnseen model st) responseModels st1).2)
    by (rewrite H; reflexivity).
  rewrite Hseen. apply seen_pushes_keep.
  apply bind_Ok in Hst1 as (requestModel & Hmodel & Hst1).
  pose proof (createRequestBodyModel_Some _ _ _ _ _ Hmodel) as Hshape.
  destruct requestModel as [model|].
  - destruct Hshape as (id' & rb' & Hid' & _ & _ & Hname).
    injection Hst1 as <-. apply seen_pushUnseen. right. congruence.
  - exfalso. destruct Hshape as [Hnone|[Hnone|(rb' & Hrb' & Hnone)]]; congruence.
Qed.

Lemma createResponseModels_outData fuel operation api ms operationId status response :
  createResponseModels pascalCase fuel operation api = Ok ms ->
  truthy (op_operationId operation) = Some operationId ->
  (status, response) ∈ op_responses operation ->
  Str.startsWith status "2" = true ->
  is_Some (jsonSchema (r_content response)) ->
  pascalCase operationId +:+ "OutData" ∈ modelName <$> ms.
Proof.
  unfold createResponseModels. intros H Hid Hin Hstatus [declared Hjson]. rewrite Hid in H.
  assert (Hfiltered : (status, response)
                        ∈ List.filter (fun '(status, _) => Str.startsWith status "2")
                            (op_responses operation)).
  { apply list_elem_of_In, filter_In. split; [apply list_elem_of_In, Hin | exact Hstatus]. }
  revert H Hfiltered. generalize (List.filter (fun '(status, _) => Str.startsWith status "2")
                                    (op_responses operation)).
  intros l H Hl.
  set (R := fun (tr : list (string * SwaggerResponse)) (models : list ModelDocumentation) =>
              forall e, e ∈ tr -> is_Some (jsonSchema (r_content e.2)) ->
                        pascalCase operationId +:+ "OutData" ∈ modelName <$> models).
  assert (Hall : R ([] ++ flat_map (fun e => [e]) l) ms).
  { revert H. apply (foldM_trace R (fun e => [e])).
    - clear. intros models [status response] models' tr Hprev Hstep e He Hsome.
      assert (Hgrow : exists new, models' = models ++ new
                                  /\ (is_Some (jsonSchema (r_content response)) ->
                                      pascalCase operationId +:+ "OutData" ∈ modelName <$> new)).
      { destruct (jsonSchema (r_content response)) as [declared|].
        - apply bind_Ok in Hstep as (schema & _ & Hstep).
          apply bind_Ok in Hstep as ([props req] & _ & Hstep).
          destruct (isPaginatedSchema (Some schema)).
          + apply bind_Ok in Hstep as (recordSchema & _ & Hstep).
            destruct recordSchema as [recordSchema|].
            * apply bind_Ok in Hstep as ([recordProps recordReq] & _ & Hstep).
              injection Hstep as <-. eexists. split; [reflexivity|]. intros _. left.
            * injection Hstep as <-. eexists. split; [reflexivity|]. intros _. left.
          + injection Hstep as <-. eexists. split; [reflexivity|]. intros _. left.
        - injection Hstep as <-. exists []. rewrite app_nil_r. split; [reflexivity|].
          intros [? ?]; discriminate. }
      destruct Hgrow as (new & -> & Hnew). rewrite fmap_app, elem_of_app.
      apply elem_of_app in He as [He|He]; [left; exact (Hprev _ He Hsome)|].
      apply list_elem_of_singleton in He as ->. right. exact (Hnew Hsome).
    - intros e He. inversion He. }
  rewrite flat_map_singleton in Hall. apply (Hall (status, response) Hl). eexists. exact Hjson.
Qed.

Lemma response_name_seen fuel operation api seen ms seen' operationId status response :
  extractModelsFromOperation pascalCase fuel operation api seen = Ok (ms, seen') ->
  truthy (op_operationId operation) = Some operationId ->
  (status, response) ∈ op_responses operation ->
  Str.startsWith status "2" = true ->
  is_Some (jsonSchema (r_content response)) ->
  pascalCase operationId +:+ "OutData" ∈ seen'.
Proof.
  unfold extractModelsFromOperation. intros H Hid Hin Hstatus Hjson.
  apply bind_Ok in H as (st1 & _ & H).
  apply bind_Ok in H as (responseModels & Hmodels & H). injection H as H.
  assert (Hseen : seen' = (fold_left (fun st model => pushUnseen model st) responseModels st1).2)
    by (rewrite H; reflexivity).
  rewrite Hseen.
  pose proof (createResponseModels_outData _ _ _ _ _ _ _ Hmodels Hid Hin Hstatus Hjson) as Hout.
  apply list_elem_of_fmap in Hout as (m & -> & Hm). apply seen_pushes_new, Hm.
Qed.

(** X9.  Request-body references of operations that declare an operationId
    and an [application/json] request body entry that carries a schema never
    dangle: the [requestBodyRef] of the operation's API record is the name
    of a returned model. *)
Theorem requestBodyRef_resolves
    fuel api docs ms path method operation sNo requestBody jsonContent schema ref :
  extractDocumentationData pascalCase camelCase fuel api = Ok (docs, ms) ->
  (path, method, operation) ∈ operationsOf api ->
  is_Some (truthy (op_operationId operation)) ->
  op_requestBody operation = Some requestBody ->
  Obj.get "application/json" (rb_content requestBody) = Some jsonContent ->
  mt_schema jsonContent = Some schema ->
  requestBodyRef (createApiDocumentation pascalCase camelCase sNo path method operation api)
  = Some ref ->
  ref ∈ modelName <$> ms.
Proof.
  intros Hrun Hin [operationId Hid] Hbody Hjson Hschema Href.
  simpl in Href. rewrite Hid, Hbody in Href. simpl in Href. injection Href as <-.
  assert (Hdeclared : is_Some (jsonSchema (Some (rb_content requestBody)))).
  { exists schema. unfold jsonSchema. rewrite Hjson. exact Hschema. }
  apply (operation_names_returned fuel api docs ms
           (fun operation x =>
              exists operationId requestBody,
                truthy (op_operationId operation) = Some operationId
                /\ op_requestBody operation = Some requestBody
                /\ is_Some (jsonSchema (Some (rb_content requestBody)))
                /\ x = pascalCase operationId +:+ "InData"))
    with (path := path) (method := method) (operation := operation);
    [|exact Hrun|exact Hin|eauto 10].
  intros operation' seen new seen' x Hnew (id' & rb' & Hid' & Hrb' & Hjson' & ->).
  exact (request_name_seen _ _ _ _ _ _ _ _ Hnew Hid' Hrb' Hjson').
Qed.

(** X10.  Response references of operations that declare an operationId and
    a response with a status starting with 2 whose content has an
    [application/json] entry that carries a schema never dangle: the API
    record carries the reference [PascalCase(operationId) + OutData], and a
    returned model has that name. *)
Theorem responseBodyRef_resolves
    fuel api docs ms path method operation sNo operationId status response
    content jsonContent schema :
  extractDocumentationData pascalCase camelCase fuel api = Ok (docs, ms) ->
  (path, method, operation) ∈ operationsOf api ->
  truthy (op_operationId operation) = Some operationId ->
  (status, response) ∈ op_responses operation ->
  Str.startsWith status "2" = true ->
  r_content response = Some content ->
  Obj.get "application/json" content = Some jsonContent ->
  mt_schema jsonContent = Some schema ->
  responseBodyRef (createApiDocumentation pascalCase camelCase sNo path method operation api)
  = Some (pascalCase operationId +:+ "OutData")
  /\ pascalCase operationId +:+ "OutData" ∈ modelName <$> ms.
Proof.
  intros Hrun Hin Hid Hresponse Hstatus Hcontent Hget Hschema.
  assert (Hjson : is_Some (jsonSchema (r_content response))).
  { exists schema. rewrite Hcontent. apply jsonSchema_Some. eauto. }
  split.
  - simpl. rewrite Hid. simpl.
    assert (Hbody : hasResponseBody operation = true).
    { unfold hasResponseBody. apply existsb_exists. exists response. split.
      - apply list_elem_of_In. unfold Obj.values. apply list_elem_of_fmap.
        exists (status, response). auto.
      - apply bool_decide_eq_true. unfold responseSchema.
        destruct Hjson as [declared ->]. eexists. reflexivity. }
    rewrite Hbody. reflexivity.
  - apply (operation_names_returned fuel api docs ms
             (fun operation x =>
                exists operationId status response,
                  truthy (op_operationId operation) = Some operationId
                  /\ (status, response) ∈ op_responses operation
                  /\ Str.startsWith status "2" = true
                  /\ is_Some (jsonSchema (r_content response))
                  /\ x = pascalCase operationId +:+ "OutData"))
      with (path := path) (method := method) (operation := operation);
      [|exact Hrun|exact Hin|eauto 10].
    intros operation' seen new seen' x Hnew (id' & st' & r' & Hid' & Hin' & Hst' & Hjson' & ->).
    exact (response_name_seen _ _ _ _ _ _ _ _ _ Hnew Hid' Hin' Hst' Hjson').
Qed.

End BodyRefs.

Lemma requestBodyRef_resolves_witness :
  exists docs ms,
    synthesize 4 clashSpec = Ok (docs, ms)
    /\ "PetInData" ∈ modelName <$> ms.
Proof.
  eexists _, _. split; [vm_compute; reflexivity|].
  eapply (requestBodyRef_resolves ChangeCase.pascalCase ChangeCase.camelCase 4 clashSpec
            _ _ "/pets" "post"
            (mkOperation (Some "pet") None None None None
               (Some (mkRequestBody (jsonBody (refTo "#/components/schemas/Pet"))))
               [okResponse petSchema; ("201", mkResponse (Some (jsonBody petSchema)) None)]
               None)
            2%Z (mkRequestBody (jsonBody (refTo "#/components/schemas/Pet")))
            (mkMediaType (Some (refTo "#/components/schemas/Pet")))
            (refTo "#/components/schemas/Pet") "PetInData").
  - vm_compute. reflexivity.
  - right. left.
  - eexists. reflexivity.
  - reflexivity.
  - reflexivity.
  - reflexivity.
  - reflexivity.
Defined.

Lemma responseBodyRef_resolves_witness :
  exists docs ms,
    synthesize 4 clashSpec = Ok (docs, ms)
    /\ (docs !! 1%nat) ≫= responseBodyRef = Some "PetOutData"
    /\ "PetOutData" ∈ modelName <$> ms.
Proof.
  eexists _, _. split; [vm_compute; reflexivity|]. split; [reflexivity|].
  eapply (responseBodyRef_resolves ChangeCase.pascalCase ChangeCase.camelCase 4 clashSpec
            _ _ "/pets" "post"
            (mkOperation (Some "pet") None None None None
               (Some (mkRequestBody (jsonBody (refTo "#/components/schemas/Pet"))))
               [okResponse petSchema; ("201", mkResponse (Some (jsonBody petSchema)) None)]
               None)
            2%Z "pet" "201" (mkResponse (Some (jsonBody petSchema)) None)
            (jsonBody petSchema) (mkMediaType (Some petSchema)) petSchema).
  - vm_compute. reflexivity.
  - right. left.
  - reflexivity.
  - right. left.
  - reflexivity.
  - reflexivity.
  - reflexivity.
  - reflexivity.
Defined.

(** ** Path parameters *)

Lemma pathParams_keys (f : list (string * JSON) -> string -> list (string * JSON))
    (ms : list string) (acc : list (string * JSON)) :
  (forall acc m name, name ∈ Obj.keys (f acc m)
                      <-> name = Str.slice_1_m1 m \/ name ∈ Obj.keys acc) ->
  (forall acc m, NoDup (Obj.keys acc) -> NoDup (Obj.keys (f acc m))) ->
  (NoDup (Obj.keys acc) -> NoDup (Obj.keys (fold_left f ms acc)))
  /\ forall name, name ∈ Obj.keys (fold_left f ms acc)
                  <-> name ∈ Obj.keys acc \/ name ∈ Str.slice_1_m1 <$> ms.
Proof.
  intros Hkeys Hnodup. revert acc. induction ms as [|m ms IH]; intros acc; simpl.
  - split; [auto|]. intros name. rewrite elem_of_nil. tauto.
  - destruct (IH (f acc m)) as [IHnodup IHkeys]. split; [auto|].
    intros name. rewrite IHkeys, Hkeys, elem_of_cons. tauto.
Qed.

Lemma matchBraces_nonempty path ms : Str.matchBraces path = Some ms -> ms <> [].
Proof.
  unfold Str.matchBraces. destruct (Str.braceMatchesFrom _ _); [discriminate|].
  intros H. injection H as <-. discriminate.
Qed.

(** X11.  For a path without a [{name}] segment there is no path-parameter
    map; for a path with such segments, none of them named [__proto__] (a
    name that an assignment does not add as a key), there is one, and its
    keys are the names between the braces, each once, whatever the operation
    declares. *)
Theorem path_parameters_cover path operation api :
  match Str.matchBraces path with
  | None => extractPathParameters path operation api = None
  | Some pathParamMatches =>
      "__proto__" ∉ Str.slice_1_m1 <$> pathParamMatches ->
      exists pathParams,
        extractPathParameters path operation api = Some pathParams
        /\ NoDup (Obj.keys pathParams)
        /\ forall name,
             name ∈ Obj.keys pathParams <-> name ∈ Str.slice_1_m1 <$> pathParamMatches
  end.
Proof.
  unfold extractPathParameters.
  destruct (Str.matchBraces path) as [ms|] eqn:Hms; [|reflexivity]. intros _.
  match goal with
  | |- context [fold_left ?f ms []] =>
      destruct (pathParams_keys f ms []) as [Hnodup Hkeys]
  end.
  - intros acc m name.
    destruct (match op_parameters operation with
              | Some ps => List.find _ ps
              | None => None
              end); rewrite elem_of_keys_set; reflexivity.
  - intros acc m Hacc.
    destruct (match op_parameters operation with
              | Some ps => List.find _ ps
              | None => None
              end); apply keys_set_NoDup, Hacc.
  - eexists. split; [|split; [apply Hnodup; constructor|]].
    + match goal with |- (if ?b then _ else _) = _ => replace b with true; [reflexivity|] end.
      symmetry. apply Nat.ltb_lt.
      apply matchBraces_nonempty in Hms. destruct ms as [|m ms]; [congruence|].
      match goal with
      | |- (0 < length ?l)%nat =>
          assert (Hin : Str.slice_1_m1 m ∈ l)
            by (apply Hkeys; right; left);
          destruct l; [inversion Hin | simpl; lia]
      end.
    + intros name. rewrite Hkeys. unfold Obj.keys. simpl. rewrite elem_of_nil. tauto.
Qed.

Lemma path_parameters_cover_witness :
  exists pathParams,
    extractPathParameters "/items/{id}" (getItem None) itemsSpec = Some pathParams
    /\ NoDup (Obj.keys pathParams)
    /\ forall name, name ∈ Obj.keys pathParams <-> name ∈ ["id"].
Proof.
  refine (path_parameters_cover "/items/{id}" (getItem None) itemsSpec _).
  apply not_elem_of_cons. split; [discriminate | apply not_elem_of_nil].
Defined.

(** ** Reference lookup *)

Lemma split_slashFree name : slashFree name = true -> Str.split "/" name = [name].
Proof.
  unfold slashFree. induction name as [|c name IH]; simpl; [reflexivity|].
  intros H. apply andb_true_iff in H as [Hc H]. apply negb_true_iff in Hc.
  rewrite Hc, (IH H). reflexivity.
Qed.

Lemma refPath_into_components name :
  refPath ("#/components/schemas/" +:+ name)
  = "components" :: "schemas" :: Str.split "/" name.
Proof.
  unfold refPath.
  change (Str.replaceFirst "#/" "" ("#/components/schemas/" +:+ name))
    with ("components/schemas/" +:+ name).
  change ("components/schemas/" +:+ name)
    with (String "c" (String "o" (String "m" (String "p" (String "o" (String "n"
           (String "e" (String "n" (String "t" (String "s" (String "/"
           (String "s" (String "c" (String "h" (String "e" (String "m" (String "a"
           (String "s" (String "/" name))))))))))))))))))).
  simpl. destruct (Str.split "/" name); reflexivity.
Qed.

Lemma refPath_into_definitions name :
  refPath ("#/definitions/" +:+ name) = "definitions" :: Str.split "/" name.
Proof.
  unfold refPath.
  change (Str.replaceFirst "#/" "" ("#/definitions/" +:+ name))
    with ("definitions/" +:+ name).
  change ("definitions/" +:+ name)
    with (String "d" (String "e" (String "f" (String "i" (String "n" (String "i"
           (String "t" (String "i" (String "o" (String "n" (String "s"
           (String "/" name)))))))))))).
  simpl. destruct (Str.split "/" name); reflexivity.
Qed.

Lemma truthy_components name :
  truthy (Some ("#/components/schemas/" +:+ name)) = Some ("#/components/schemas/" +:+ name).
Proof. reflexivity. Qed.

Lemma truthy_definitions name :
  truthy (Some ("#/definitions/" +:+ name)) = Some ("#/definitions/" +:+ name).
Proof. reflexivity. Qed.

(** X12.  A reference into a schema table finds the entry of that name: with
    [$ref] equal to [#/components/schemas/<name>] (or [#/definitions/<name>]),
    where the name has no slash and the table has an entry for it, resolution
    returns that entry as it stands in the table, not resolved any further. *)
Theorem resolveSchema_table_entry schema api prefix table name target :
  (prefix = "#/components/schemas/" /\ api_components api ≫= c_schemas = Some table)
  \/ (prefix = "#/definitions/" /\ api_definitions api = Some table) ->
  s_ref schema = Some (prefix +:+ name) ->
  slashFree name = true ->
  Obj.get name table = Some target ->
  resolveSchema schema api = Ok target.
Proof.
  intros Hprefix Href Hname Hget. unfold resolveSchema. rewrite Href.
  destruct Hprefix as [[-> Htable]|[-> Htable]].
  - rewrite truthy_components, refPath_into_components, (split_slashFree _ Hname). simpl.
    destruct (api_components api) as [c|]; [|discriminate]. simpl in Htable.
    simpl. rewrite Htable. simpl. rewrite Hget. reflexivity.
  - rewrite truthy_definitions, refPath_into_definitions, (split_slashFree _ Hname). simpl.
    rewrite Htable. simpl. rewrite Hget. reflexivity.
Qed.

Lemma resolveSchema_table_entry_witness :
  resolveSchema (refTo "#/components/schemas/Pet") clashSpec = Ok petSchema.
Proof.
  apply (resolveSchema_table_entry _ clashSpec "#/components/schemas/"
           [("Pet", petSchema); ("pet_out", emptySchema)] "Pet" petSchema).
  - left. split; reflexivity.
  - reflexivity.
  - reflexivity.
  - reflexivity.
Defined.

(** ** Property descriptors *)

Lemma mapSwaggerTypeToTypeScript_range type format :
  mapSwaggerTypeToTypeScript type format ∈ typeNames.
Proof.
  unfold mapSwaggerTypeToTypeScript, typeNames.
  repeat case_match; set_solver.
Qed.

Lemma convertSchemaToProperty_typed fuel schema api j :
  convertSchemaToProperty fuel schema api = Ok j -> typedProperty j.
Proof.
  destruct fuel as [|n]; [discriminate|]. rewrite convertSchemaToProperty_unfold.
  intros H. apply bind_Ok in H as (resolved & _ & H).
  destruct (typeIs resolved "array").
  - apply bind_Ok in H as (items & _ & H). injection H as <-.
    eexists _, _. split; [reflexivity|]. split; [reflexivity|]. set_solver.
  - destruct (typeIs resolved "object").
    + apply bind_Ok in H as ([subProperties subRequired] & _ & H). injection H as <-.
      eexists _, _. split; [reflexivity|]. split; [reflexivity|]. set_solver.
    + injection H as <-.
      eexists _, _. split; [reflexivity|]. split; [reflexivity|].
      exact (mapSwaggerTypeToTypeScript_range
               (Some (default "any" (truthy (s_type resolved)))) (s_format resolved)).
Qed.

Lemma elem_of_set {V : Type} k (v : V) o kv :
  kv ∈ Obj.set k v o -> kv = (k, v) \/ kv ∈ o.
Proof.
  induction o as [|[k' v'] o IH]; simpl.
  - intros H. apply list_elem_of_singleton in H. auto.
  - destruct (String.eqb k' k).
    + rewrite !elem_of_cons. tauto.
    + rewrite !elem_of_cons. intros [H|H]; [auto|]. destruct (IH H); auto.
Qed.

Lemma elem_of_assign {V : Type} (o source : list (string * V)) kv :
  kv ∈ Obj.assign o source -> kv ∈ o \/ kv ∈ source.
Proof.
  unfold Obj.assign. revert o. induction source as [|[k v] source IH]; intros o; simpl; [auto|].
  intros H. apply IH in H as [H|H]; [|right; right; exact H].
  apply elem_of_set in H as [->|H]; [right; left | left; exact H].
Qed.

(** X13.  Every entry of an extracted property map is a typed descriptor: a
    JSON object with a [type] field holding one of number, boolean, Date,
    string, array, object, any. *)
Theorem extracted_properties_typed fuel schema api props req name j :
  extractSchemaProperties fuel schema api = Ok (props, req) ->
  (name, j) ∈ props ->
  typedProperty j.
Proof.
  revert schema props req name j. induction fuel as [|n IH]; [discriminate|].
  intros schema props req name j. rewrite extractSchemaProperties_unfold.
  intros H. apply bind_Ok in H as (properties0 & Hown & H).
  apply bind_Ok in H as ([properties required] & Hmerge & H). injection H as <- _.
  assert (Hown' : forall kv, kv ∈ properties0 -> typedProperty kv.2).
  { unfold ownProperties in Hown. destruct (s_properties schema) as [own|].
    - revert Hown.
      apply (foldM_invariant (fun acc : list (string * JSON) =>
                                forall kv, kv ∈ acc -> typedProperty kv.2));
        [intros kv Hkv; inversion Hkv|].
      intros acc [propName propSchema] acc' _ Hacc Hstep.
      apply bind_Ok in Hstep as (prop & Hprop & Hstep). injection Hstep as <-.
      intros kv Hkv. apply elem_of_set in Hkv as [->|Hkv]; [|exact (Hacc _ Hkv)].
      exact (convertSchemaToProperty_typed _ _ _ _ Hprop).
    - injection Hown as <-. intros kv Hkv. inversion Hkv. }
  intros Hin. change j with (name, j).2.
  revert Hin. generalize (name, j). change properties with (properties, required).1.
  destruct (s_allOf schema) as [subSchemas|].
  - revert Hmerge.
    apply (foldM_invariant (fun st : list (string * JSON) * list string =>
                              forall kv, kv ∈ st.1 -> typedProperty kv.2));
      [exact Hown'|].
    intros [acc accRequired] subSchema st' _ Hacc Hstep. unfold mergeEntry in Hstep.
    apply bind_Ok in Hstep as (resolved & _ & Hstep).
    apply bind_Ok in Hstep as ([subProperties subRequired] & Hsub & Hstep).
    injection Hstep as <-. simpl. intros [k v] Hkv.
    apply elem_of_assign in Hkv as [Hkv|Hkv]; [exact (Hacc _ Hkv)|].
    exact (IH _ _ _ _ _ Hsub Hkv).
  - injection Hmerge as <- _. exact Hown'.
Qed.

Lemma extracted_properties_typed_witness :
  exists props req,
    extractSchemaProperties 3 schemaAB abSpec = Ok (props, req)
    /\ typedProperty (JObj [("type", JStr "string")]).
Proof.
  eexists _, _. split; [vm_compute; reflexivity|].
  eapply (extracted_properties_typed 3 schemaAB abSpec _ _ "id").
  - vm_compute. reflexivity.
  - left.
Defined.

(** ** Recursion through schemas *)

Lemma foldM_elem_Ok {A B : Type} (f : B -> A -> res B) (l : list A) (b r : B) x :
  foldM f l b = Ok r -> x ∈ l -> exists b0 b1, f b0 x = Ok b1.
Proof.
  revert b. induction l as [|y l IH]; intros b Hrun Hin; [inversion Hin|].
  simpl in Hrun. apply bind_Ok in Hrun as (b' & Hstep & Hrun).
  apply elem_of_cons in Hin as [->|Hin]; [eauto | exact (IH _ Hrun Hin)].
Qed.

Lemma foldM_total {A B : Type} (f : B -> A -> res B) (l : list A) :
  (forall b x, x ∈ l -> exists b', f b x = Ok b') ->
  forall b, exists r, foldM f l b = Ok r.
Proof.
  induction l as [|x l IH]; intros Hstep b; simpl; [eauto|].
  destruct (Hstep b x) as [b' Hb']; [left|]. rewrite Hb'. simpl.
  apply IH. intros b0 y Hy. apply Hstep. right. exact Hy.
Qed.

Lemma returns_needs api n c c' :
  needs api c c' -> returns (S n) api c = true -> returns n api c' = true.
Proof.
  intros Hneeds. destruct Hneeds as [schema props name sub Hprops Hin
                                    |schema subs sub resolved HallOf Hin Hresolved
                                    |schema resolved items Hresolved Harray Hitems
                                    |schema resolved Hresolved Harray Hobject];
    unfold returns.
  - rewrite extractSchemaProperties_unfold.
    destruct (ownProperties n schema api) as [properties0|e] eqn:Hown; [|discriminate].
    intros _. unfold ownProperties in Hown. rewrite Hprops in Hown.
    destruct (foldM_elem_Ok _ _ _ _ _ Hown Hin) as (b0 & b1 & Hstep).
    apply bind_Ok in Hstep as (prop & -> & _). reflexivity.
  - rewrite extractSchemaProperties_unfold.
    destruct (ownProperties n schema api) as [properties0|e]; [|discriminate].
    cbn [mbind res_bind]. rewrite HallOf.
    destruct (foldM _ _ _) as [merged|e] eqn:Hmerge; [|discriminate].
    intros _. destruct (foldM_elem_Ok _ _ _ _ _ Hmerge Hin) as ([b0 q0] & b1 & Hstep).
    unfold mergeEntry in Hstep. rewrite Hresolved in Hstep. cbn [mbind res_bind] in Hstep.
    apply bind_Ok in Hstep as (sub' & -> & _). reflexivity.
  - rewrite convertSchemaToProperty_unfold, Hresolved. cbn [mbind res_bind].
    rewrite Harray, Hitems. destruct (convertSchemaToProperty n items api); [reflexivity|].
    discriminate.
  - rewrite convertSchemaToProperty_unfold, Hresolved. cbn [mbind res_bind].
    rewrite Harray, Hobject. destruct (extractSchemaProperties n resolved api); [reflexivity|].
    discriminate.
Qed.

(** X14.  Recursive schemas: in a set of calls of the extractor each of which
    makes a further call of the set (a schema that reaches itself through
    its properties, items, allOf and references), no call ever returns. *)
Theorem cyclic_calls_never_return api (cycle : Call -> Prop) :
  (forall c, cycle c -> exists c', needs api c c' /\ cycle c') ->
  forall fuel c, cycle c -> returns fuel api c = false.
Proof.
  intros Hcycle fuel. induction fuel as [|n IH]; intros c Hc.
  - destruct c; reflexivity.
  - destruct (Hcycle c Hc) as (c' & Hneeds & Hc').
    destruct (returns (S n) api c) eqn:Hreturns; [|reflexivity].
    pose proof (returns_needs _ _ _ _ Hneeds Hreturns) as H.
    rewrite (IH c' Hc') in H. discriminate.
Qed.

Lemma cyclic_calls_never_return_witness :
  returns 7 nodeSpec (Extract nodeSchema) = false.
Proof.
  apply (cyclic_calls_never_return nodeSpec
           (fun c => c = Extract nodeSchema
                     \/ c = Convert (refTo "#/components/schemas/Node"))).
  - intros c [-> | ->].
    + eexists. split; [|right; reflexivity].
      apply (needs_property nodeSpec nodeSchema _ "next" _ eq_refl). right. left.
    + eexists. split; [|left; reflexivity].
      apply (needs_object nodeSpec (refTo "#/components/schemas/Node") nodeSchema);
        reflexivity.
  - left. reflexivity.
Defined.

(** *** Schemas without references *)

Lemma list_max_elem {A : Type} (f : A -> nat) (l : list A) (x : A) :
  x ∈ l -> (f x <= list_max (List.map f l))%nat.
Proof.
  induction l as [|y l IH]; intros H; [inversion H|].
  apply elem_of_cons in H as [->|H]; simpl; [lia|]. specialize (IH H). lia.
Qed.

Lemma refFree_ref schema : refFree schema = true -> s_ref schema = None.
Proof.
  destruct schema as [? ? ? ? ? ? [ref|] ? ? ?]; simpl; [discriminate|reflexivity].
Qed.

Lemma refFree_resolve schema api : refFree schema = true -> resolveSchema schema api = Ok schema.
Proof. intros H. unfold resolveSchema. rewrite (refFree_ref _ H). reflexivity. Qed.

Lemma refFree_property schema props name sub :
  refFree schema = true -> s_properties schema = Some props -> (name, sub) ∈ props ->
  refFree sub = true /\ (depth sub < depth schema)%nat.
Proof.
  destruct schema as [? ? ps ? items allOf ref ? ? ?]. simpl. intros H -> Hin.
  rewrite !andb_true_iff in H. destruct H as [[[_ H] _] _]. split.
  - rewrite forallb_forall in H. apply (H (name, sub)), list_elem_of_In, Hin.
  - apply Nat.lt_succ_r. etransitivity; [|apply Nat.le_max_l].
    exact (list_max_elem (fun '(_, sub) => depth sub) _ (name, sub) Hin).
Qed.

Lemma refFree_items schema sub :
  refFree schema = true -> s_items schema = Some sub ->
  refFree sub = true /\ (depth sub < depth schema)%nat.
Proof.
  destruct schema as [? ? ps ? items allOf ref ? ? ?]. simpl. intros H ->.
  rewrite !andb_true_iff in H. destruct H as [[_ H] _]. split; [exact H | lia].
Qed.

Lemma refFree_allOf schema subs sub :
  refFree schema = true -> s_allOf schema = Some subs -> sub ∈ subs ->
  refFree sub = true /\ (depth sub < depth schema)%nat.
Proof.
  destruct schema as [? ? ps ? items allOf ref ? ? ?]. simpl. intros H -> Hin.
  rewrite !andb_true_iff in H. destruct H as [_ H]. split.
  - rewrite forallb_forall in H. apply H, list_elem_of_In, Hin.
  - apply Nat.lt_succ_r. etransitivity; [|apply Nat.le_max_r].
    etransitivity; [|apply Nat.le_max_r].
    exact (list_max_elem depth _ sub Hin).
Qed.

Lemma refFree_returns api d :
  forall schema,
    (depth schema <= d)%nat -> refFree schema = true ->
    (forall fuel, (2 * d <= S fuel)%nat ->
                  exists r, extractSchemaProperties fuel schema api = Ok r)
    /\ (forall fuel, (2 * d <= fuel)%nat ->
                     exists j, convertSchemaToProperty fuel schema api = Ok j).
Proof.
  induction d as [|d IH]; intros schema Hdepth Hfree.
  { destruct schema; simpl in Hdepth; lia. }
  assert (Hextract : forall fuel, (2 * S d <= S fuel)%nat ->
                                  exists r, extractSchemaProperties fuel schema api = Ok r).
  { intros [|n] Hfuel; [lia|]. rewrite extractSchemaProperties_unfold.
    assert (Hown : exists properties0, ownProperties n schema api = Ok properties0).
    { unfold ownProperties. destruct (s_properties schema) as [props|] eqn:Hprops; [|eauto].
      apply foldM_total. intros acc [name sub] Hin.
      destruct (refFree_property _ _ _ _ Hfree Hprops Hin) as [Hsub Hlt].
      destruct (IH sub ltac:(lia) Hsub) as [_ Hconvert].
      destruct (Hconvert n ltac:(lia)) as [j ->]. eauto. }
    destruct Hown as [properties0 ->]. cbn [mbind res_bind].
    assert (Hmerge : exists merged,
               match s_allOf schema with
               | Some subSchemas =>
                   foldM (mergeEntry n api) subSchemas
                     (properties0, default [] (s_required schema))
               | None => Ok (properties0, default [] (s_required schema))
               end = Ok merged).
    { destruct (s_allOf schema) as [subs|] eqn:HallOf; [|eauto].
      apply foldM_total. intros [acc accRequired] sub Hin.
      destruct (refFree_allOf _ _ _ Hfree HallOf Hin) as [Hsub Hlt].
      destruct (IH sub ltac:(lia) Hsub) as [Hsubextract _].
      destruct (Hsubextract n ltac:(lia)) as [[subProperties subRequired] Hr].
      unfold mergeEntry. rewrite (refFree_resolve _ _ Hsub). cbn [mbind res_bind].
      rewrite Hr. eauto. }
    destruct Hmerge as [[properties required] ->]. eauto. }
  split; [exact Hextract|].
  intros [|n] Hfuel; [lia|]. rewrite convertSchemaToProperty_unfold.
  rewrite (refFree_resolve _ _ Hfree). cbn [mbind res_bind].
  destruct (typeIs schema "array").
  - destruct (s_items schema) as [items|] eqn:Hitems; [|eauto].
    destruct (refFree_items _ _ Hfree Hitems) as [Hsub Hlt].
    destruct (IH items ltac:(lia) Hsub) as [_ Hconvert].
    destruct (Hconvert n ltac:(lia)) as [j ->]. eauto.
  - destruct (typeIs schema "object"); [|eauto].
    destruct (Hextract n ltac:(lia)) as [[subProperties subRequired] ->]. eauto.
Qed.

Lemma extractSchemaProperties_fuel_le n n' schema api r :
  (n <= n')%nat ->
  extractSchemaProperties n schema api = Ok r ->
  extractSchemaProperties n' schema api = Ok r.
Proof.
  intros Hle H. induction Hle as [|m _ IH]; [exact H|].
  apply extractSchemaProperties_fuel, IH.
Qed.

(** X15.  Extraction ends on schemas without references: for a schema with
    no [$ref] in it, however deeply nested, property extraction returns a
    result, the same for every sufficient bound on the depth of the calls. *)
Theorem reference_free_schema_extracts schema api :
  refFree schema = true ->
  exists fuel r,
    forall fuel', (fuel <= fuel')%nat -> extractSchemaProperties fuel' schema api = Ok r.
Proof.
  intros Hfree.
  destruct (refFree_returns api (depth schema) schema (le_n _) Hfree) as [Hextract _].
  destruct (Hextract (2 * depth schema)%nat ltac:(lia)) as [r Hr].
  exists (2 * depth schema)%nat, r. intros fuel' Hle.
  exact (extractSchemaProperties_fuel_le _ _ _ _ _ Hle Hr).
Qed.

Lemma reference_free_schema_extracts_witness :
  exists fuel r,
    forall fuel', (fuel <= fuel')%nat -> extractSchemaProperties fuel' petSchema clashSpec = Ok r.
Proof. apply (reference_free_schema_extracts petSchema clashSpec). reflexivity. Defined.

(** *** Documents without references *)

Lemma foldM_eventually {A B : Type} (f : nat -> B -> A -> res B) (l : list A) :
  (forall x, x ∈ l -> exists n, forall m b, (n <= m)%nat -> exists b', f m b x = Ok b') ->
  exists n, forall m b, (n <= m)%nat -> exists r, foldM (f m) l b = Ok r.
Proof.
  induction l as [|x l IH]; intros Hstep.
  - exists 0%nat. intros m b _. simpl. eauto.
  - destruct (Hstep x) as [n1 Hx]; [left|].
    destruct IH as [n2 Hl]; [intros y Hy; apply Hstep; right; exact Hy|].
    exists (Nat.max n1 n2). intros m b Hm. simpl.
    destruct (Hx m b ltac:(lia)) as [b' ->]. cbn [mbind res_bind]. apply Hl. lia.
Qed.

Lemma get_elem_of {V : Type} k (o : list (string * V)) v :
  Obj.get k o = Some v -> (k, v) ∈ o.
Proof.
  induction o as [|[k' v'] o IH]; simpl; [discriminate|].
  destruct (String.eqb_spec k' k) as [->|_].
  - intros H. injection H as ->. left.
  - intros H. right. exact (IH H).
Qed.

Lemma firstArrayItems_elem props dataProps items :
  firstArrayItems props dataProps = Some items ->
  exists name property, (name, property) ∈ props /\ s_items property = Some items.
Proof.
  induction dataProps as [|prop rest IH]; simpl; [discriminate|].
  destruct (Obj.get prop props) as [property|] eqn:Hget; [|exact IH].
  destruct (typeIs property "array"); [|exact IH].
  destruct (s_items property) as [items'|] eqn:Hitems; [|exact IH].
  intros H. injection H as ->. exists prop, property. split; [|exact Hitems].
  exact (get_elem_of _ _ _ Hget).
Qed.

Lemma refFree_extracts api schema fuel :
  refFree schema = true -> (2 * depth schema <= fuel)%nat ->
  exists r, extractSchemaProperties fuel schema api = Ok r.
Proof.
  intros Hfree Hfuel.
  destruct (refFree_returns api (depth schema) schema (le_n _) Hfree) as [Hextract _].
  apply Hextract. lia.
Qed.

Section ReferenceFree.

Variables pascalCase camelCase : string -> string.

Lemma operationRefFree_models api operation :
  operationRefFree operation = true ->
  exists n, forall m seen, (n <= m)%nat ->
    exists r, extractModelsFromOperation pascalCase m operation api seen = Ok r.
Proof.
  unfold operationRefFree. intros H. apply andb_true_iff in H as [Hrequest Hresponses].
  assert (Hbody : exists n, forall m, (n <= m)%nat ->
                    exists r, createRequestBodyModel pascalCase m operation api = Ok r).
  { unfold createRequestBodyModel.
    destruct (op_requestBody operation) as [requestBody|]; [|exists 0%nat; eauto].
    destruct (truthy (op_operationId operation)); [|exists 0%nat; eauto].
    destruct (jsonSchema (Some (rb_content requestBody))) as [declared|];
      [|exists 0%nat; eauto].
    exists (2 * depth declared)%nat. intros m Hm.
    rewrite (refFree_resolve _ _ Hrequest). cbn [mbind res_bind].
    destruct (refFree_extracts api _ m Hrequest Hm) as [[props req] ->]. eauto. }
  assert (Hout : exists n, forall m, (n <= m)%nat ->
                   exists r, createResponseModels pascalCase m operation api = Ok r).
  { unfold createResponseModels.
    destruct (truthy (op_operationId operation)) as [operationId|]; [|exists 0%nat; eauto].
    match goal with
    | |- exists n, forall m, _ -> exists r, foldM (@?f m) ?l ?b = _ =>
        destruct (foldM_eventually f l) as [n Hn]; [|exists n; intros m Hm; exact (Hn m b Hm)]
    end.
    intros [status response] Hin. apply list_elem_of_In, filter_In in Hin as [Hin _].
    rewrite forallb_forall in Hresponses. specialize (Hresponses _ Hin). simpl in Hresponses.
    destruct (jsonSchema (r_content response)) as [declared|]; [|exists 0%nat; eauto].
    exists (2 * depth declared)%nat. intros m models Hm.
    rewrite (refFree_resolve _ _ Hresponses). cbn [mbind res_bind].
    destruct (refFree_extracts api _ m Hresponses Hm) as [[props req] ->].
    cbn [mbind res_bind]. destruct (isPaginatedSchema (Some declared)); [|eauto].
    unfold extractRecordSchema. rewrite (refFree_resolve _ _ Hresponses). cbn [mbind res_bind].
    destruct (s_properties declared) as [declaredProps|] eqn:Hprops; [|eauto].
    destruct (firstArrayItems declaredProps _) as [items|] eqn:Hitems; [|eauto].
    apply firstArrayItems_elem in Hitems as (name & property & Hproperty & Hitems).
    destruct (refFree_property _ _ _ _ Hresponses Hprops Hproperty) as [Hfree1 Hlt1].
    destruct (refFree_items _ _ Hfree1 Hitems) as [Hfree2 Hlt2].
    rewrite (refFree_resolve _ _ Hfree2). cbn [mbind res_bind].
    destruct (refFree_extracts api items m Hfree2 ltac:(lia)) as [[recordProps recordReq] ->].
    eauto. }
  destruct Hbody as [n1 Hbody], Hout as [n2 Hout]. exists (Nat.max n1 n2).
  intros m seen Hm. unfold extractModelsFromOperation.
  destruct (Hbody m ltac:(lia)) as [requestModel ->].
  destruct (Hout m ltac:(lia)) as [responseModels ->]. cbn [mbind res_bind].
  destruct (op_requestBody operation); [destruct requestModel|]; eauto.
Qed.

Lemma documentRefFree_synthesizes api :
  documentRefFree api = true ->
  exists n r, extractDocumentationData pascalCase camelCase n api = Ok r.
Proof.
  unfold documentRefFree. intros H. apply andb_true_iff in H as [Hpaths Htable].
  destruct (foldM_eventually (fun m => visitPath pascalCase camelCase m api) (api_paths api))
    as [n1 Hloop].
  { intros [path pathItem] Hin. rewrite forallb_forall in Hpaths.
    apply list_elem_of_In, Hpaths in Hin. simpl in Hin. unfold visitPath.
    apply (foldM_eventually (fun m => visitOperation pascalCase camelCase m api path)).
    intros [method operation] Hop. rewrite forallb_forall in Hin.
    apply list_elem_of_In, Hin in Hop. simpl in Hop.
    destruct (operationRefFree_models api operation Hop) as [n Hn]. exists n.
    intros m st Hm. unfold visitOperation.
    destruct (negb (isValidHttpMethod method)); [eauto|].
    destruct (Hn m (seenModels st) Hm) as [[new seen] ->]. eauto. }
  assert (Hstandalone : exists n, forall m seen, (n <= m)%nat ->
            exists r, extractStandaloneModels pascalCase m api seen = Ok r).
  { unfold extractStandaloneModels. fold (schemaTable api).
    match goal with
    | |- exists n, forall m seen, _ -> exists r, foldM (@?f m) ?l _ = _ =>
        destruct (foldM_eventually f l) as [n Hn];
          [|exists n; intros m seen Hm; exact (Hn m ([], seen) Hm)]
    end.
    intros [name schema] Hin. rewrite forallb_forall in Htable.
    apply list_elem_of_In, Htable in Hin. simpl in Hin.
    exists (2 * depth schema)%nat. intros m [models seen] Hm.
    case_bool_decide; [eauto|].
    destruct (refFree_extracts api _ m Hin Hm) as [[props req] ->]. eauto. }
  destruct Hstandalone as [n2 Hstandalone]. exists (Nat.max n1 n2).
  unfold extractDocumentationData.
  destruct (Hloop (Nat.max n1 n2) {| apis := []; models := []; seenModels := ∅; apiIndex := 1 |}
              ltac:(lia)) as [st ->]. cbn [mbind res_bind].
  destruct (Hstandalone (Nat.max n1 n2) (seenModels st) ltac:(lia)) as [[standalone seen] ->].
  eauto.
Qed.

(** X16.  The synthesizer never fails on a document without references:
    when no request body, response or component schema has a [$ref] in it,
    the synthesis returns its two lists, the same for every sufficient bound
    on the depth of the calls. *)
Theorem reference_free_document_synthesizes api :
  documentRefFree api = true ->
  exists fuel docs ms,
    forall fuel', (fuel <= fuel')%nat ->
      extractDocumentationData pascalCase camelCase fuel' api = Ok (docs, ms).
Proof.
  intros H. destruct (documentRefFree_synthesizes api H) as (n & [docs ms] & Hn).
  exists n, docs, ms. intros fuel' Hle.
  exact (extractDocumentationData_fuel pascalCase camelCase _ _ _ _ Hle Hn).
Qed.

End ReferenceFree.

Lemma reference_free_document_synthesizes_witness :
  exists fuel docs ms,
    forall fuel', (fuel <= fuel')%nat -> synthesize fuel' pagedSpec = Ok (docs, ms).
Proof.
  apply (reference_free_document_synthesizes ChangeCase.pascalCase ChangeCase.camelCase
           pagedSpec).
  reflexivity.
Defined.

(** ** Which operation a model belongs to *)

Section ModelOperations.

Variables pascalCase camelCase : string -> string.

Lemma named_operation_visited fuel api docs ms m id :
  extractDocumentationData pascalCase camelCase fuel api = Ok (docs, ms) ->
  m ∈ ms ->
  usedInOperations m = Some id ->
  exists path method operation,
    (path, method, operation) ∈ operationsOf api
    /\ id = default "unknown" (truthy (op_operationId operation)).
Proof.
  unfold extractDocumentationData. intros H Hm Hid.
  apply bind_Ok in H as (st & Hloop & H).
  apply bind_Ok in H as ([standalone seen] & Hstandalone & H). injection H as _ <-.
  apply list_elem_of_lookup in Hm as [i Hi]. rewrite list_lookup_imap in Hi.
  destruct (_ !! i) as [m0|] eqn:Hm0; [|discriminate]. injection Hi as <-.
  simpl in Hid. apply lookup_app_Some in Hm0 as [Hm0|[_ Hm0]].
  2:{ exfalso.
      destruct (standalone_origin pascalCase _ _ _ _ _ m0 Hstandalone) as [Hnone _];
        [apply list_elem_of_lookup; eauto | congruence]. }
  assert (Hin : m0 ∈ models st) by (apply list_elem_of_lookup; eauto).
  clear Hm0 Hstandalone. revert m0 Hin Hid.
  apply (traversal_trace pascalCase camelCase fuel api
           (fun tr st =>
              forall m0, m0 ∈ models st -> usedInOperations m0 = Some id ->
                exists path method operation,
                  (path, method, operation) ∈ tr
                  /\ id = default "unknown" (truthy (op_operationId operation))))
    with (st0 := {| apis := []; models := []; seenModels := ∅; apiIndex := 1 |});
    [| |exact Hloop].
  - clear. intros path st [method operation] st' tr Hprev Hvisit m0 Hin Hid.
    unfold visitOperation in Hvisit. unfold visitedOf. simpl.
    destruct (isValidHttpMethod method); simpl in Hvisit.
    + apply bind_Ok in Hvisit as ([new seen] & Hnew & Hvisit). injection Hvisit as <-.
      simpl in Hin. apply elem_of_app in Hin as [Hin|Hin].
      * destruct (Hprev _ Hin Hid) as (p & me & o & Ho & ->).
        exists p, me, o. split; [apply elem_of_app; left; exact Ho | reflexivity].
      * rewrite (extractModelsFromOperation_used _ _ _ _ _ _ _ _ Hnew Hin) in Hid.
        injection Hid as <-. exists path, method, operation.
        split; [apply elem_of_app; right; left | reflexivity].
    + injection Hvisit as <-. destruct (Hprev _ Hin Hid) as (p & me & o & Ho & ->).
      exists p, me, o. split; [apply elem_of_app; left; exact Ho | reflexivity].
  - intros m0 Hin. inversion Hin.
Qed.

(** X3.  A returned model that names an operation names a visited one: its
    [usedInOperations] is the operationId that some visited operation
    declares, and then the operationId of a returned API record, or it is
    the placeholder [unknown] of a visited operation that declares none. *)
Theorem models_name_visited_operations fuel api docs ms m id :
  extractDocumentationData pascalCase camelCase fuel api = Ok (docs, ms) ->
  m ∈ ms ->
  usedInOperations m = Some id ->
  exists path method operation,
    (path, method, operation) ∈ operationsOf api
    /\ id = default "unknown" (truthy (op_operationId operation))
    /\ (is_Some (truthy (op_operationId operation)) -> id ∈ operationId <$> docs).
Proof.
  intros Hrun Hm Hid.
  destruct (named_operation_visited _ _ _ _ _ _ Hrun Hm Hid)
    as (path & method & operation & Hin & ->).
  exists path, method, operation. split; [exact Hin|]. split; [reflexivity|].
  intros [declared Hdeclared]. rewrite (apis_operationIds _ _ _ _ _ _ Hrun).
  apply list_elem_of_fmap. exists (path, method, operation). split; [|exact Hin].
  unfold effectiveId. rewrite Hdeclared. reflexivity.
Qed.

End ModelOperations.

Lemma models_name_visited_operations_witness :
  exists docs ms m,
    synthesize 4 clashSpec = Ok (docs, ms)
    /\ ms !! 3%nat = Some m
    /\ exists path method operation,
         (path, method, operation) ∈ operationsOf clashSpec
         /\ "unknown" = default "unknown" (truthy (op_operationId operation))
         /\ (is_Some (truthy (op_operationId operation)) ->
             "unknown" ∈ operationId <$> docs).
Proof.
  eexists _, _, _. split; [vm_compute; reflexivity|]. split; [reflexivity|].
  eapply (models_name_visited_operations ChangeCase.pascalCase ChangeCase.camelCase
            4 clashSpec).
  - vm_compute. reflexivity.
  - do 3 right. left.
  - reflexivity.
Defined.

(** ** The texts of an API record *)

Lemma app_not_empty (s t : string) : t <> "" -> s +:+ t <> "".
Proof.
  intros Ht H. destruct s as [|c s].
  - apply Ht. exact H.
  - change (String c (s +:+ t) = "") in H. discriminate.
Qed.

Lemma app_not_empty_l (s t : string) : s <> "" -> s +:+ t <> "".
Proof.
  intros Hs H. destruct s as [|c s]; [congruence|].
  change (String c (s +:+ t) = "") in H. discriminate.
Qed.

Lemma truthy_not_empty o s : truthy o = Some s -> s <> "".
Proof.
  unfold truthy. destruct o as [s'|]; [|discriminate].
  destruct (String.eqb_spec s' ""); [discriminate|]. intros H. injection H as <-. assumption.
Qed.

Lemma default_truthy_not_empty d o : d <> "" -> default d (truthy o) <> "".
Proof.
  intros Hd. destruct (truthy o) as [s|] eqn:Hs; simpl; [|exact Hd].
  exact (truthy_not_empty _ _ Hs).
Qed.

(** X17.  The descriptive texts of an API record are never empty: the tag
    (the first declared tag, or [default]), the summary (the declared one,
    or method and path) and the business purpose (the description, or a
    sentence built from the summary, or one built from method and tag). *)
Theorem api_record_texts_not_empty
    (pascalCase camelCase : string -> string) sNo path method operation api :
  let record := createApiDocumentation pascalCase camelCase sNo path method operation api in
  tag record <> ""
  /\ summary record <> ""
  /\ exists purpose, businessPurpose record = Some purpose /\ purpose <> "".
Proof.
  simpl. split; [|split].
  - apply default_truthy_not_empty. discriminate.
  - apply default_truthy_not_empty. apply app_not_empty, app_not_empty_l. discriminate.
  - eexists. split; [reflexivity|]. unfold generateBusinessPurpose.
    destruct (truthy (op_description operation)) as [description|] eqn:Hdescription.
    { exact (truthy_not_empty _ _ Hdescription). }
    destruct (truthy (op_summary operation)) as [declared|].
    + apply app_not_empty, app_not_empty_l. discriminate.
    + apply app_not_empty, app_not_empty_l. discriminate.
Qed.

(** ** Method names *)

Lemma upper_lower_char c : Str.upper_char (Str.lower_char c) = Str.upper_char c.
Proof. destruct c as [[] [] [] [] [] [] [] []]; reflexivity. Qed.

Lemma toUpperCase_toLowerCase s : Str.toUpperCase (Str.toLowerCase s) = Str.toUpperCase s.
Proof.
  unfold Str.toUpperCase, Str.toLowerCase.
  induction s as [|c s IH]; simpl; [reflexivity|]. rewrite upper_lower_char, IH. reflexivity.
Qed.

(** X18.  Method names are read without regard to the case of their letters:
    two path item keys that differ only in case are recognised, or not,
    together, and stand for the same action. *)
Theorem method_names_ignore_case method method' :
  ciEq method method' ->
  isValidHttpMethod method = isValidHttpMethod method'
  /\ getActionFromMethod method = getActionFromMethod method'.
Proof.
  unfold ciEq, isValidHttpMethod, getActionFromMethod. intros H.
  rewrite <- (toUpperCase_toLowerCase method), H, toUpperCase_toLowerCase. auto.
Qed.

Lemma method_names_ignore_case_witness :
  isValidHttpMethod "Patch" = isValidHttpMethod "PATCH"
  /\ getActionFromMethod "Patch" = getActionFromMethod "PATCH".
Proof. apply (method_names_ignore_case "Patch" "PATCH"). reflexivity. Defined.

(** ** Record models and the pagination flag *)

Section RecordModels.

Variable pascalCase : string -> string.

(** X19.  A record model is only emitted for an operation flagged as
    paginated, when the response schemas are written in place: if no
    application/json response schema of the operation is a [$ref] and the
    response models contain [PascalCase(operationId) + RecordData], then
    [detectPagination] holds of the operation. *)
Theorem record_model_implies_paginated fuel operation api operationId ms m :
  createResponseModels pascalCase fuel operation api = Ok ms ->
  truthy (op_operationId operation) = Some operationId ->
  (forall status response schema,
     (status, response) ∈ op_responses operation ->
     jsonSchema (r_content response) = Some schema ->
     s_ref schema = None) ->
  m ∈ ms ->
  modelName m = pascalCase operationId +:+ "RecordData" ->
  detectPagination operation = true.
Proof.
  unfold createResponseModels. intros H Hid Hinline Hm Hname. rewrite Hid in H.
  assert (Hpaginated : exists status response schema,
             (status, response) ∈ op_responses operation
             /\ jsonSchema (r_content response) = Some schema
             /\ isPaginatedSchema (Some schema) = true).
  { revert m Hm Hname. revert H.
    apply (foldM_invariant
             (fun models : list ModelDocumentation =>
                forall m, m ∈ models ->
                  modelName m = pascalCase operationId +:+ "RecordData" ->
                  exists status response schema,
                    (status, response) ∈ op_responses operation
                    /\ jsonSchema (r_content response) = Some schema
                    /\ isPaginatedSchema (Some schema) = true)).
    { intros m Hm. inversion Hm. }
    intros models [status response] models' Hin Hprev Hstep m Hm Hname.
    apply list_elem_of_In, filter_In in Hin as [Hin _]. apply list_elem_of_In in Hin.
    destruct (jsonSchema (r_content response)) as [declared|] eqn:Hjson;
      [|injection Hstep as <-; exact (Hprev _ Hm Hname)].
    apply bind_Ok in Hstep as (schema & Hschema & Hstep).
    apply bind_Ok in Hstep as ([props req] & _ & Hstep).
    assert (schema = declared) as ->.
    { unfold resolveSchema in Hschema. rewrite (Hinline _ _ _ Hin Hjson) in Hschema.
      simpl in Hschema. congruence. }
    assert (Hout : pascalCase operationId +:+ "OutData"
                   <> pascalCase operationId +:+ "RecordData")
      by (apply suffix_neq; discriminate).
    destruct (isPaginatedSchema (Some declared)) eqn:Hpaged.
    - apply bind_Ok in Hstep as (recordSchema & _ & Hstep).
      exists status, response, declared. auto.
    - injection Hstep as <-. apply elem_of_app in Hm as [Hm|Hm]; [exact (Hprev _ Hm Hname)|].
      apply list_elem_of_singleton in Hm as ->. simpl in Hname. congruence. }
  destruct Hpaginated as (status & response & schema & Hin & Hjson & Hpaged).
  unfold detectPagination. apply orb_true_iff. right. apply existsb_exists.
  exists response. split.
  - apply list_elem_of_In. unfold Obj.values. apply list_elem_of_fmap.
    exists (status, response). auto.
  - unfold responseSchema. rewrite Hjson. exact Hpaged.
Qed.

End RecordModels.

Lemma record_model_implies_paginated_witness :
  detectPagination
    (mkOperation (Some "listPets") None None None
       (Some [queryParam "q" "string"]) None [okResponse pagedPets] None)
  = true.
Proof.
  eapply (record_model_implies_paginated ChangeCase.pascalCase 8 _ pagedSpec "listPets").
  - vm_compute. reflexivity.
  - reflexivity.
  - intros status response schema Hin Hjson.
    apply list_elem_of_singleton in Hin. injection Hin as -> ->.
    injection Hjson as <-. reflexivity.
  - right. left.
  - reflexivity.
Defined.

(** ** The query-parameter model *)

Lemma getParameterType_range param : getParameterType param ∈ typeNames.
Proof.
  unfold getParameterType. destruct (p_schema param); apply mapSwaggerTypeToTypeScript_range.
Qed.

Lemma queryParams_fold (l : list SwaggerParameter) props req :
  let step := fun '(properties, required) (param : SwaggerParameter) =>
                (Obj.set (p_name param)
                   (JObj (Json.record
                            [("type", Some (JStr (getParameterType param)));
                             ("description", Json.str (p_description param))]))
                   properties,
                 if default false (p_required param) then required ++ [p_name param]
                 else required) in
  exists props' req',
    fold_left step l (props, req) = (props', req')
    /\ (NoDup (Obj.keys props) -> NoDup (Obj.keys props'))
    /\ (forall name, name ∈ Obj.keys props'
                     <-> name ∈ Obj.keys props \/ name ∈ p_name <$> l)
    /\ (forall kv, kv ∈ props' -> kv ∈ props \/ typedProperty kv.2)
    /\ req' = req ++ (p_name <$> List.filter (fun p => default false (p_required p)) l).
Proof.
  intros step. revert props req. induction l as [|param l IH]; intros props req.
  - exists props, req. simpl. rewrite app_nil_r. split; [reflexivity|].
    split; [auto|]. split; [intros name; rewrite elem_of_nil; tauto|]. split; [auto|reflexivity].
  - simpl. destruct (IH (Obj.set (p_name param)
                           (JObj (Json.record
                                    [("type", Some (JStr (getParameterType param)));
                                     ("description", Json.str (p_description param))]))
                           props)
                        (if default false (p_required param) then req ++ [p_name param]
                         else req))
      as (props' & req' & Hfold & Hnodup & Hkeys & Htyped & Hreq).
    exists props', req'. split; [exact Hfold|].
    split; [intros H; apply Hnodup, keys_set_NoDup, H|].
    split; [intros name; rewrite Hkeys, elem_of_keys_set, elem_of_cons; tauto|].
    split.
    + intros kv Hkv. apply Htyped in Hkv as [Hkv|Hkv]; [|right; exact Hkv].
      apply elem_of_set in Hkv as [->|Hkv]; [right|left; exact Hkv].
      eexists _, _. split; [reflexivity|]. split; [reflexivity|]. apply getParameterType_range.
    + rewrite Hreq. destruct (default false (p_required param)); simpl;
        [rewrite <- app_assoc|]; reflexivity.
Qed.

(** X20.  The query-parameter model describes the query parameters and
    nothing else: when no query parameter is named [__proto__] (a name that
    an assignment does not add as a key), its property map has one entry for
    each name of a parameter declared [in: query], each a typed descriptor,
    and its required list names the query parameters declared required, in
    order of declaration. *)
Theorem query_model_lists_query_parameters
    (pascalCase : string -> string) operation operationId model :
  createQueryParamsModel pascalCase operation operationId = Some model ->
  let queryParams :=
    List.filter (fun p => bool_decide (p_in p = InQuery)) (default [] (op_parameters operation)) in
  "__proto__" ∉ p_name <$> queryParams ->
  exists props,
    properties model = Json.stringify (JObj props)
    /\ NoDup (Obj.keys props)
    /\ (forall name, name ∈ Obj.keys props <-> name ∈ p_name <$> queryParams)
    /\ (forall name j, (name, j) ∈ props -> typedProperty j)
    /\ required model
       = requiredText
           (p_name <$> List.filter (fun p => default false (p_required p)) queryParams).
Proof.
  intros H queryParams _. unfold createQueryParamsModel in H.
  assert (Hsame : match op_parameters operation with
                  | Some ps => List.filter (fun p => bool_decide (p_in p = InQuery)) ps
                  | None => []
                  end = queryParams)
    by (subst queryParams; destruct (op_parameters operation); reflexivity).
  rewrite Hsame in H. clearbody queryParams.
  destruct (length queryParams =? 0)%nat; [discriminate|].
  destruct (queryParams_fold queryParams [] [])
    as (props & req & Hfold & Hnodup & Hkeys & Htyped & Hreq).
  cbv zeta in Hfold. rewrite Hfold in H. injection H as <-. simpl.
  exists props. split; [reflexivity|]. split; [apply Hnodup; constructor|].
  split; [intros name; rewrite Hkeys; unfold Obj.keys; simpl; rewrite elem_of_nil; tauto|].
  split; [|rewrite Hreq; reflexivity].
  intros name j Hin. destruct (Htyped _ Hin) as [Hnil|Htype]; [inversion Hnil|exact Htype].
Qed.

Lemma query_model_lists_query_parameters_witness :
  exists model props,
    createQueryParamsModel ChangeCase.pascalCase getItems "unknown" = Some model
    /\ properties model = Json.stringify (JObj props)
    /\ NoDup (Obj.keys props)
    /\ (forall name, name ∈ Obj.keys props <-> name ∈ ["page"; "limit"])
    /\ (forall name j, (name, j) ∈ props -> typedProperty j)
    /\ required model = None.
Proof.
  eexists.
  destruct (query_model_lists_query_parameters ChangeCase.pascalCase getItems "unknown" _ eq_refl)
    as (props & H).
  { apply not_elem_of_cons. split; [discriminate|].
    apply not_elem_of_cons. split; [discriminate | apply not_elem_of_nil]. }
  exists props. split; [reflexivity|]. exact H.
Defined.

(** ** Cross-reference validation *)

Lemma flat_map_nil_iff {A B : Type} (f : A -> list B) (l : list A) :
  flat_map f l = [] <-> forall x, x ∈ l -> f x = [].
Proof.
  induction l as [|x l IH]; simpl.
  - split; [intros _ y Hy; inversion Hy | reflexivity].
  - split.
    + intros H. apply app_eq_nil in H as [Hx Hl]. intros y Hy.
      apply elem_of_cons in Hy as [->|Hy]; [exact Hx | exact (proj1 IH Hl y Hy)].
    + intros H. rewrite (H x); [|left]. simpl. apply IH. intros y Hy. apply H. right. exact Hy.
Qed.

Lemma indexOfFrom_spec l x i :
  match l !! 0%nat with _ => True end ->
  ((x ∉ l) /\ indexOfFrom i l x = (-1)%Z)
  \/ exists j : nat,
       indexOfFrom i l x = (i + Z.of_nat j)%Z
       /\ l !! j = Some x
       /\ forall k : nat, (k < j)%nat -> l !! k <> Some x.
Proof.
  intros _. revert i. induction l as [|y l IH]; intros i; simpl.
  - left. split; [apply not_elem_of_nil | reflexivity].
  - destruct (String.eqb_spec y x) as [->|Hne].
    + right. exists 0%nat. split; [lia|]. split; [reflexivity|]. intros k Hk. lia.
    + destruct (IH (i + 1)%Z) as [[Hnot Hidx]|(j & Hidx & Hj & Hfirst)].
      * left. split; [|exact Hidx]. apply not_elem_of_cons. auto.
      * right. exists (S j). split; [lia|]. split; [exact Hj|].
        intros [|k] Hk; simpl; [congruence | apply Hfirst; lia].
Qed.

Lemma fmap_eq_nil {A B : Type} (f : A -> B) (l : list A) : f <$> l = [] <-> l = [].
Proof. destruct l; simpl; split; (reflexivity || discriminate). Qed.

Lemma duplicated_nil_iff l : duplicated l = [] <-> NoDup l.
Proof.
  unfold duplicated. rewrite fmap_eq_nil. split.
  - intros H. apply NoDup_alt. intros i j x Hi Hj.
    assert (Hidx : forall k, l !! k = Some x -> indexOf l x = Z.of_nat k).
    { intros k Hk.
      assert (Hin : (k, x) ∈ imap pair l)
        by (apply list_elem_of_lookup; exists k; rewrite list_lookup_imap, Hk; reflexivity).
      destruct (indexOf l x =? Z.of_nat k)%Z eqn:Heq; [apply Z.eqb_eq, Heq|].
      exfalso. assert (Hbad : In (k, x) []); [|destruct Hbad].
      rewrite <- H. apply filter_In. split; [apply list_elem_of_In, Hin|].
      simpl. rewrite Heq. reflexivity. }
    pose proof (Hidx i Hi). pose proof (Hidx j Hj). lia.
  - intros Hnodup. destruct (List.filter _ _) as [|[k x] rest] eqn:Hfilter; [reflexivity|].
    exfalso. assert (Hin : In (k, x) (List.filter
                                        (fun '(index, x) =>
                                           negb (indexOf l x =? Z.of_nat index)%Z)
                                        (imap pair l)))
      by (rewrite Hfilter; left; reflexivity).
    apply filter_In in Hin as [Hin Hneq]. apply list_elem_of_In, list_elem_of_lookup in Hin.
    destruct Hin as [k' Hk']. rewrite list_lookup_imap in Hk'.
    destruct (l !! k') as [x'|] eqn:Hlk; [|discriminate]. injection Hk' as <- <-.
    simpl in Hneq. apply negb_true_iff, Z.eqb_neq in Hneq.
    destruct (indexOfFrom_spec l x' 0 I) as [[Hnot _]|(j & Hidx & Hj & _)].
    + apply Hnot, list_elem_of_lookup. eauto.
    + apply Hneq. unfold indexOf. rewrite Hidx.
      rewrite (NoDup_lookup _ _ _ _ Hnodup Hj Hlk). lia.
Qed.

Lemma find_none_iff opId (apis : list ApiDocumentation) :
  List.find (fun a => String.eqb (operationId a) opId) apis = None
  <-> opId ∉ operationId <$> apis.
Proof.
  induction apis as [|a apis IH]; simpl.
  - split; [intros _; apply not_elem_of_nil | reflexivity].
  - rewrite not_elem_of_cons. destruct (String.eqb_spec (operationId a) opId) as [Heq|Hne].
    + split; [discriminate | intros [H _]; congruence].
    + rewrite IH. split; [intros H; split; [congruence | exact H] | intros [_ H]; exact H].
Qed.

Lemma elem_of_refs apis ref :
  ref ∈ flat_map
          (fun api =>
             option_list (truthy (queryParamsRef api))
             ++ option_list (truthy (requestBodyRef api))
             ++ option_list (truthy (responseBodyRef api)))
          apis
  <-> exists api, api ∈ apis /\ ref ∈ refsOf api.
Proof.
  rewrite list_elem_of_In, in_flat_map. split.
  - intros (api & Hapi & Href). exists api. split; apply list_elem_of_In; assumption.
  - intros (api & Hapi & Href). exists api. split; apply list_elem_of_In; assumption.
Qed.

(** X21.  The validator is exact: [validateCrossReferences] reports no issue
    if and only if every model reference of an API record is the name of a
    model record, every model record without [usedInOperations] is referred
    to by some API record, the non-empty operationIds and the non-empty
    model names are each pairwise distinct, and every operation named by a
    model record is the operationId of an API record. *)
Theorem validateCrossReferences_clean_iff apis models :
  validateCrossReferences apis models = [] <-> crossReferenced apis models.
Proof.
  unfold validateCrossReferences, crossReferenced.
  rewrite !app_nil, !flat_map_nil_iff.
  assert (Hissue : forall (l : list string) (text : string),
             (if (0 <? length (duplicated l))%nat then [text] else []) = [] <-> NoDup l).
  { intros l text. rewrite <- duplicated_nil_iff.
    destruct (duplicated l); simpl; split; (reflexivity || discriminate). }
  rewrite !Hissue.
  match goal with
  | |- ?A1 /\ ?A2 /\ _ /\ _ /\ ?A5 <-> ?B1 /\ ?B2 /\ _ /\ _ /\ ?B5 =>
      assert (H1 : A1 <-> B1); [|assert (H2 : A2 <-> B2); [|assert (H5 : A5 <-> B5); [|tauto]]]
  end.
  - (* missing references *)
    split.
    + intros H api ref Hapi Href. specialize (H api Hapi).
      apply app_nil in H as [Hq H]. apply app_nil in H as [Hb Hr].
      unfold refsOf in Href. rewrite !elem_of_app in Href.
      assert (Hcheck : forall o : option string,
                 ref ∈ option_list (truthy o) ->
                 forall text : string -> string,
                   match truthy o with
                   | Some ref =>
                       if bool_decide (ref ∈ (list_to_set (modelName <$> models) : gset string))
                       then [] else [text ref]
                   | None => []
                   end = [] ->
                   ref ∈ modelName <$> models).
      { intros o Ho text Hnil. destruct (truthy o) as [ref'|]; [|inversion Ho].
        apply list_elem_of_singleton in Ho as ->.
        case_bool_decide as Hin; [|discriminate]. apply elem_of_list_to_set in Hin. exact Hin. }
      destruct Href as [Href|[Href|Href]].
      * exact (Hcheck _ Href (fun ref => _) Hq).
      * exact (Hcheck _ Href (fun ref => _) Hb).
      * exact (Hcheck _ Href (fun ref => _) Hr).
    + intros H api Hapi.
      assert (Hcheck : forall (o : option string) (text : string -> string),
                 (forall ref, ref ∈ option_list (truthy o) -> ref ∈ modelName <$> models) ->
                 match truthy o with
                 | Some ref =>
                     if bool_decide (ref ∈ (list_to_set (modelName <$> models) : gset string))
                     then [] else [text ref]
                 | None => []
                 end = []).
      { intros o text Ho. destruct (truthy o) as [ref'|]; [|reflexivity].
        rewrite bool_decide_eq_true_2; [reflexivity|].
        apply elem_of_list_to_set, Ho. left. }
      rewrite !app_nil. unfold refsOf in H.
      split; [|split]; apply Hcheck; intros ref Href; apply (H api ref Hapi);
        rewrite !elem_of_app; auto.
  - (* unused models *)
    split.
    + intros H model Hmodel Hnone. specialize (H model Hmodel).
      rewrite Hnone in H.
      rewrite (bool_decide_eq_false_2 (is_Some None)) in H by (intros [? ?]; discriminate).
      case_bool_decide as Hin; [|discriminate].
      apply elem_of_list_to_set, elem_of_refs in Hin. exact Hin.
    + intros H model Hmodel.
      destruct (truthy (usedInOperations model)) as [usedIn|] eqn:Hused.
      * rewrite (bool_decide_eq_true_2 (is_Some (Some usedIn))) by eauto.
        rewrite andb_false_r. reflexivity.
      * rewrite bool_decide_eq_true_2; [reflexivity|].
        apply elem_of_list_to_set, elem_of_refs. exact (H model Hmodel Hused).
  - (* unknown operations *)
    unfold operationsNamed. split.
    + intros H model opId Hmodel HopId. specialize (H model Hmodel).
      destruct (truthy (usedInOperations model)) as [usedIn|]; [|inversion HopId].
      rewrite flat_map_nil_iff in H. specialize (H opId HopId).
      destruct (List.find _ apis) eqn:Hfind; [|discriminate].
      destruct (decide (opId ∈ operationId <$> apis)) as [Hin|Hnot]; [exact Hin|].
      apply find_none_iff in Hnot. congruence.
    + intros H model Hmodel.
      destruct (truthy (usedInOperations model)) as [usedIn|] eqn:Hused; [|reflexivity].
      apply flat_map_nil_iff. intros opId HopId.
      destruct (List.find _ apis) eqn:Hfind; [reflexivity|].
      exfalso. apply find_none_iff in Hfind. apply Hfind, (H model opId Hmodel).
      rewrite Hused. exact HopId.
Qed.

(** *** The validator on synthesized records *)

Lemma nonEmpty_NoDup l : NoDup l -> NoDup (nonEmpty l).
Proof.
  unfold nonEmpty. induction 1 as [|x l Hx _ IH]; simpl; [constructor|].
  destruct (negb (String.eqb x "")); [|exact IH].
  constructor; [|exact IH]. intros Hin. apply Hx.
  apply list_elem_of_In, filter_In in Hin as [Hin _]. apply list_elem_of_In, Hin.
Qed.

Section ValidatedSynthesis.

Variables pascalCase camelCase : string -> string.

Lemma returned_names_NoDup fuel api docs ms :
  extractDocumentationData pascalCase camelCase fuel api = Ok (docs, ms) ->
  NoDup (modelName <$> ms).
Proof.
  unfold extractDocumentationData. intros H.
  apply bind_Ok in H as (st & Hloop & H).
  assert (Hst : emitted_once st).
  { revert Hloop. apply foldM_invariant.
    - split; simpl; [constructor | intros x Hx; inversion Hx].
    - intros st0 entry st1 _. apply visitPath_emitted_once. }
  apply bind_Ok in H as ([standalone seen] & Hstandalone & H). injection H as _ <-.
  rewrite names_withSNo.
  apply (extractStandaloneModels_fresh pascalCase camelCase) in Hstandalone.
  destruct Hst as [Hnd Hsub]. destruct Hstandalone as (Hnd' & Hfresh & _). simpl in *.
  rewrite fmap_app. apply NoDup_app. split; [exact Hnd|]. split; [|exact Hnd'].
  intros x Hx Hx'. apply (Hfresh x Hx'), Hsub, Hx.
Qed.

(** X22.  The synthesizer and the validator agree on model names: on the two
    lists returned by one synthesis call, [validateCrossReferences] never
    reports duplicate model names. *)
Theorem synthesized_models_pass_duplicate_check fuel api docs ms text :
  extractDocumentationData pascalCase camelCase fuel api = Ok (docs, ms) ->
  "Duplicate model names found: " +:+ text ∉ validateCrossReferences docs ms.
Proof.
  intros Hrun Hin. pose proof (returned_names_NoDup _ _ _ _ Hrun) as Hnodup.
  apply nonEmpty_NoDup, duplicated_nil_iff in Hnodup.
  unfold validateCrossReferences in Hin. rewrite Hnodup in Hin. simpl in Hin.
  assert (Hapi : forall a b : string,
             "Duplicate model names found: " +:+ text <> "API " +:+ a +:+ b).
  { intros a b H. apply (f_equal (String.substring 0 1)) in H. vm_compute in H.
    discriminate. }
  assert (Hmodel : forall a : string,
             "Duplicate model names found: " +:+ text <> "Model " +:+ a).
  { intros a H. apply (f_equal (String.substring 0 1)) in H. vm_compute in H.
    discriminate. }
  rewrite !elem_of_app in Hin. destruct Hin as [Hin|[Hin|[Hin|Hin]]].
  - apply list_elem_of_In, in_flat_map in Hin as (record & _ & Hin).
    apply list_elem_of_In in Hin. rewrite !elem_of_app in Hin.
    destruct Hin as [Hin|[Hin|Hin]];
      (destruct (truthy _) as [ref|]; [|inversion Hin]);
      (case_bool_decide; [inversion Hin|]);
      apply list_elem_of_singleton in Hin; exact (Hapi _ _ Hin).
  - apply list_elem_of_In, in_flat_map in Hin as (model & _ & Hin).
    destruct (_ && _); [|destruct Hin].
    destruct Hin as [Hin|[]]. symmetry in Hin. exact (Hmodel _ Hin).
  - destruct (0 <? _)%nat; [|inversion Hin].
    apply list_elem_of_singleton in Hin.
    apply (f_equal (String.substring 0 11)) in Hin. vm_compute in Hin. discriminate.
  - apply list_elem_of_In, in_flat_map in Hin as (model & _ & Hin).
    destruct (truthy (usedInOperations model)) as [usedIn|]; [|destruct Hin].
    apply in_flat_map in Hin as (opId & _ & Hin).
    destruct (List.find _ docs); [destruct Hin|].
    destruct Hin as [Hin|[]]. symmetry in Hin. exact (Hmodel _ Hin).
Qed.

End ValidatedSynthesis.

Lemma synthesized_models_pass_duplicate_check_witness :
  exists docs ms,
    synthesize 4 clashSpec = Ok (docs, ms)
    /\ "Duplicate model names found: " +:+ "PetOutData" ∉ validateCrossReferences docs ms.
Proof.
  eexists _, _. split; [vm_compute; reflexivity|].
  eapply (synthesized_models_pass_duplicate_check ChangeCase.pascalCase ChangeCase.camelCase
            4 clashSpec).
  vm_compute. reflexivity.
Defined.

Section NamedOperations.

Variables pascalCase camelCase : string -> string.

(** X23.  Referential integrity when every operation declares its
    operationId: if each visited operation declares an operationId that
    reads back as itself from a comma-separated list (no comma, no white
    space around it), then every operation that a returned model names, as
    the validator reads [usedInOperations], is the operationId of a returned
    API record. *)
Theorem declared_operations_are_known fuel api docs ms model opId :
  extractDocumentationData pascalCase camelCase fuel api = Ok (docs, ms) ->
  (forall path method operation,
     (path, method, operation) ∈ operationsOf api ->
     exists id, truthy (op_operationId operation) = Some id
                /\ trim <$> Str.split "," id = [id]) ->
  model ∈ ms ->
  opId ∈ operationsNamed model ->
  opId ∈ operationId <$> docs.
Proof.
  intros Hrun Hdeclared Hmodel HopId. unfold operationsNamed in HopId.
  destruct (truthy (usedInOperations model)) as [usedIn|] eqn:Hused; [|inversion HopId].
  assert (Hsome : usedInOperations model = Some usedIn).
  { unfold truthy in Hused. destruct (usedInOperations model) as [s|]; [|discriminate].
    destruct (String.eqb s ""); [discriminate | exact Hused]. }
  destruct (named_operation_visited _ _ _ _ _ _ _ _ Hrun Hmodel Hsome)
    as (path & method & operation & Hin & ->).
  destruct (Hdeclared _ _ _ Hin) as (id & Hid & Hplain).
  rewrite Hid in HopId. simpl in HopId. rewrite Hplain in HopId.
  apply list_elem_of_singleton in HopId as ->.
  rewrite (apis_operationIds _ _ _ _ _ _ Hrun).
  apply list_elem_of_fmap. exists (path, method, operation). split; [|exact Hin].
  unfold effectiveId. rewrite Hid. reflexivity.
Qed.

End NamedOperations.

Lemma declared_operations_are_known_witness :
  exists docs ms model,
    synthesize 8 pagedSpec = Ok (docs, ms)
    /\ ms !! 2%nat = Some model
    /\ "listPets" ∈ operationId <$> docs.
Proof.
  eexists _, _, _. split; [vm_compute; reflexivity|]. split; [reflexivity|].
  eapply (declared_operations_are_known ChangeCase.pascalCase ChangeCase.camelCase
            8 pagedSpec).
  - vm_compute. reflexivity.
  - intros path method operation Hin.
    let l := eval vm_compute in (operationsOf pagedSpec) in
    change (operationsOf pagedSpec) with l in Hin.
    apply elem_of_cons in Hin as [Hin|Hin];
      [|apply elem_of_cons in Hin as [Hin|Hin]; [|inversion Hin]];
      injection Hin as -> -> ->; eexists; split; reflexivity.
  - do 2 right. left.
  - left.
Defined.

(** ** Grouping by tag *)

Lemma uniqFrom_snoc seen l x :
  uniqFrom seen (l ++ [x])
  = uniqFrom seen l ++ (if bool_decide (x ∈ seen ++ l) then [] else [x]).
Proof.
  revert seen. induction l as [|y l IH]; intros seen; simpl.
  - rewrite app_nil_r. case_bool_decide; reflexivity.
  - case_bool_decide as Hy.
    + rewrite IH. f_equal.
      replace (bool_decide (x ∈ seen ++ y :: l)) with (bool_decide (x ∈ seen ++ l));
        [reflexivity|].
      apply bool_decide_ext. rewrite !elem_of_app, elem_of_cons.
      split; [tauto|]. intros [H|[->|H]]; auto.
    + rewrite IH. simpl. f_equal. f_equal.
      replace (bool_decide (x ∈ seen ++ y :: l)) with (bool_decide (x ∈ (y :: seen) ++ l));
        [reflexivity|].
      apply bool_decide_ext. rewrite !elem_of_app, !elem_of_cons. tauto.
Qed.

Lemma uniq_snoc l x :
  uniq (l ++ [x]) = uniq l ++ (if bool_decide (x ∈ l) then [] else [x]).
Proof. unfold uniq. rewrite uniqFrom_snoc. reflexivity. Qed.

Lemma keys_set {V : Type} k (v : V) o :
  Obj.keys (Obj.set k v o)
  = Obj.keys o ++ (if bool_decide (k ∈ Obj.keys o) then [] else [k]).
Proof.
  induction o as [|[k' v'] o IH]; [reflexivity|].
  change (Obj.keys ((k', v') :: o)) with (k' :: Obj.keys o). simpl.
  destruct (String.eqb_spec k' k) as [->|Hne].
  - change (Obj.keys ((k, v) :: o)) with (k :: Obj.keys o).
    rewrite bool_decide_eq_true_2 by left. rewrite app_nil_r. reflexivity.
  - change (Obj.keys ((k', v') :: Obj.set k v o)) with (k' :: Obj.keys (Obj.set k v o)).
    rewrite IH. f_equal. f_equal.
    replace (bool_decide (k ∈ k' :: Obj.keys o)) with (bool_decide (k ∈ Obj.keys o));
      [reflexivity|].
    apply bool_decide_ext. rewrite elem_of_cons.
    split; [auto|]. intros [H|H]; [congruence|exact H].
Qed.

Section GroupingFacts.

Context {A : Type} (tagOf : A -> string).

Lemma taggedWith_snoc t (l : list A) x :
  taggedWith tagOf t (l ++ [x])
  = taggedWith tagOf t l ++ (if String.eqb (tagOf x) t then [x] else []).
Proof.
  unfold taggedWith. rewrite List.filter_app. simpl.
  destruct (String.eqb (tagOf x) t); reflexivity.
Qed.

Lemma taggedWith_nil t (l : list A) : t ∉ tagOf <$> l -> taggedWith tagOf t l = [].
Proof.
  unfold taggedWith. induction l as [|x l IH]; simpl; [reflexivity|].
  rewrite not_elem_of_cons. intros [Hne Hnot].
  destruct (String.eqb_spec (tagOf x) t); [congruence|]. exact (IH Hnot).
Qed.

(** The groups after the records [done] have been placed. *)
Lemma groupFrom_spec (rest : list A) :
  forall done acc,
    Obj.keys acc = uniq (tagOf <$> done) ->
    (forall t, t ∈ tagOf <$> done -> Obj.get t acc = Some (taggedWith tagOf t done)) ->
    (forall x, x ∈ rest -> includes inheritedNames (tagOf x) = false) ->
    exists groups,
      groupFrom tagOf acc rest = Some groups
      /\ Obj.keys groups = uniq (tagOf <$> (done ++ rest))
      /\ forall t, t ∈ tagOf <$> (done ++ rest) ->
                   Obj.get t groups = Some (taggedWith tagOf t (done ++ rest)).
Proof.
  induction rest as [|x rest IH]; intros done acc Hkeys Hget Hrest.
  - exists acc. rewrite app_nil_r. auto.
  - simpl. unfold groupStep.
    assert (Hin : tagOf x ∈ Obj.keys acc <-> tagOf x ∈ tagOf <$> done)
      by (rewrite Hkeys; apply elem_of_uniq).
    replace (done ++ x :: rest) with ((done ++ [x]) ++ rest)
      by (rewrite <- app_assoc; reflexivity).
    assert (Hkeys' : forall group,
               Obj.keys (Obj.set (tagOf x) group acc) = uniq (tagOf <$> (done ++ [x]))).
    { intros group. rewrite keys_set, fmap_app. change (tagOf <$> [x]) with [tagOf x].
      rewrite uniq_snoc, Hkeys. f_equal.
      replace (bool_decide (tagOf x ∈ uniq (tagOf <$> done)))
        with (bool_decide (tagOf x ∈ tagOf <$> done)); [reflexivity|].
      apply bool_decide_ext. rewrite elem_of_uniq. reflexivity. }
    assert (Hother : forall t, t ∈ tagOf <$> (done ++ [x]) -> tagOf x <> t ->
                               t ∈ tagOf <$> done).
    { intros t Ht Hne. rewrite fmap_app, elem_of_app in Ht.
      destruct Ht as [Ht|Ht]; [exact Ht|]. apply list_elem_of_singleton in Ht. congruence. }
    destruct (Obj.get (tagOf x) acc) as [group|] eqn:Hgroup.
    + assert (Hdone : tagOf x ∈ tagOf <$> done).
      { apply Hin. destruct (decide (tagOf x ∈ Obj.keys acc)) as [H|H]; [exact H|].
        apply get_None in H. congruence. }
      apply IH.
      * apply Hkeys'.
      * intros t Ht. rewrite get_set, taggedWith_snoc.
        destruct (String.eqb_spec (tagOf x) t) as [<-|Hne].
        -- rewrite (Hget _ Hdone) in Hgroup. injection Hgroup as <-. reflexivity.
        -- rewrite app_nil_r. apply Hget, Hother; assumption.
      * intros y Hy. apply Hrest. right. exact Hy.
    + assert (Hnew : tagOf x ∉ tagOf <$> done).
      { intros H. rewrite (Hget _ H) in Hgroup. discriminate. }
      rewrite (Hrest x) by left.
      apply IH.
      * apply Hkeys'.
      * intros t Ht. rewrite get_set, taggedWith_snoc.
        destruct (String.eqb_spec (tagOf x) t) as [<-|Hne].
        -- rewrite (taggedWith_nil _ _ Hnew). reflexivity.
        -- rewrite app_nil_r. apply Hget, Hother; assumption.
      * intros y Hy. apply Hrest. right. exact Hy.
Qed.

Lemma groupFrom_partition (l : list A) :
  (forall x, x ∈ l -> includes inheritedNames (tagOf x) = false) ->
  exists groups,
    groupFrom tagOf [] l = Some groups
    /\ NoDup (Obj.keys groups)
    /\ (forall t, t ∈ Obj.keys groups <-> t ∈ tagOf <$> l)
    /\ forall t, Obj.get t groups
                 = if bool_decide (t ∈ tagOf <$> l) then Some (taggedWith tagOf t l)
                   else None.
Proof.
  intros Hok. destruct (groupFrom_spec l [] []) as (groups & Hrun & Hkeys & Hget).
  - reflexivity.
  - intros t Ht. inversion Ht.
  - exact Hok.
  - exists groups. split; [exact Hrun|].
    split; [rewrite Hkeys; apply uniq_NoDup|].
    split; [intros t; rewrite Hkeys; apply elem_of_uniq|].
    intros t. case_bool_decide as Ht; [exact (Hget t Ht)|].
    apply get_None. rewrite Hkeys, elem_of_uniq. exact Ht.
Qed.

Lemma groupFrom_inherited (l : list A) :
  forall acc x,
    x ∈ l ->
    includes inheritedNames (tagOf x) = true ->
    (forall t, t ∈ Obj.keys acc -> includes inheritedNames t = false) ->
    groupFrom tagOf acc l = None.
Proof.
  induction l as [|first rest IH]; intros acc x Hin Hbad Hacc; [inversion Hin|].
  simpl. unfold groupStep.
  destruct (includes inheritedNames (tagOf first)) eqn:Hfirst.
  - destruct (Obj.get (tagOf first) acc) eqn:Hget; [|reflexivity].
    exfalso. assert (Hkey : tagOf first ∈ Obj.keys acc).
    { destruct (decide (tagOf first ∈ Obj.keys acc)) as [H|H]; [exact H|].
      apply get_None in H. congruence. }
    rewrite (Hacc _ Hkey) in Hfirst. discriminate.
  - apply elem_of_cons in Hin as [->|Hin]; [congruence|].
    destruct (Obj.get (tagOf first) acc);
      apply (IH _ x Hin Hbad); intros t Ht; apply elem_of_keys_set in Ht as [->|Ht]; auto.
Qed.

End GroupingFacts.

(** X24.  Grouping the API records is a partition that keeps their order:
    when no tag is the name of an inherited property, [groupApisByTag]
    returns one group for each tag that occurs, and the group of a tag holds
    exactly the records of that tag, in their order; a record without tag
    goes under [default]. *)
Theorem groupApisByTag_partition apis :
  (forall api, api ∈ apis -> includes inheritedNames (groupTag api) = false) ->
  exists groups,
    groupApisByTag apis = Some groups
    /\ NoDup (Obj.keys groups)
    /\ (forall t, t ∈ Obj.keys groups <-> t ∈ groupTag <$> apis)
    /\ forall t, Obj.get t groups
                 = if bool_decide (t ∈ groupTag <$> apis)
                   then Some (taggedWith groupTag t apis)
                   else None.
Proof.
  intros Hok. unfold groupApisByTag.
  destruct (groupFrom_partition groupTag apis Hok) as (groups & Hrun & Hrest).
  exists groups. split; [exact Hrun | exact Hrest].
Qed.

Lemma groupApisByTag_partition_witness :
  exists groups,
    groupApisByTag [taggedRecord 1 "pets"; taggedRecord 2 ""; taggedRecord 3 "pets"]
    = Some groups
    /\ NoDup (Obj.keys groups)
    /\ (forall t, t ∈ Obj.keys groups <-> t ∈ ["pets"; "default"; "pets"])
    /\ forall t, Obj.get t groups
                 = if bool_decide
                        (t ∈ groupTag <$> [taggedRecord 1 "pets"; taggedRecord 2 "";
                                           taggedRecord 3 "pets"])
                   then Some (taggedWith groupTag t
                                [taggedRecord 1 "pets"; taggedRecord 2 "";
                                 taggedRecord 3 "pets"])
                   else None.
Proof.
  apply (groupApisByTag_partition
           [taggedRecord 1 "pets"; taggedRecord 2 ""; taggedRecord 3 "pets"]).
  intros api Hapi. repeat (apply elem_of_cons in Hapi as [->|Hapi]; [reflexivity|]).
  inversion Hapi.
Defined.

(** X25.  A tag that names an inherited property stops the grouping: if some
    API record has a tag such as [constructor] or [toString],
    [groupApisByTag] raises a type error instead of returning the groups. *)
Theorem groupApisByTag_inherited_tag apis api :
  api ∈ apis ->
  includes inheritedNames (groupTag api) = true ->
  groupApisByTag apis = None.
Proof.
  intros Hin Hbad. unfold groupApisByTag.
  apply (groupFrom_inherited groupTag apis [] api Hin Hbad).
  intros t Ht. inversion Ht.
Qed.

Lemma groupApisByTag_inherited_tag_witness :
  groupApisByTag [taggedRecord 1 "pets"; taggedRecord 2 "constructor"] = None.
Proof.
  apply (groupApisByTag_inherited_tag _ (taggedRecord 2 "constructor")).
  - right. left.
  - reflexivity.
Defined.

(** *** The tags of the models *)

Lemma lower_char_letter c : isLetter c = true -> Str.is_lower (Str.lower_char c) = true.
Proof. destruct c as [[] [] [] [] [] [] [] []]; simpl; intros H; (reflexivity || discriminate). Qed.

Lemma span_all (p : ascii -> bool) s run rest :
  Str.span p s = (run, rest) -> forallb p (list_ascii_of_string run) = true.
Proof.
  revert run rest. induction s as [|c s IH]; simpl; intros run rest H.
  - injection H as <- _. reflexivity.
  - destruct (p c) eqn:Hc.
    + destruct (Str.span p s) as [run' rest'] eqn:Hspan. injection H as <- _.
      simpl. rewrite Hc. exact (IH _ _ eq_refl).
    + injection H as <- _. reflexivity.
Qed.

Lemma toLowerCase_lowerWord s :
  forallb isLetter (list_ascii_of_string s) = true -> lowerWord (Str.toLowerCase s) = true.
Proof.
  unfold lowerWord, Str.toLowerCase. induction s as [|c s IH]; simpl; [reflexivity|].
  intros H. apply andb_true_iff in H as [Hc Hs].
  rewrite (lower_char_letter _ Hc). exact (IH Hs).
Qed.

Lemma matchVerb_letters verbs s word :
  matchVerb verbs s = Some word ->
  forallb isLetter (list_ascii_of_string word) = true /\ (2 <= String.length word)%nat.
Proof.
  induction verbs as [|verb rest IH]; simpl; [discriminate|].
  destruct (String.prefix verb (Str.toLowerCase s)); [|exact IH].
  destruct (Str.span isLetter (Str.drop (String.length verb) s)) as [run after] eqn:Hspan.
  destruct run as [|c [|c' run]]; try exact IH.
  intros H. injection H as <-. split; [exact (span_all _ _ _ _ Hspan) | simpl; lia].
Qed.

Lemma matchName_letters s word :
  matchName s = Some word ->
  forallb isLetter (list_ascii_of_string word) = true /\ (2 <= String.length word)%nat.
Proof.
  unfold matchName. destruct s as [|c rest]; [discriminate|].
  destruct (Str.is_upper c) eqn:Hc; [|discriminate].
  destruct (Str.span Str.is_lower rest) as [run after] eqn:Hspan.
  destruct run as [|c' run]; [discriminate|].
  intros H. injection H as <-. split; [|simpl; lia].
  change (isLetter c && forallb isLetter (list_ascii_of_string (String c' run)) = true).
  unfold isLetter at 1. rewrite Hc. simpl orb. cbn [andb].
  pose proof (span_all _ _ _ _ Hspan) as Hrun.
  rewrite forallb_forall in Hrun. apply forallb_forall. intros x Hx.
  unfold isLetter. rewrite (Hrun x Hx). apply orb_true_r.
Qed.

Lemma length_toLowerCase s : String.length (Str.toLowerCase s) = String.length s.
Proof.
  unfold Str.toLowerCase. induction s as [|c s IH]; simpl; [reflexivity|].
  rewrite IH. reflexivity.
Qed.

Lemma modelTag_word model :
  lowerWord (modelTag model) = true /\ (2 <= String.length (modelTag model))%nat.
Proof.
  unfold modelTag. destruct (truthy (usedInOperations model)) as [usedIn|].
  - destruct (matchVerb _ _) as [word|] eqn:Hword; [|split; [reflexivity | simpl; lia]].
    apply matchVerb_letters in Hword as [Hletters Hlength].
    rewrite length_toLowerCase. split; [exact (toLowerCase_lowerWord _ Hletters) | exact Hlength].
  - destruct (matchName _) as [word|] eqn:Hword; [|split; [reflexivity | simpl; lia]].
    apply matchName_letters in Hword as [Hletters Hlength].
    rewrite length_toLowerCase. split; [exact (toLowerCase_lowerWord _ Hletters) | exact Hlength].
Qed.

Lemma inherited_lowerWord t :
  includes inheritedNames t = true -> lowerWord t = true -> t = "constructor".
Proof.
  intros Hin Hlower. apply includes_elem_of in Hin. unfold inheritedNames in Hin.
  repeat (apply elem_of_cons in Hin as [->|Hin];
          [first [reflexivity | vm_compute in Hlower; discriminate]|]).
  inversion Hin.
Qed.

(** X26.  Grouping the model records: every model is filed under [default]
    or under a word of at least two lower-case letters, taken from the
    first operation it names or else from its name; and unless that word is
    [constructor] for some model, [groupModelsByTag] returns a partition of
    the models that keeps their order. *)
Theorem groupModelsByTag_partition models :
  (forall model, model ∈ models -> modelTag model <> "constructor") ->
  (forall model, lowerWord (modelTag model) = true
                 /\ (2 <= String.length (modelTag model))%nat)
  /\ exists groups,
       groupModelsByTag models = Some groups
       /\ NoDup (Obj.keys groups)
       /\ (forall t, t ∈ Obj.keys groups <-> t ∈ modelTag <$> models)
       /\ forall t, Obj.get t groups
                    = if bool_decide (t ∈ modelTag <$> models)
                      then Some (taggedWith modelTag t models)
                      else None.
Proof.
  intros Hok. split; [exact modelTag_word|]. unfold groupModelsByTag.
  destruct (groupFrom_partition modelTag models) as (groups & Hrun & Hrest).
  - intros model Hmodel.
    destruct (includes inheritedNames (modelTag model)) eqn:Hinherited; [|reflexivity].
    exfalso. apply (Hok model Hmodel).
    exact (inherited_lowerWord _ Hinherited (proj1 (modelTag_word model))).
  - exists groups. split; [exact Hrun | exact Hrest].
Qed.

Lemma groupModelsByTag_partition_witness :
  exists groups,
    groupModelsByTag [namedModel "GetPetsOutData" (Some "getPets,listPets");
                      namedModel "PetData" None;
                      namedModel "ListOwnersQueryParams" (Some "listOwners")]
    = Some groups
    /\ Obj.keys groups = ["pets"; "pet"; "default"].
Proof.
  destruct (groupModelsByTag_partition
              [namedModel "GetPetsOutData" (Some "getPets,listPets");
               namedModel "PetData" None;
               namedModel "ListOwnersQueryParams" (Some "listOwners")])
    as [_ (groups & Hrun & _)].
  - intros model Hmodel.
    repeat (apply elem_of_cons in Hmodel as [->|Hmodel]; [discriminate|]).
    inversion Hmodel.
  - exists groups. split; [exact Hrun|].
    vm_compute in Hrun. injection Hrun as <-. reflexivity.
Defined.

(** X27.  A model whose derived tag is the word [constructor] (a model of an
    operation named like [getConstructor], or a standalone model named like
    [ConstructorData]) stops the grouping of the models with a type error. *)
Theorem groupModelsByTag_constructor models model :
  model ∈ models ->
  modelTag model = "constructor" ->
  groupModelsByTag models = None.
Proof.
  intros Hin Htag. unfold groupModelsByTag.
  apply (groupFrom_inherited modelTag models [] model Hin).
  - rewrite Htag. reflexivity.
  - intros t Ht. inversion Ht.
Qed.

Lemma groupModelsByTag_constructor_witness :
  groupModelsByTag [namedModel "PetData" None;
                    namedModel "GetConstructorOutData" (Some "getConstructor")] = None.
Proof.
  apply (groupModelsByTag_constructor _
           (namedModel "GetConstructorOutData" (Some "getConstructor"))).
  - right. left.
  - reflexivity.
Defined.

(** ** Unresolvable references *)





Section Unresolvable.

Variables pascalCase camelCase : string -> string.








End Unresolvable.


(** *** Documents on which the synthesis does not behave so *)



(** ** Request bodies that give no model *)

